(** * Packed words: a shallow embedding of [packed_words.py]

    Packed words are integer sequences whose set of letters is an initial
    segment [{1,...,m}] of the positive integers.  This development embeds
    the validator, the global-descent factorization, the two labelled-forest
    codecs, the value-insertion primitives and the weak-order engine of
    [src/packed_words.py], and proves properties of them.

    Conventions of the embedding:
    - a Python [int] is a [Z]; positions produced by [range], [enumerate],
      [len] and [list.index] are [nat] and are injected into [Z] where the
      source does arithmetic on them;
    - the letters of a word live in the C [int] array of [ClonableIntArray]:
      [__init__] models the conversion, and [PackedWord] is the constructor
      on letters that fit, as those of any word of fewer than [2^31] letters;
    - a [PackedWord] is its list of letters; [_max] and [_size] are the
      functions [pw_max] and [length];
    - code that can raise returns a [result]; the exceptions are those of the
      raise sites of the source plus the built-in [ValueError]/[IndexError];
    - a Python [set] is a [gset]. *)

From stdpp Require Import base numbers list sets gmap sorting strings pretty.

Local Open Scope Z_scope.

(** ** Exceptions and the error monad *)

Inductive exn :=
  | NotPositiveIntegers (s : list Z) (* check: "{} is not a list of positive integers".format(self) *)
  | NotPacked (s : list Z)           (* check: "If number `k > 1` appears ...".format(self) *)
  | EmptyPositions                   (* upgrade_max: "The list must have at least one element." *)
  | NotOrdered (l : list Z)          (* upgrade_max: "The list {0} must be ordered.".format(l) *)
  | PositionsMismatch (l w : list Z) (* upgrade_max: "The list {0} doesn't match ... {1}.".format(l, self) *)
  | NotAMember (w : list Z)          (* interval: "{0} is not a member of {1}".format(other, parent) *)
  | ValueError                       (* a bare ValueError: max() of an empty list, list.index miss *)
  | IndexError                       (* list index out of range *)
  | KeyError                         (* missing dictionary key *)
  | OverflowError                    (* a letter that does not fit the C int of the array *)
  | OutOfFuel.                       (* the recursion bound of the embedding was reached *)

Inductive result (A : Type) :=
  | Ok (a : A)
  | Raise (e : exn).
Arguments Ok {A} a.
Arguments Raise {A} e.

Global Instance exn_eq_dec : EqDecision exn.
Proof. solve_decision. Defined.
Global Instance result_eq_dec `{EqDecision A} : EqDecision (result A).
Proof. solve_decision. Defined.

Global Instance result_ret : MRet result := λ A a, Ok a.
Global Instance result_bind : MBind result := λ A B f m,
  match m with Ok a => f a | Raise e => Raise e end.
Global Instance result_fmap : FMap result := λ A B f m,
  match m with Ok a => Ok (f a) | Raise e => Raise e end.

(** [[f(x) for x in l]] where [f] may raise. *)
Definition mapM_result {A B} (f : A → result B) : list A → result (list B) :=
  fix go l :=
    match l with
    | [] => Ok []
    | x :: l => y ← f x; ys ← go l; Ok (y :: ys)
    end.

(** [for x in l: acc = f(acc, x)] where [f] may raise. *)
Definition foldM_result {A B} (f : B → A → result B) : list A → B → result B :=
  fix go l acc :=
    match l with
    | [] => Ok acc
    | x :: l => acc' ← f acc x; go l acc'
    end.

(** ** Python built-ins *)

Definition len {A} (l : list A) : Z := Z.of_nat (length l).

(** [max(l)]: raises [ValueError] on the empty list. *)
Definition py_max (l : list Z) : result Z :=
  match l with
  | [] => Raise ValueError
  | x :: l => Ok (foldr Z.max x l)
  end.

(** [max(l + [d])] and [min(l + [d])]: never empty. *)
Definition max_with (d : Z) (l : list Z) : Z := foldr Z.max d l.
Definition min_with (d : Z) (l : list Z) : Z := foldr Z.min d l.

(** [l.index(x)]: first position of [x], [ValueError] when absent. *)
Fixpoint py_index (l : list Z) (x : Z) : result nat :=
  match l with
  | [] => Raise ValueError
  | y :: l => if decide (y = x) then Ok 0%nat else S <$> py_index l x
  end.

(** [l[i]] for a non-negative [i]: [IndexError] out of range. *)
Definition py_get {A} (l : list A) (i : nat) : result A :=
  match l !! i with
  | Some x => Ok x
  | None => Raise IndexError
  end.

(** [l[-1]]. *)
Definition py_last {A} (l : list A) : result A :=
  match last l with
  | Some x => Ok x
  | None => Raise IndexError
  end.

(** [l[:k]] and [l[k:]] for an arbitrary integer [k]: a negative bound
    counts from the end, and bounds are clamped to the list. *)
Definition slice_to {A} (k : Z) (l : list A) : list A :=
  if decide (k < 0) then take (length l - Z.to_nat (- k)) l
  else take (Z.to_nat k) l.
Definition slice_from {A} (k : Z) (l : list A) : list A :=
  if decide (k < 0) then drop (length l - Z.to_nat (- k)) l
  else drop (Z.to_nat k) l.

(** [l[i:j]] for non-negative bounds. *)
Definition slice {A} (i j : nat) (l : list A) : list A :=
  drop i (take j l).

(** [range(a, b)]. *)
Definition py_range (a b : Z) : list Z := seqZ a (b - a).

(** [sorted(set(l))]: the distinct values in increasing order. *)
Definition sorted_set (l : list Z) : list Z :=
  merge_sort Z.le (remove_dups l).

(** [repr] of a list of integers, as Python prints it. *)
Fixpoint repr_items (l : list Z) : string :=
  match l with
  | [] => ""
  | [x] => pretty x
  | x :: l => pretty x +:+ ", " +:+ repr_items l
  end.
Definition repr (l : list Z) : string := "[" +:+ repr_items l +:+ "]".

(** The message carried by each exception.  [str.format] substitutes its
    arguments for the placeholders of the template; a template without a
    placeholder ignores them. *)
Definition message (e : exn) : string :=
  match e with
  | NotPositiveIntegers s => repr s +:+ " is not a list of positive integers"
  | NotPacked s => "If number `k > 1` appears then the number `k - 1` must also appear"
  | EmptyPositions => "The list must have at least one element."
  | NotOrdered l => "The list " +:+ repr l +:+ " must be ordered."
  | PositionsMismatch l w =>
      "The list " +:+ repr l +:+ " doesn't match with the packed word " +:+ repr w +:+ "."
  | NotAMember w => repr w +:+ " is not a member of Packed words"
  | ValueError | IndexError | KeyError | OverflowError | OutOfFuel => ""
  end.

(** [sub in s] on strings. *)
Definition contains (s sub : string) : bool :=
  match String.index 0 sub s with Some _ => true | None => false end.

(** ** The class [PackedWord] *)

(** [self._max = 0 if not lst else max(lst)] *)
Definition pw_max (w : list Z) : Z :=
  match w with
  | [] => 0
  | x :: l => foldr Z.max x l
  end.

(** [PackedWord.check] *)
Definition check (w : list Z) : result unit :=
  if forallb (λ a, bool_decide (0 < a)) w then
    let s := sorted_set w in
    if decide (s = py_range 1 (max_with 0 (slice_from (-1) s) + 1))
    then Ok ()
    else Raise (NotPacked w)
  else Raise (NotPositiveIntegers w).

(** [PackedWord(lst)] with [check=True], the default, for letters that fit
    the C [int] of the array (see [__init__] for the others). *)
Definition PackedWord (lst : list Z) : result (list Z) :=
  _ ← check lst; Ok lst.

(** The range of a C [int]. *)
Definition fits_int (a : Z) : Prop := -2147483648 ≤ a ≤ 2147483647.

Global Instance fits_int_dec a : Decision (fits_int a).
Proof. unfold fits_int. apply _. Defined.

(** Modelled from the spec: the integer buffer of a packed word (§3) is the
    external array class [ClonableIntArray], whose [__init__], called by
    [PackedWord.__init__] (l.107), is not in [src/].  It copies [lst] into an
    array of C [int], which raises [OverflowError] at a letter outside the
    range of that type, and only then runs [check]. *)
Definition __init__ (lst : list Z) : result (list Z) :=
  if decide (Forall fits_int lst) then PackedWord lst
  else Raise OverflowError.

(** [PackedWords().pack(li)] *)
Definition pack (li : list Z) : result (list Z) :=
  let l := sorted_set li in
  lst ← mapM_result (λ i, k ← py_index l i; Ok (Z.of_nat k + 1)) li;
  PackedWord lst.

(** ** Global descents and ascents *)

(** The positions appended by the loop of [global_descents] (1-based),
    followed by [self._size] when [final_descent] is set. *)
Definition global_descents_pos (final_descent : bool) (w : list Z) : list nat :=
  let '(_, g) :=
    foldl (λ '(local_left_min, g) i,
             let local_left_min := Z.min local_left_min (w !!! i) in
             if decide (local_left_min > max_with 0 (drop (S i) w))
             then (local_left_min, g ++ [S i])
             else (local_left_min, g))
          (pw_max w, []) (seq 0 (length w - 1)) in
  if final_descent then g ++ [length w] else g.

(** [global_descents(final_descent, from_zero)] *)
Definition global_descents (final_descent from_zero : bool) (w : list Z) : list Z :=
  let g := Z.of_nat <$> global_descents_pos final_descent w in
  if from_zero then (λ i, i - 1) <$> g else g.

(** The [for j in g_descents[1:]] loop of [global_descents_factorization]. *)
Fixpoint gdf_loop (w : list Z) (i : nat) (rest : list nat) : result (list (list Z)) :=
  match rest with
  | [] => Ok []
  | j :: rest =>
      p ← pack (slice i j w);
      ps ← gdf_loop w j rest;
      Ok (p :: ps)
  end.

(** [global_descents_factorization] *)
Definition global_descents_factorization (w : list Z) : result (list (list Z)) :=
  match global_descents_pos true w with
  | [] => Ok [w]
  | i :: rest =>
      first ← pack (take i w);
      others ← gdf_loop w i rest;
      Ok (first :: others)
  end.

(** The positions appended by the loop of [global_ascents] (1-based),
    preceded by [1] when [initial_ascent] is set. *)
Definition global_ascents_pos (initial_ascent : bool) (w : list Z) : list nat :=
  match w with
  | [] => []
  | _ =>
    let '(_, g) :=
      foldl (λ '(local_left_max, g) i,
               let local_left_max := Z.max local_left_max (w !!! (i - 1)%nat) in
               if decide (local_left_max < min_with (pw_max w) (drop i w))
               then (local_left_max, g ++ [S i])
               else (local_left_max, g))
            (0, []) (seq 1 (length w - 1)) in
    if initial_ascent then 1%nat :: g else g
  end.

Definition global_ascents (initial_ascent from_zero : bool) (w : list Z) : list Z :=
  let g := Z.of_nat <$> global_ascents_pos initial_ascent w in
  if from_zero then (λ i, i - 1) <$> g else g.

(** ** The predicate [is_particular] *)

Inductive side := Left | Right.
Global Instance side_eq_dec : EqDecision side.
Proof. solve_decision. Defined.

Definition is_particular (p : list Z) (sd : side) : result bool :=
  if decide (p = []) then Raise ValueError
  else if decide (length p = 1%nat) then Ok true
  else if decide (global_descents_pos false p ≠ []) then Ok false
  else match sd with
  | Right =>
      m ← py_max p;
      p_m ← PackedWord (filter (λ x, x < m) p);
      if decide (p_m = []) then Ok true
      else
        let g_desc_fact := global_descents_pos true p_m in
        i ← py_index p m;
        d ← py_get g_desc_fact 0;
        Ok (bool_decide (i < d)%nat)
  | Left =>
      p_m ← pack (slice_to (-1) p);
      if decide (p_m = []) then Ok true
      else Ok (bool_decide (global_descents_pos false p_m = [])
               && negb (bool_decide (length p ∈ global_ascents_pos false p)))
  end.

(** ** Value insertion *)

(** [res[:pos] + [m] + res[pos:]] *)
Definition insert_at (m : Z) (res : list Z) (pos : Z) : list Z :=
  slice_to pos res ++ [m] ++ slice_from pos res.

Definition upgrade_max (w : list Z) (l : list Z) : result (list Z) :=
  if decide (l = []) then Raise EmptyPositions
  else if decide (w = []) then
    PackedWord (foldl (insert_at 1) w l)
  else if decide (merge_sort Z.le l ≠ l) then Raise (NotOrdered l)
  else
    lst ← py_last l;
    if decide (lst > len w + len l - 1) then Raise (PositionsMismatch l w)
    else
      mx ← py_max w;
      PackedWord (foldl (insert_at (mx + 1)) w l).

Definition upgrade_last (w : list Z) (t : Z * bool) : result (list Z) :=
  let '(val, b) := t in
  let bb := 1 - Z.b2z b in
  PackedWord (((λ x, if decide (x < val) then x else x + bb) <$> w) ++ [val]).

(** ** Labelled ordered trees *)

#[local] Unset Elimination Schemes.
Inductive LTree (L : Type) :=
  | Node (children : list (LTree L)) (label : L).
#[local] Set Elimination Schemes.
Arguments Node {L} children label.

Definition children {L} (t : LTree L) : list (LTree L) :=
  match t with Node c _ => c end.
Definition label {L} (t : LTree L) : L :=
  match t with Node _ l => l end.

(** Labels of the plain codec: [(cut, positions)]; of the left codec:
    [(cut, (value, seen))]. *)
Abbreviation plain_label := (Z * list Z)%type.
Abbreviation left_label := (Z * (Z * bool))%type.

(** [[i for i, x in enumerate(w) if x == m]], counting from [k]. *)
Fixpoint positions_from (k : nat) (m : Z) (w : list Z) : list nat :=
  match w with
  | [] => []
  | x :: w => if decide (x = m) then k :: positions_from (S k) m w
              else positions_from (S k) m w
  end.

(** ** The plain codec: encoder *)

(** The loop
    [while s <= pos_max[0] and s < len(self_m): cut += 1; s += len(g_desc_fact[cut])];
    [rest] is [g_desc_fact[cut+1:]]. *)
Fixpoint cut_loop (rest : list (list Z)) (p0 total : Z) (cut : nat) (s : Z)
  : result (nat * Z) :=
  if decide (s ≤ p0 ∧ s < total) then
    match rest with
    | [] => Raise IndexError
    | F :: rest => cut_loop rest p0 total (S cut) (s + len F)
    end
  else Ok (cut, s).

(** The body shared by the [*_forest] encoders:
    [[] if not self else [tree(pwi) for pwi in factors]]. *)
Definition forest_with {L} (order : list (list Z) → list (list Z))
    (tree : list Z → result (LTree L)) (w : list Z) : result (list (LTree L)) :=
  if decide (w = []) then Ok []
  else
    g_desc_fact ← global_descents_factorization w;
    mapM_result tree (order g_desc_fact).

Fixpoint packed_word_to_labelled_tree_fuel (fuel : nat) (w : list Z)
  : result (LTree plain_label) :=
  match fuel with
  | O => Raise OutOfFuel
  | S fuel =>
    m ← py_max w;
    let n := len w in
    if decide (m = 1) then Ok (Node [] (0, py_range 1 (1 + n)))
    else
      let pos_max := positions_from 0 m w in
      let self_m := filter (λ x, x < m) w in
      p0 ← py_get pos_max 0;
      if decide (length self_m ≤ p0)%nat then
        let lbl := py_range 1 (1 + len pos_max) in
        pw ← PackedWord self_m;
        children ← forest_with id (packed_word_to_labelled_tree_fuel fuel) pw;
        Ok (Node children (len children, lbl))
      else
        pw ← PackedWord self_m;
        g_desc_fact ← global_descents_factorization pw;
        F0 ← py_get g_desc_fact 0;
        '(cut, s) ← cut_loop (drop 1 g_desc_fact) (Z.of_nat p0) (len self_m) 0 (len F0);
        Fc ← py_get g_desc_fact cut;
        let s := s - len Fc in
        let lbl := (λ x : nat, Z.of_nat x - s + 1) <$> pos_max in
        children ← mapM_result (packed_word_to_labelled_tree_fuel fuel) g_desc_fact;
        Ok (Node children (Z.of_nat cut, lbl))
  end.

(** The recursion is on strictly shorter words, so [length w] calls suffice. *)
Definition packed_word_to_labelled_tree (w : list Z) : result (LTree plain_label) :=
  packed_word_to_labelled_tree_fuel (length w) w.

Definition packed_word_to_labelled_forest (w : list Z) : result (list (LTree plain_label)) :=
  forest_with id (packed_word_to_labelled_tree_fuel (length w)) w.

(** ** The left codec: encoder *)

Fixpoint packed_word_to_labelled_tree_left_fuel (fuel : nat) (w : list Z)
  : result (LTree left_label) :=
  match fuel with
  | O => Raise OutOfFuel
  | S fuel =>
    if decide (length w = 1%nat) then Ok (Node [] (0, (1, false)))
    else
      l ← py_last w;
      let self_l := slice_to (-1) w in
      let b := bool_decide (l ∈ self_l) in
      self_l ← pack self_l;
      g_desc_fact ← global_descents_factorization self_l;
      (* [b or l != max(self)]: [max] is evaluated only when [b] is false *)
      c ← (if b then Ok true else m ← py_max w; Ok (bool_decide (l ≠ m)));
      let cut := len g_desc_fact - Z.b2z c in
      lbl ← (if b then
               F0 ← py_get g_desc_fact 0;
               i ← py_index w l;
               py_get F0 i
             else
               m ← py_max w;
               if decide (l = m) then Ok 1
               else
                 F0 ← py_get g_desc_fact 0;
                 i ← py_index (take (length F0) w) (l - 1);
                 x ← py_get F0 i;
                 Ok (x + 1));
      children ← mapM_result (packed_word_to_labelled_tree_left_fuel fuel) (reverse g_desc_fact);
      Ok (Node children (cut, (lbl, b)))
  end.

Definition packed_word_to_labelled_tree_left (w : list Z) : result (LTree left_label) :=
  packed_word_to_labelled_tree_left_fuel (length w) w.

Definition packed_word_to_labelled_forest_left (w : list Z) : result (list (LTree left_label)) :=
  forest_with reverse (packed_word_to_labelled_tree_left_fuel (length w)) w.

(** ** Decoders *)

(** [l_shifted_concat = lambda w1, w2: PackedWord([x+max(w2) for x in w1]+w2.list())]:
    [max(w2)] is evaluated once for each letter of [w1]. *)
Definition l_shifted_concat (w1 w2 : list Z) : result (list Z) :=
  shifted ← mapM_result (λ x, mx ← py_max w2; Ok (x + mx)) w1;
  PackedWord (shifted ++ w2).

(** Run a list of computations from left to right. *)
Definition sequence_result {A} : list (result A) → result (list A) :=
  mapM_result id.

(** The body shared by the two [labelled_forest_to_packed_word*] decoders;
    [rev] selects [for t in f[::-1]] (left codec) or [for t in f] (plain).
    [[tree(t) for t in order(f)]] is run as the list of the computations
    [tree(t)], reordered, then sequenced: [tree] has no effect but raising. *)
Definition forest_decode_with {L} (rev : bool)
    (tree : LTree L → result (list Z)) (f : list (LTree L)) : result (list Z) :=
  match f with
  | [] => PackedWord []
  | [t] => tree t
  | _ =>
      list_w ← sequence_result ((if rev then reverse else id) (tree <$> f));
      res ← foldM_result l_shifted_concat list_w [];
      PackedWord res
  end.

Definition sum_list_Z (l : list Z) : Z := foldr Z.add 0 l.

(** [weight = lambda t: len(t.label()[1]) + sum(weight(ti) for ti in t)] *)
Fixpoint weight (t : LTree plain_label) : Z :=
  match t with
  | Node ch (_, lbl) => len lbl + sum_list_Z (weight <$> ch)
  end.

(** [weight_l = lambda t: sum(weight(ti) for ti in t[:t.label()[0]])] *)
Definition weight_l (t : LTree plain_label) : Z :=
  sum_list_Z (weight <$> slice_to (label t).1 (children t)).

Fixpoint labelled_tree_to_packed_word (t : LTree plain_label) : result (list Z) :=
  match t with
  | Node f (cut, lbl) =>
      res ← forest_decode_with false labelled_tree_to_packed_word f;
      upgrade_max res ((λ x, x + weight_l t - 1) <$> lbl)
  end.

Definition labelled_forest_to_packed_word (f : list (LTree plain_label)) : result (list Z) :=
  forest_decode_with false labelled_tree_to_packed_word f.

(** [nb_false = lambda t: 1 - t.label()[1][1] + sum(nb_false(ti) for ti in t)] *)
Fixpoint nb_false (t : LTree left_label) : Z :=
  match t with
  | Node ch (_, (_, seen)) => 1 - Z.b2z seen + sum_list_Z (nb_false <$> ch)
  end.

(** [nb_false_l = lambda t: sum(nb_false(ti) for ti in t[:t.label()[0]])] *)
Definition nb_false_l (t : LTree left_label) : Z :=
  sum_list_Z (nb_false <$> slice_to (label t).1 (children t)).

Fixpoint labelled_tree_to_packed_word_left (t : LTree left_label) : result (list Z) :=
  match t with
  | Node f (cut, (val, seen)) =>
      res ← forest_decode_with true labelled_tree_to_packed_word_left f;
      upgrade_last res (val + nb_false_l t, seen)
  end.

Definition labelled_forest_to_packed_word_left (f : list (LTree left_label)) : result (list Z) :=
  forest_decode_with true labelled_tree_to_packed_word_left f.

(** ** Ordered set partitions and compositions *)

(** [l[i]] and [l[i] = x] for an index computed by arithmetic: a negative
    index counts from the end. *)
Definition norm_index {A} (l : list A) (i : Z) : result nat :=
  if decide (0 ≤ i < len l) then Ok (Z.to_nat i)
  else if decide (- len l ≤ i < 0) then Ok (Z.to_nat (len l + i))
  else Raise IndexError.

(** Modelled from the spec: [OrderedSetPartition] is the external
    ordered-set-partition collaborator (§6), a sequence of blocks, each a set. *)
Definition OrderedSetPartition (lst : list (list Z)) : list (gset Z) :=
  list_to_set <$> lst.

Definition to_ordered_set_partition (w : list Z) : result (list (gset Z)) :=
  lst ← foldM_result
           (λ (lst : list (list Z)) '(i, val),
              k ← norm_index lst (val - 1);
              Ok (<[k := (lst !!! k) ++ [Z.of_nat i + 1]]> lst))
           (imap (λ i val, (i, val)) w)
           (replicate (Z.to_nat (pw_max w)) []);
  Ok (OrderedSetPartition lst).

(** Modelled from the spec: [evaluation_dict] is the external letter-count
    dictionary of a word (letter ↦ multiplicity). *)
Definition evaluation_dict (w : list Z) : gmap Z Z :=
  foldl (λ d x, <[x := default 0 (d !! x) + 1]> d) ∅ w.

Definition to_composition (w : list Z) : result (list Z) :=
  if decide (w = []) then Ok []
  else
    let d := evaluation_dict w in
    mapM_result (λ i, match d !! (i + 1) with Some c => Ok c | None => Raise KeyError end)
                (py_range 0 (pw_max w)).

(** Modelled from the spec: [to_standard] is the external collaborator
    [Standardize(sequence) -> Permutation] (§6): the letters are relabelled
    [1..n] in increasing order of value, equal letters from left to right. *)
Definition to_standard (w : list Z) : list Z :=
  imap (λ i x, len (filter (λ y, y < x) w) + len (filter (λ y, y = x) (take (S i) w))) w.

(** ** Inversions *)

Inductive support := Position | Value.

Definition inversions (sd : side) (sp : option support) (from_zero : bool) (w : list Z)
  : result (gset (Z * Z)) :=
  let sp := match sp with
            | Some sp => sp
            | None => match sd with Right => Position | Left => Value end
            end in
  if decide (w = []) then Ok ∅
  else
    let n := length w in
    let m := pw_max w in
    let fz := Z.b2z from_zero in
    match sd with
    | Right =>
        Ok (list_to_set
              (i ← seq 0 (n - 1);
               j ← seq (i + 1) (n - (i + 1));
               if decide (w !!! i > w !!! j)
               then [match sp with
                     | Position => (Z.of_nat i + 1 - fz, Z.of_nat j + 1 - fz)
                     | Value => (w !!! i, w !!! j)
                     end]
               else []))
    | Left =>
        let rev := reverse w in
        pairs ← mapM_result (λ i,
                   mapM_result (λ j,
                      a ← py_index w i;
                      r ← py_index rev j;
                      if decide (Z.of_nat a > Z.of_nat n - Z.of_nat r - 1)
                      then match sp with
                           | Value => Ok [(j, i)]
                           | Position =>
                               r ← py_index rev j;
                               a ← py_index w i;
                               Ok [(Z.of_nat n - Z.of_nat r - fz, Z.of_nat a + 1 - fz)]
                           end
                      else Ok [])
                     (py_range (i + 1) (m + 1)))
                   (py_range 1 m);
        Ok (list_to_set (concat (concat pairs)))
    end.

(** ** The right weak order *)

(** [self[:i] + [self[i+1], self[i]] + self[i+2:]] *)
Definition swap_adjacent (w : list Z) (i : nat) : list Z :=
  take i w ++ [w !!! S i; w !!! i] ++ drop (i + 2) w.

(** The results are built with [check=False]: no validation. *)
Definition right_weak_order_succ (w : list Z) : list (list Z) :=
  i ← seq 0 (length w - 1);
  if decide (w !!! i < w !!! S i) then [swap_adjacent w i] else [].

Definition right_weak_order_pred (w : list Z) : list (list Z) :=
  i ← seq 0 (length w - 1);
  if decide (w !!! i > w !!! S i) then [swap_adjacent w i] else [].

(** ** The left weak order *)

(** The inner loop: exchange every [i] with [i + 1]. *)
Definition swap_values (i : Z) (w : list Z) : list Z :=
  (λ x, if decide (x = i) then i + 1 else if decide (x = i + 1) then i else x) <$> w.

Definition left_weak_order_succ (w : list Z) : result (list (list Z)) :=
  if decide (w = []) then Ok []
  else
    succ ← mapM_result (λ i,
              r ← py_index (reverse w) i;
              a ← py_index w (i + 1);
              if decide (len w - 1 - Z.of_nat r < Z.of_nat a)
              then Ok [swap_values i w] else Ok [])
            (py_range 1 (pw_max w));
    Ok (concat succ).

Definition left_weak_order_pred (w : list Z) : result (list (list Z)) :=
  if decide (w = []) then Ok []
  else
    pred ← mapM_result (λ i,
              a ← py_index w i;
              r ← py_index (reverse w) (i + 1);
              if decide (Z.of_nat a > len w - 1 - Z.of_nat r)
              then Ok [swap_values i w] else Ok [])
            (py_range 1 (pw_max w));
    Ok (concat pred).

(** ** Comparison and intervals *)

Definition is_gequal (sd : side) (self pw : list Z) : result bool :=
  c1 ← (if decide (sd = Right) then
          a ← to_composition self; b ← to_composition pw; Ok (bool_decide (a = b))
        else Ok false);
  if (c1 : bool) then
    std_self ← PackedWord (to_standard self);
    std_pw ← PackedWord (to_standard pw);
    i_pw ← inversions Left None false std_pw;
    i_self ← inversions Left None false std_self;
    Ok (bool_decide (i_pw ⊆ i_self))
  else
    o1 ← to_ordered_set_partition self;
    o2 ← to_ordered_set_partition pw;
    let s1 : gset (gset Z) := list_to_set o1 in
    let s2 : gset (gset Z) := list_to_set o2 in
    if decide (sd = Left ∧ s1 = s2) then
      i_pw ← inversions Right None false pw;
      i_self ← inversions Right None false self;
      Ok (bool_decide (i_pw ⊆ i_self))
    else Ok false.

Definition is_lequal (sd : side) (self pw : list Z) : result bool :=
  is_gequal sd pw self.

(** The successor map of each side, as used by the intervals. *)
Definition weak_order_succ (sd : side) (w : list Z) : result (list (list Z)) :=
  match sd with
  | Right => Ok (right_weak_order_succ w)
  | Left => left_weak_order_succ w
  end.

(** Modelled from the spec: the iterator of Sage's graded
    [RecursivelyEnumeratedSet] is external; it is the graded breadth-first
    enumeration of §4.7, level by level, each level a set.  This is one level
    of the loop [for x in UP: ...] over that iterator: the body runs on [x]
    when it is yielded, then the successors of [x] join [next_level].  The
    boolean is set when the body executes [break]. *)
Fixpoint interval_level (sd : side) (top : list Z) (current : list (list Z))
    (res : list (list Z)) (next_level : gset (list Z))
  : result (list (list Z) * gset (list Z) * bool) :=
  match current with
  | [] => Ok (res, next_level, false)
  | x :: current =>
      le ← is_lequal sd x top;
      if (le : bool) then
        ys ← weak_order_succ sd x;
        interval_level sd top current (res ++ [x]) (next_level ∪ list_to_set ys)
      else
        ix ← inversions sd None false x;
        it ← inversions sd None false top;
        if decide (size it < size ix)%nat then Ok (res, next_level, true)
        else
          ys ← weak_order_succ sd x;
          interval_level sd top current res (next_level ∪ list_to_set ys)
  end.

(** Modelled from the spec: the level loop of the same external iterator,
    [while len(current_level) > 0: ...], run for at most [fuel] levels. *)
Fixpoint interval_levels (fuel : nat) (sd : side) (top : list Z)
    (current : list (list Z)) (res : list (list Z)) : result (list (list Z)) :=
  match fuel with
  | O => Raise OutOfFuel
  | S fuel =>
      if decide (current = []) then Ok res
      else
        '(res, next_level, stop) ← interval_level sd top current res ∅;
        if (stop : bool) then Ok res
        else interval_levels fuel sd top (elements next_level) res
  end.

Definition weak_order_interval (fuel : nat) (sd : side) (self other : list Z)
  : result (list (list Z)) :=
  (* [other in self.parent()], the family of all packed words *)
  match PackedWord other with
  | Raise _ => Raise (NotAMember other)
  | Ok other =>
      ge ← is_gequal sd self other;
      if (ge : bool) then interval_levels fuel sd self [other] []
      else
        ge' ← is_gequal sd other self;
        if (ge' : bool) then interval_levels fuel sd other [self] []
        else Ok []
  end.

Definition right_weak_order_interval (fuel : nat) := weak_order_interval fuel Right.
Definition left_weak_order_interval (fuel : nat) := weak_order_interval fuel Left.

(** ** Specification-side predicates *)

(** [w] uses exactly the letters [1..m]. *)
Definition Packed (m : Z) (w : list Z) : Prop :=
  0 ≤ m ∧ ∀ k, k ∈ w ↔ 1 ≤ k ≤ m.

(** [m] is the maximum of [s]. *)
Definition is_maximum (m : Z) (s : list Z) : Prop :=
  m ∈ s ∧ ∀ x, x ∈ s → x ≤ m.

(** Validity as the specification words it: [s] is empty, or every entry is
    positive and the distinct values of [s] are exactly [{1,...,max(s)}]. *)
Definition valid_sequence (s : list Z) : Prop :=
  s = [] ∨ (Forall (λ a, 0 < a) s ∧ ∃ m, is_maximum m s ∧ ∀ k, k ∈ s ↔ 1 ≤ k ≤ m).

(** The message of [e] shows the sequence [s]. *)
Definition reports (e : exn) (s : list Z) : Prop :=
  contains (message e) (repr s) = true.

(** The error kinds of the specification (§7). *)
Inductive error_kind :=
  | InvalidPackedWord | EmptyInsertionList | PositionMismatch | NotAMemberKind | OtherError.

Definition kind (e : exn) : error_kind :=
  match e with
  | NotPositiveIntegers _ | NotPacked _ => InvalidPackedWord
  | EmptyPositions => EmptyInsertionList
  | NotOrdered _ | PositionsMismatch _ _ => PositionMismatch
  | NotAMember _ => NotAMemberKind
  | ValueError | IndexError | KeyError | OverflowError | OutOfFuel => OtherError
  end.

(** [r] is [w] with the letter [m] inserted at each position of [l]. *)
Definition inserted_at (m : Z) (w l r : list Z) : Prop :=
  length r = (length w + length l)%nat ∧
  (∀ p, p ∈ l → r !! Z.to_nat p = Some m) ∧
  filter (λ x, x ≠ m) r = w.

(** Where [list.insert(pos, x)] puts [x] in a list of [n] items: a negative
    [pos] counts from the end, and the index is brought back into [0..n]. *)
Definition insertion_index (n : nat) (pos : Z) : nat :=
  if decide (pos < 0) then Z.to_nat (Z.of_nat n + pos)
  else Z.to_nat pos `min` n.

(** [w] after [m] has been inserted at the positions of [l], one after the
    other, each in the word that the earlier insertions have produced. *)
Fixpoint insert_each (m : Z) (w l : list Z) : list Z :=
  match l with
  | [] => w
  | p :: l =>
      let j := insertion_index (length w) p in
      insert_each m (take j w ++ m :: drop j w) l
  end.

(** Position [d] cuts [w]: every letter before it exceeds every letter
    from it on (a global descent when [0 < d < len(w)]). *)
Definition cuts (w : list Z) (d : nat) : Prop :=
  Forall (λ a, Forall (λ b, b < a) (drop d w)) (take d w).

Global Instance cuts_dec w d : Decision (cuts w d).
Proof. unfold cuts. apply _. Defined.

(** [w] has no global descent. *)
Definition irreducible (w : list Z) : Prop :=
  ∀ d, (0 < d < length w)%nat → ¬ cuts w d.

(** [Fs] is the global-descent factorization of [w]: the first factor,
    shifted above the rest, followed by the factorization of the rest. *)
Inductive Factorization : list Z → list (list Z) → Prop :=
  | Fact_one w m :
      Packed m w → w ≠ [] → irreducible w → Factorization w [w]
  | Fact_cons F w' Fs m t :
      Packed m F → F ≠ [] → irreducible F → Packed t w' →
      Factorization w' Fs →
      Factorization (((λ x, x + t) <$> F) ++ w') (F :: Fs).

(** Every occurrence of [p] in [w] comes before every occurrence of [q]. *)
Definition before (w : list Z) (p q : Z) : Prop :=
  ∀ a b, w !! a = Some p → w !! b = Some q → (a < b)%nat.

(** The word [w] has exactly [n] inversions of the side [sd] (on positions
    for the right order, on values for the left one: the default supports). *)
Definition inversion_count (sd : side) (w : list Z) (n : nat) : Prop :=
  ∃ I, inversions sd None false w = Ok I ∧ size I = n.

(** [u] and [v] induce the same set partition of the positions: they have
    the same length and equal letters at the same pairs of positions. *)
Definition same_set_partition (u v : list Z) : Prop :=
  length u = length v ∧
  ∀ i j x y x' y',
    u !! i = Some x → u !! j = Some y → v !! i = Some x' → v !! j = Some y' →
    (x = y ↔ x' = y').

(** ** Auxiliary definitions of the proofs *)

(** [l] itself or reversed. *)
Definition reorder {A} (rev : bool) (l : list A) : list A :=
  if rev then reverse l else l.

(** The relabelling performed by [pack] on the prefix of the left-variant
    encoder: the identity when the last letter [l] occurs in the prefix
    ([b] true), and closing the gap left by [l] otherwise. *)
Definition close_gap (b : bool) (l x : Z) : Z :=
  if b then x else if decide (x < l) then x else x - 1.

(** Exchanging two integers. *)
Definition transpose (a b x : Z) : Z :=
  if decide (x = a) then b else if decide (x = b) then a else x.

(** Exchanging the positions [i] and [i + 1]. *)
Definition transpose_nat (i a : nat) : nat :=
  if decide (a = i) then S i else if decide (a = S i) then i else a.

(** ** Further methods of [PackedWord] *)

(** [__add__]: [PackedWord([i for i in self] + [i for i in pw])] *)
Definition __add__ (self pw : list Z) : result (list Z) :=
  PackedWord (self ++ pw).

(** The right operand of [__mul__]: a [Permutation] or a [PackedWord]. *)
Inductive multiplier :=
  | Perm (p : list Z)
  | Word (w : list Z).

(** [__mul__]: [m] is [pw.size()] for a permutation and [pw._max] for a
    packed word; the error is the [ValueError] of the last line.  [self[i-1]]
    is the indexing of the array, where a negative index counts from the end. *)
Definition __mul__ (self : list Z) (pw : multiplier) : result (list Z) :=
  let '(m, letters) := match pw with
                       | Perm p => (len p, p)
                       | Word w => (pw_max w, w)
                       end in
  if decide (len self = m) then
    lst ← mapM_result (λ i, k ← norm_index self (i - 1); py_get self k) letters;
    PackedWord lst
  else Raise ValueError.

(** [PackedWord.reverse]: the constructor runs with its default
    [check=True].  ([reverse] itself is the reversal of lists.) *)
Definition pw_reverse (w : list Z) : result (list Z) :=
  PackedWord (reverse w).

(** [complement] *)
Definition complement (w : list Z) : result (list Z) :=
  if decide (w = []) then Ok w
  else PackedWord ((λ i, pw_max w + 1 - i) <$> w).

(** [global_ascents_factorization]: the positions of [g_a] start from zero,
    so the bounds of the slices [self[g_a[i]:g_a[i+1]]] are non-negative. *)
Definition global_ascents_factorization (w : list Z) : result (list (list Z)) :=
  let g_a := global_ascents true true w in
  if decide (g_a = []) then Ok [w]
  else
    let g_a := g_a ++ [len w] in
    mapM_result (λ i, a ← py_get g_a i;
                      b ← py_get g_a (S i);
                      pack (slice (Z.to_nat a) (Z.to_nat b) w))
                (seq 0 (length g_a - 1)).

(** ** The skeletons *)

(** [packed_word_to_red_skeleton] and [packed_word_to_blue_skeleton] call
    each other when [bicolor] is set; [fuel] bounds the depth of the calls.
    The labels are [(cut, lbl)] with [lbl] a list of ones or a packed word. *)
Fixpoint packed_word_to_red_skeleton_fuel (fuel : nat) (bicolor : bool) (w : list Z)
  : result (LTree plain_label) :=
  match fuel with
  | O => Raise OutOfFuel
  | S fuel =>
    m ← py_max w;
    if decide (m = 1) then Ok (Node [] (0, replicate (length w) 1))
    else
      let pos_max := positions_from 0 m w in
      let self_m := filter (λ x, x < m) w in
      p0 ← py_get pos_max 0;
      if decide (length self_m ≤ p0)%nat then
        let lbl := replicate (length pos_max) 1 in
        pw ← PackedWord self_m;
        children ← forest_with id (packed_word_to_red_skeleton_fuel fuel bicolor) pw;
        Ok (Node children (len children, lbl))
      else
        pw ← PackedWord self_m;
        g_desc_fact ← global_descents_factorization pw;
        F0 ← py_get g_desc_fact 0;
        '(cut, s) ← cut_loop (drop 1 g_desc_fact) (Z.of_nat p0) (len self_m) 0 (len F0);
        Fc ← py_get g_desc_fact cut;
        let s := s - len Fc in
        lbl ← pack (slice_from s w);
        children ← mapM_result (packed_word_to_red_skeleton_fuel fuel bicolor)
                               (take cut g_desc_fact);
        recolor ← (if bicolor then negb <$> is_particular lbl Left else Ok false);
        if (recolor : bool) then
          t ← packed_word_to_blue_skeleton_fuel fuel bicolor lbl;
          e ← PackedWord [];
          Ok (Node (children ++ [t]) (Z.of_nat cut, e))
        else Ok (Node children (Z.of_nat cut, lbl))
  end
with packed_word_to_blue_skeleton_fuel (fuel : nat) (bicolor : bool) (w : list Z)
  : result (LTree plain_label) :=
  match fuel with
  | O => Raise OutOfFuel
  | S fuel =>
    if decide (length w = 1%nat) then Ok (Node [] (0, [1]))
    else
      l ← py_last w;
      let self_l := slice_to (-1) w in
      let b := bool_decide (l ∈ self_l) in
      self_l ← pack self_l;
      g_desc_fact ← global_descents_factorization self_l;
      (* [b or l != max(self)]: [max] is evaluated only when [b] is false *)
      c ← (if b then Ok true else m ← py_max w; Ok (bool_decide (l ≠ m)));
      let cut := len g_desc_fact - Z.b2z c in
      '(lbl, factors) ←
         (if b then
            F0 ← py_get g_desc_fact 0;
            i ← py_index w l;
            x ← py_get F0 i;
            s ← __add__ F0 [x];
            lbl ← PackedWord s;
            Ok (lbl, reverse (drop 1 g_desc_fact))
          else
            m ← py_max w;
            if decide (l = m) then
              lbl ← PackedWord [1];
              Ok (lbl, reverse g_desc_fact)
            else
              F0 ← py_get g_desc_fact 0;
              lbl ← pack (take (length F0) w ++ [l]);
              Ok (lbl, reverse (drop 1 g_desc_fact)));
      children ← mapM_result (packed_word_to_blue_skeleton_fuel fuel bicolor) factors;
      recolor ← (if bicolor then negb <$> is_particular lbl Right else Ok false);
      if (recolor : bool) then
        t ← packed_word_to_red_skeleton_fuel fuel bicolor lbl;
        e ← PackedWord [];
        Ok (Node (children ++ [t]) (cut, e))
      else Ok (Node children (cut, lbl))
  end.

Definition packed_word_to_red_skeleton_forest_fuel (fuel : nat) (bicolor : bool)
    (w : list Z) : result (list (LTree plain_label)) :=
  forest_with id (packed_word_to_red_skeleton_fuel fuel bicolor) w.

Definition packed_word_to_blue_skeleton_forest_fuel (fuel : nat) (bicolor : bool)
    (w : list Z) : result (list (LTree plain_label)) :=
  forest_with reverse (packed_word_to_blue_skeleton_fuel fuel bicolor) w.

(** With [bicolor=False], the default, the recursion is on strictly shorter
    words, so [length w] calls suffice. *)
Definition packed_word_to_red_skeleton (w : list Z) : result (LTree plain_label) :=
  packed_word_to_red_skeleton_fuel (length w) false w.

Definition packed_word_to_red_skeleton_forest (w : list Z)
  : result (list (LTree plain_label)) :=
  packed_word_to_red_skeleton_forest_fuel (length w) false w.

Definition packed_word_to_blue_skeleton (w : list Z) : result (LTree plain_label) :=
  packed_word_to_blue_skeleton_fuel (length w) false w.

Definition packed_word_to_blue_skeleton_forest (w : list Z)
  : result (list (LTree plain_label)) :=
  packed_word_to_blue_skeleton_forest_fuel (length w) false w.

(** ** Packed words of a given size *)

(** The exceptions that [except (ValueError, TypeError)] catches: every
    raise site of the source raises a [ValueError]; [IndexError], [KeyError]
    and [OverflowError] are not among its subclasses. *)
Definition is_ValueError (e : exn) : bool :=
  match e with
  | NotPositiveIntegers _ | NotPacked _ | EmptyPositions | NotOrdered _
  | PositionsMismatch _ _ | NotAMember _ | ValueError => true
  | IndexError | KeyError | OverflowError | OutOfFuel => false
  end.

(** [PackedWords_size.__contains__]: the [ValueError] of the constructor is
    caught, any other exception goes through. *)
Definition PackedWords_size_contains (size : Z) (x : list Z) : result bool :=
  match __init__ x with
  | Ok _ => Ok (bool_decide (len x = size))
  | Raise e => if is_ValueError e then Ok false else Raise e
  end.

(** ** Further specification-side predicates *)

(** [p] is a permutation of [1..n], [n] its length. *)
Definition is_permutation (p : list Z) : Prop :=
  p ≡ₚ seqZ 1 (len p).

(** [w] is weakly increasing. *)
Definition weakly_increasing (w : list Z) : Prop :=
  ∀ i j x y, w !! i = Some x → w !! j = Some y → (i < j)%nat → x ≤ y.

(** Position [d] is an ascending cut of [w]: every letter before it is
    smaller than every letter from it on. *)
Definition ascends (w : list Z) (d : nat) : Prop :=
  Forall (λ a, Forall (λ b, a < b) (drop d w)) (take d w).

Global Instance ascends_dec w d : Decision (ascends w d).
Proof. unfold ascends. apply _. Defined.

(** The consecutive slices [w[a:b1], w[b1:b2], ...] of a list of bounds. *)
Fixpoint pieces (w : list Z) (a : nat) (bounds : list nat) : list (list Z) :=
  match bounds with
  | [] => []
  | b :: bounds => slice a b w :: pieces w b bounds
  end.

(** * Part II: properties *)

(** ** The examples of the docstrings *)

Example check_ok : check [3; 3; 2; 1] = Ok ().
Proof. by vm_compute. Qed.

Example check_not_positive_message :
  ∃ e, check [2; 2; 1; 0; 4] = Raise e ∧
       message e = "[2, 2, 1, 0, 4] is not a list of positive integers"%string.
Proof. eexists. split; by vm_compute. Qed.

Example global_descents_ex :
  global_descents false false [7; 5; 4; 6; 3; 1; 2; 1] = [1; 4; 5] ∧
  global_descents false true [7; 5; 4; 6; 3; 1; 2; 1] = [0; 3; 4] ∧
  global_descents true false [7; 5; 4; 6; 3; 1; 2; 1] = [1; 4; 5; 8].
Proof. split_and!; by vm_compute. Qed.

Example global_descents_factorization_ex :
  global_descents_factorization [5; 4; 3; 4; 1; 2; 1] = Ok [[1]; [2; 1; 2]; [1; 2; 1]] ∧
  global_descents_factorization [] = Ok [[]].
Proof. split; by vm_compute. Qed.

Example global_ascents_ex :
  global_ascents false false [3; 1; 2; 1; 4; 6; 6; 5; 7; 8; 7] = [5; 6; 9] ∧
  global_ascents true false [3; 1; 2; 1; 4; 6; 6; 5; 7; 8; 7] = [1; 5; 6; 9].
Proof. split; by vm_compute. Qed.

Example pack_ex : pack [11; 4; 1; 11; 4] = Ok [3; 2; 1; 3; 2] ∧ pack [1; 0; 0] = Ok [2; 1; 1].
Proof. split; by vm_compute. Qed.

Example is_particular_ex :
  is_particular [1] Right = Ok true ∧ is_particular [2; 1; 2] Right = Ok true ∧
  is_particular [1; 1; 2] Right = Ok false.
Proof. split_and!; by vm_compute. Qed.

Example upgrade_max_ex :
  upgrade_max [1; 2; 1] [0; 1; 3] = Ok [3; 3; 1; 3; 2; 1] ∧
  upgrade_max [1; 2; 1; 3] [3; 5] = Ok [1; 2; 1; 4; 3; 4].
Proof. split; by vm_compute. Qed.

(** Positions that repeat or count from the end pass the tests of
    [upgrade_max]. *)
Example upgrade_max_slices_ex :
  upgrade_max [1; 2; 1] [-1] = Ok [1; 2; 3; 1] ∧
  upgrade_max [1; 2; 1] [0; 0] = Ok [3; 3; 1; 2; 1] ∧
  upgrade_max [1] [2; 2] = Ok [1; 2; 2].
Proof. split_and!; by vm_compute. Qed.

(** The ends of the range of a C [int]. *)
Example init_range_ex :
  __init__ [2147483648] = Raise OverflowError ∧
  __init__ [-2147483649] = Raise OverflowError ∧
  __init__ [-2147483648] = Raise (NotPositiveIntegers [-2147483648]) ∧
  __init__ [1; 2; 1] = Ok [1; 2; 1].
Proof. split_and!; by vm_compute. Qed.

Example upgrade_last_ex :
  upgrade_last [1; 2; 1] (2, false) = Ok [1; 3; 1; 2] ∧
  upgrade_last [1; 2; 1] (2, true) = Ok [1; 2; 1; 2].
Proof. split; by vm_compute. Qed.

Example inversions_ex :
  inversions Right None false [1; 2; 1] = Ok {[ (2, 3) ]} ∧
  inversions Right (Some Value) false [3; 2; 1] = Ok {[ (2, 1); (3, 1); (3, 2) ]} ∧
  inversions Left None false [3; 1; 4; 1; 2] = Ok {[ (3, 1); (3, 2); (4, 2) ]} ∧
  inversions Left (Some Position) false [3; 1; 4; 1; 2] = Ok {[ (1, 2); (1, 5); (3, 5) ]}.
Proof. split_and!; by vm_compute. Qed.

Example weak_order_steps_ex :
  right_weak_order_succ [3; 1; 2; 1; 1; 2; 4]
    = [[3; 2; 1; 1; 1; 2; 4]; [3; 1; 2; 1; 2; 1; 4]; [3; 1; 2; 1; 1; 4; 2]] ∧
  right_weak_order_pred [3; 1; 2; 1; 1; 2; 4]
    = [[1; 3; 2; 1; 1; 2; 4]; [3; 1; 1; 2; 1; 2; 4]] ∧
  left_weak_order_succ [1; 2; 4; 3; 3] = Ok [[2; 1; 4; 3; 3]; [1; 3; 4; 2; 2]] ∧
  left_weak_order_pred [3; 1; 3; 1; 2; 2; 2] = Ok [[2; 1; 2; 1; 3; 3; 3]].
Proof. split_and!; by vm_compute. Qed.

Example is_gequal_ex :
  is_gequal Right [3; 1; 2; 1] [3; 1; 1; 2] = Ok true ∧
  is_gequal Right [3; 1; 2; 1] [3; 2; 2; 1] = Ok false ∧
  is_gequal Left [3; 2; 2; 1] [3; 1; 1; 2] = Ok true.
Proof. split_and!; by vm_compute. Qed.

Example left_interval_ex :
  left_weak_order_interval 5 [1; 4; 2; 3; 2; 3] [4; 3; 1; 2; 1; 2]
  = Ok [[1; 4; 2; 3; 2; 3]; [2; 4; 1; 3; 1; 3]; [3; 4; 1; 2; 1; 2]; [4; 3; 1; 2; 1; 2]].
Proof. by vm_compute. Qed.

(** ** The error monad *)

Lemma bind_Ok {A B} (a : A) (f : A → result B) : (Ok a ≫= f) = f a.
Proof. reflexivity. Qed.

Lemma bind_Ok_inv {A B} (m : result A) (f : A → result B) b :
  (m ≫= f) = Ok b → ∃ a, m = Ok a ∧ f a = Ok b.
Proof. destruct m; [eauto | discriminate]. Qed.

Lemma fmap_Ok_inv {A B} (m : result A) (f : A → B) b :
  f <$> m = Ok b → ∃ a, m = Ok a ∧ b = f a.
Proof. destruct m; simpl; [|discriminate]. intros [= <-]. eauto. Qed.

Lemma mapM_result_ext_ok {A B} (f : A → result B) (g : A → B) l :
  (∀ x, x ∈ l → f x = Ok (g x)) → mapM_result f l = Ok (g <$> l).
Proof.
  induction l as [|x l IH]; intros Hf; [done|].
  simpl. rewrite Hf by left. simpl. rewrite IH; [done|].
  intros y Hy. apply Hf. by right.
Qed.

Lemma mapM_result_Forall2 {A B} (f : A → result B) l k :
  mapM_result f l = Ok k ↔ Forall2 (λ x y, f x = Ok y) l k.
Proof.
  revert k. induction l as [|x l IH]; intros k; simpl.
  - split; [intros [= <-]; constructor | by inversion 1].
  - split.
    + intros (y & Hy & H)%bind_Ok_inv. apply bind_Ok_inv in H as (ys & Hys & [= <-]).
      constructor; [done|]. by apply IH.
    + inversion 1 as [|? y ? ys Hy Hys]; subst. rewrite Hy. simpl.
      apply IH in Hys. by rewrite Hys.
Qed.

Lemma mapM_result_app {A B} (f : A → result B) l1 l2 k1 k2 :
  mapM_result f l1 = Ok k1 → mapM_result f l2 = Ok k2 →
  mapM_result f (l1 ++ l2) = Ok (k1 ++ k2).
Proof.
  rewrite !mapM_result_Forall2. apply Forall2_app.
Qed.

Lemma sequence_result_fmap {A B} (f : A → result B) l :
  sequence_result (f <$> l) = mapM_result f l.
Proof.
  unfold sequence_result. induction l as [|x l IH]; [done|].
  simpl. unfold id at 1. destruct (f x) as [a|]; simpl; [|done].
  exact (f_equal (λ m, m ≫= λ ys, Ok (a :: ys)) IH).
Qed.

(** ** Lengths and slices *)

Lemma len_nil {A} : len (@nil A) = 0.
Proof. reflexivity. Qed.
Lemma len_cons {A} (x : A) l : len (x :: l) = 1 + len l.
Proof. unfold len. simpl. lia. Qed.
Lemma len_app {A} (l k : list A) : len (l ++ k) = len l + len k.
Proof. unfold len. rewrite length_app. lia. Qed.
Lemma len_fmap {A B} (f : A → B) l : len (f <$> l) = len l.
Proof. unfold len. by rewrite length_fmap. Qed.
Lemma len_nonneg {A} (l : list A) : 0 ≤ len l.
Proof. unfold len. lia. Qed.

Lemma slice_to_nat {A} (k : nat) (l : list A) : slice_to (Z.of_nat k) l = take k l.
Proof. unfold slice_to. case_decide; [lia|]. by rewrite Nat2Z.id. Qed.
Lemma slice_from_nat {A} (k : nat) (l : list A) : slice_from (Z.of_nat k) l = drop k l.
Proof. unfold slice_from. case_decide; [lia|]. by rewrite Nat2Z.id. Qed.
Lemma slice_to_nonneg {A} (k : Z) (l : list A) : 0 ≤ k → slice_to k l = take (Z.to_nat k) l.
Proof. unfold slice_to. intros. case_decide; [lia|done]. Qed.
Lemma slice_from_nonneg {A} (k : Z) (l : list A) : 0 ≤ k → slice_from k l = drop (Z.to_nat k) l.
Proof. unfold slice_from. intros. case_decide; [lia|done]. Qed.

Lemma slice_to_m1_snoc {A} (l : list A) x : slice_to (-1) (l ++ [x]) = l.
Proof.
  unfold slice_to. case_decide; [|lia]. rewrite length_app. simpl.
  replace (length l + 1 - Z.to_nat (- -1))%nat with (length l) by lia.
  by rewrite take_app_length.
Qed.
Lemma slice_from_m1_snoc {A} (l : list A) x : slice_from (-1) (l ++ [x]) = [x].
Proof.
  unfold slice_from. case_decide; [|lia]. rewrite length_app. simpl.
  replace (length l + 1 - Z.to_nat (- -1))%nat with (length l) by lia.
  by rewrite drop_app_length.
Qed.
Lemma slice_from_m1_nil {A} : slice_from (-1) (@nil A) = [].
Proof. reflexivity. Qed.

Lemma py_last_snoc {A} (l : list A) x : py_last (l ++ [x]) = Ok x.
Proof. unfold py_last. by rewrite last_snoc. Qed.

(** ** Maxima *)

Lemma foldr_max_le x l : x ≤ foldr Z.max x l.
Proof. induction l; simpl; lia. Qed.
Lemma foldr_max_Forall x l : Forall (λ y, y ≤ foldr Z.max x l) l.
Proof.
  induction l as [|y l IH]; simpl; constructor; [lia|].
  eapply Forall_impl; [exact IH|]. simpl. lia.
Qed.
Lemma foldr_max_elem x l : foldr Z.max x l = x ∨ foldr Z.max x l ∈ l.
Proof.
  induction l as [|y l IH]; simpl; [by left|].
  destruct (Z.max_spec y (foldr Z.max x l)) as [[_ ->]|[_ ->]].
  - destruct IH as [->|?]; [by left|right; by right].
  - right; left.
Qed.

Lemma pw_max_elem w : w ≠ [] → pw_max w ∈ w.
Proof.
  destruct w as [|x l]; [done|]. intros _. simpl.
  destruct (foldr_max_elem x l) as [->|?]; [left|by right].
Qed.
Lemma pw_max_Forall w : Forall (λ y, y ≤ pw_max w) w.
Proof.
  destruct w as [|x l]; [constructor|]. simpl.
  constructor; [apply foldr_max_le | apply foldr_max_Forall].
Qed.
Lemma pw_max_ge w x : x ∈ w → x ≤ pw_max w.
Proof. intros. by eapply (proj1 (Forall_forall _ _) (pw_max_Forall w)). Qed.
Lemma py_max_pw_max w : w ≠ [] → py_max w = Ok (pw_max w).
Proof. by destruct w. Qed.
Lemma pw_max_unique w m : m ∈ w → (∀ x, x ∈ w → x ≤ m) → pw_max w = m.
Proof.
  intros Hm Hle. assert (w ≠ []) by (intros ->; by apply elem_of_nil in Hm).
  pose proof (pw_max_elem w ltac:(done)). pose proof (pw_max_ge w m Hm).
  specialize (Hle _ H0). lia.
Qed.

Lemma max_with_ge d l : d ≤ max_with d l.
Proof. apply foldr_max_le. Qed.
Lemma max_with_Forall d l : Forall (λ y, y ≤ max_with d l) l.
Proof. apply foldr_max_Forall. Qed.
Lemma max_with_elem d l : max_with d l = d ∨ max_with d l ∈ l.
Proof. apply foldr_max_elem. Qed.
Lemma max_with_lt d l x : max_with d l < x ↔ d < x ∧ ∀ y, y ∈ l → y < x.
Proof.
  unfold max_with. induction l as [|y l IH]; simpl.
  - split; [intros; split; [done|]; by intros ? ?%elem_of_nil | tauto].
  - rewrite Z.max_lub_lt_iff, IH. split.
    + intros (? & ? & Hl). split; [done|]. intros z [->|?]%elem_of_cons; auto.
    + intros (? & Hl). split_and!; [apply Hl; left | done | intros; apply Hl; by right].
Qed.

Lemma min_with_gt d l x : x < min_with d l ↔ x < d ∧ ∀ y, y ∈ l → x < y.
Proof.
  unfold min_with. induction l as [|y l IH]; simpl.
  - split; [intros; split; [done|]; by intros ? ?%elem_of_nil | tauto].
  - rewrite Z.min_glb_lt_iff, IH. split.
    + intros (? & ? & Hl). split; [done|]. intros z [->|?]%elem_of_cons; auto.
    + intros (? & Hl). split_and!; [apply Hl; left | done | intros; apply Hl; by right].
Qed.

(** ** [sorted(set(l))] *)

Lemma elem_of_sorted_set l x : x ∈ sorted_set l ↔ x ∈ l.
Proof.
  unfold sorted_set. rewrite merge_sort_Permutation. apply elem_of_remove_dups.
Qed.

Lemma NoDup_sorted_set l : NoDup (sorted_set l).
Proof.
  unfold sorted_set. rewrite merge_sort_Permutation. apply NoDup_remove_dups.
Qed.

Lemma StronglySorted_le_lt l :
  StronglySorted Z.le l → NoDup l → StronglySorted Z.lt l.
Proof.
  induction 1 as [|x l Hl IH Hx]; intros Hnd; [constructor|].
  apply NoDup_cons in Hnd as [Hxl Hnd].
  constructor; [auto|].
  apply Forall_forall. intros y Hy.
  pose proof (proj1 (Forall_forall _ _) Hx y Hy).
  assert (x ≠ y) by (intros ->; done). lia.
Qed.

Lemma StronglySorted_sorted_set l : StronglySorted Z.lt (sorted_set l).
Proof.
  apply StronglySorted_le_lt; [|apply NoDup_sorted_set].
  unfold sorted_set. apply StronglySorted_merge_sort; apply _.
Qed.

Lemma StronglySorted_lt_unique (l1 l2 : list Z) :
  StronglySorted Z.lt l1 → StronglySorted Z.lt l2 →
  (∀ x, x ∈ l1 ↔ x ∈ l2) → l1 = l2.
Proof.
  intros H1. revert l2. induction H1 as [|x l1 Hl1 IH Hx]; intros l2 H2 Hiff.
  - destruct l2 as [|y l2]; [done|]. exfalso.
    by apply (elem_of_nil y), Hiff; left.
  - destruct H2 as [|y l2 Hl2 Hy].
    { exfalso. by apply (elem_of_nil x), Hiff; left. }
    rewrite Forall_forall in Hx, Hy.
    assert (x = y) as <-.
    { assert (x ∈ y :: l2) as [->|Hx2]%elem_of_cons by (apply Hiff; left); [done|].
      assert (y ∈ x :: l1) as [->|Hy1]%elem_of_cons by (apply Hiff; left); [done|].
      specialize (Hx _ Hy1). specialize (Hy _ Hx2). lia. }
    f_equal. apply IH; [done|]. intros z. split; intros Hz.
    + assert (z ∈ x :: l2) as [->|?]%elem_of_cons by (apply Hiff; by right); [|done].
      specialize (Hx _ Hz). lia.
    + assert (z ∈ x :: l1) as [->|?]%elem_of_cons by (apply Hiff; by right); [|done].
      specialize (Hy _ Hz). lia.
Qed.

Lemma StronglySorted_seqZ a n : StronglySorted Z.lt (seqZ a n).
Proof.
  destruct (decide (n ≤ 0)) as [?|Hn]; [rewrite seqZ_nil by done; constructor|].
  rewrite <- (Z2Nat.id n) by lia. generalize (Z.to_nat n) as k. clear. intros k. revert a.
  induction k as [|k IH]; intros a; [constructor|].
  rewrite seqZ_cons by lia. replace (Z.pred (Z.of_nat (S k))) with (Z.of_nat k) by lia.
  constructor; [apply IH|]. apply Forall_forall. intros y Hy%elem_of_seqZ. lia.
Qed.

Lemma sorted_set_seqZ l a n :
  (∀ k, k ∈ l ↔ a ≤ k < a + n) → sorted_set l = seqZ a n.
Proof.
  intros Hl. apply StronglySorted_lt_unique.
  - apply StronglySorted_sorted_set.
  - apply StronglySorted_seqZ.
  - intros x. by rewrite elem_of_sorted_set, elem_of_seqZ, Hl.
Qed.

(** ** [list.index] *)

Lemma py_index_Ok l x i :
  py_index l x = Ok i ↔ l !! i = Some x ∧ ∀ j y, (j < i)%nat → l !! j = Some y → y ≠ x.
Proof.
  revert i. induction l as [|y l IH]; intros i; simpl.
  - split; [done|]. by intros [? _].
  - case_decide as Hy.
    + subst y. split.
      * intros [= <-]. split; [done|]. intros; lia.
      * intros [Hi Hlt]. destruct i as [|i]; [done|].
        exfalso. apply (Hlt 0%nat x); [lia|done|done].
    + split.
      * intros (i' & Hi' & ->)%fmap_Ok_inv. apply IH in Hi' as [Hi' Hlt].
        split; [done|]. intros [|j] z ?; simpl; [by intros [= <-]|].
        apply Hlt. lia.
      * intros [Hi Hlt]. destruct i as [|i]; simpl in Hi; [congruence|].
        assert (py_index l x = Ok i) as ->; [|done].
        apply IH. split; [done|]. intros j z ? Hj. apply (Hlt (S j)); [lia|done].
Qed.

Lemma py_index_elem l x : x ∈ l → ∃ i, py_index l x = Ok i.
Proof.
  induction l as [|y l IH]; [by intros ?%elem_of_nil|].
  intros Hx. simpl. case_decide; [eauto|].
  apply elem_of_cons in Hx as [->|Hx]; [done|].
  destruct (IH Hx) as [i ->]. simpl. eauto.
Qed.

Lemma py_index_not_elem l x : x ∉ l → py_index l x = Raise ValueError.
Proof.
  induction l as [|y l IH]; [done|].
  intros Hx. simpl. apply not_elem_of_cons in Hx as [? ?].
  case_decide; [congruence|]. by rewrite IH.
Qed.

Lemma py_index_NoDup l x i : NoDup l → l !! i = Some x → py_index l x = Ok i.
Proof.
  intros Hnd Hi. apply py_index_Ok. split; [done|].
  intros j y Hj Hy ->. pose proof (NoDup_lookup _ _ _ _ Hnd Hi Hy). lia.
Qed.

Lemma py_index_lt l x i : py_index l x = Ok i → (i < length l)%nat.
Proof. intros [H _]%py_index_Ok. by eapply lookup_lt_Some. Qed.

Lemma py_index_app_l l k x : x ∈ l → py_index (l ++ k) x = py_index l x.
Proof.
  induction l as [|y l IH]; [by intros ?%elem_of_nil|].
  intros Hx. simpl. case_decide; [done|].
  apply elem_of_cons in Hx as [->|Hx]; [done|]. by rewrite IH.
Qed.

(** ** Validity *)

Lemma Packed_nil_inv m : Packed m [] → m = 0.
Proof.
  intros [Hm H]. destruct (decide (m = 0)); [done|].
  exfalso. apply (elem_of_nil 1), H. lia.
Qed.
Lemma Packed_nil : Packed 0 [].
Proof. split; [done|]. intros k. split; [by intros ?%elem_of_nil|lia]. Qed.

Lemma Packed_nonempty m w : Packed m w → w ≠ [] → 1 ≤ m.
Proof.
  intros [Hm H] Hw. destruct w as [|x w]; [done|].
  assert (1 ≤ x ≤ m) by (apply H; left). lia.
Qed.
Lemma Packed_pos_nonempty m w : Packed m w → 1 ≤ m → w ≠ [].
Proof. intros [_ H] Hm ->. apply (elem_of_nil 1), H. lia. Qed.

Lemma Packed_pw_max m w : Packed m w → pw_max w = m.
Proof.
  intros HP. destruct (decide (w = [])) as [->|Hw].
  { by apply Packed_nil_inv in HP as ->. }
  pose proof (Packed_nonempty _ _ HP Hw) as Hm. destruct HP as [_ H].
  apply pw_max_unique; [apply H; lia|]. intros x Hx. apply H in Hx. lia.
Qed.

Lemma Packed_py_max m w : Packed m w → w ≠ [] → py_max w = Ok m.
Proof. intros HP Hw. rewrite py_max_pw_max by done. by rewrite (Packed_pw_max m). Qed.

Lemma Packed_unique m1 m2 w : Packed m1 w → Packed m2 w → m1 = m2.
Proof. intros H1%Packed_pw_max H2%Packed_pw_max. congruence. Qed.

Lemma Packed_bounds m w x : Packed m w → x ∈ w → 1 ≤ x ≤ m.
Proof. intros [_ H] ?. by apply H. Qed.

Lemma Packed_sorted_set m w : Packed m w → sorted_set w = seqZ 1 m.
Proof. intros [_ H]. apply sorted_set_seqZ. intros k. rewrite H. lia. Qed.

Lemma last_seqZ_max m : 0 ≤ m → max_with 0 (slice_from (-1) (seqZ 1 m)) = m.
Proof.
  intros Hm. rewrite <- (Z2Nat.id m) by lia. destruct (Z.to_nat m) as [|k].
  - reflexivity.
  - rewrite seqZ_S, slice_from_m1_snoc. simpl. lia.
Qed.

Lemma check_Packed w : check w = Ok () ↔ ∃ m, Packed m w.
Proof.
  unfold check. split.
  - destruct (forallb _ w) eqn:Hpos; [|done].
    case_decide as Hs; [|done]. intros _.
    set (K := max_with 0 _) in Hs. exists K. split; [apply max_with_ge|].
    intros k. rewrite <- elem_of_sorted_set, Hs. unfold py_range.
    rewrite elem_of_seqZ. lia.
  - intros [m HP].
    assert (forallb (λ a, bool_decide (0 < a)) w = true) as ->.
    { apply Is_true_eq_true, forallb_True, Forall_forall. intros x Hx.
      apply (Packed_bounds m) in Hx; [|done]. apply bool_decide_pack. lia. }
    rewrite (Packed_sorted_set m w HP).
    rewrite last_seqZ_max by (by destruct HP). unfold py_range.
    replace (m + 1 - 1) with m by lia. by rewrite decide_True.
Qed.

Lemma PackedWord_Packed m w : Packed m w → PackedWord w = Ok w.
Proof.
  intros HP. unfold PackedWord.
  assert (check w = Ok ()) as -> by (apply check_Packed; eauto). done.
Qed.

Lemma PackedWord_Ok_inv w w' : PackedWord w = Ok w' → w' = w ∧ ∃ m, Packed m w.
Proof.
  unfold PackedWord. destruct (check w) as [[]|] eqn:Hc; [|done].
  intros [= <-]. split; [done|]. by apply check_Packed.
Qed.

(** ** [pack] *)

(** [pack] applies to every letter the unique increasing relabelling onto
    an initial segment. *)
Lemma pack_relabel (f : Z → Z) (m : Z) (li : list Z) :
  (∀ x y, x ∈ li → y ∈ li → x < y → f x < f y) →
  Packed m (f <$> li) →
  pack li = Ok (f <$> li).
Proof.
  intros Hmono HP. unfold pack.
  assert (f <$> sorted_set li = seqZ 1 m) as Hseq.
  { apply StronglySorted_lt_unique; [|apply StronglySorted_seqZ|].
    - pose proof (StronglySorted_sorted_set li) as HS.
      assert (Forall (λ x, x ∈ li) (sorted_set li)) as Hin.
      { apply Forall_forall. intros x. by rewrite elem_of_sorted_set. }
      induction HS as [|x l Hl IH Hx]; [constructor|].
      apply Forall_cons in Hin as [Hx0 Hin].
      rewrite fmap_cons. constructor; [by apply IH|].
      apply Forall_fmap, Forall_forall. intros y Hy.
      rewrite Forall_forall in Hx, Hin. simpl. apply Hmono; auto.
    - intros k. rewrite elem_of_seqZ. destruct HP as [_ HP].
      transitivity (1 ≤ k ≤ m); [|lia]. rewrite <- (HP k). rewrite !list_elem_of_fmap.
      by setoid_rewrite elem_of_sorted_set. }
  erewrite (mapM_result_ext_ok _ f).
  - simpl. by apply (PackedWord_Packed m).
  - intros x Hx. apply elem_of_sorted_set in Hx.
    apply list_elem_of_lookup in Hx as [i Hi].
    rewrite (py_index_NoDup _ _ i); [|apply NoDup_sorted_set|done]. simpl.
    assert ((f <$> sorted_set li) !! i = Some (f x)) as Hfi
      by (by rewrite list_lookup_fmap, Hi).
    rewrite Hseq in Hfi. apply lookup_seqZ in Hfi as [-> _]. f_equal. lia.
Qed.

Lemma pack_Packed m w : Packed m w → pack w = Ok w.
Proof.
  intros HP. rewrite <- (list_fmap_id w) at 2.
  apply (pack_relabel id m); [auto|]. by rewrite list_fmap_id.
Qed.


(** ** Lists *)

Lemma filter_all {A} (P : A → Prop) `{∀ x, Decision (P x)} (l : list A) :
  Forall P l → filter P l = l.
Proof.
  induction 1 as [|x l Hx Hl IH]; [done|]. rewrite filter_cons_True by done. by f_equal.
Qed.

Lemma filter_none {A} (P : A → Prop) `{∀ x, Decision (P x)} (l : list A) :
  Forall (λ x, ¬ P x) l → filter P l = [].
Proof.
  induction 1 as [|x l Hx Hl IH]; [done|]. by rewrite filter_cons_False.
Qed.

Lemma in_take {A} (x : A) n l : x ∈ take n l → x ∈ l.
Proof. apply subseteq_take. Qed.
Lemma in_drop {A} (x : A) n l : x ∈ drop n l → x ∈ l.
Proof. apply subseteq_drop. Qed.

Lemma py_get_Some {A} (l : list A) i x : l !! i = Some x → py_get l i = Ok x.
Proof. unfold py_get. by intros ->. Qed.
Lemma py_get_head {A} (x : A) l : py_get (x :: l) 0 = Ok x.
Proof. reflexivity. Qed.
Lemma slice_to_len {A} (l : list A) : slice_to (len l) l = l.
Proof. unfold len. by rewrite slice_to_nat, firstn_all. Qed.

(** ** Global descents *)

Lemma cuts_spec w d : cuts w d ↔ ∀ a b, a ∈ take d w → b ∈ drop d w → b < a.
Proof.
  unfold cuts. rewrite Forall_forall. setoid_rewrite Forall_forall. naive_solver.
Qed.

Lemma min_with_snoc d l x : min_with d (l ++ [x]) = Z.min (min_with d l) x.
Proof. unfold min_with. induction l as [|y l IH]; simpl; lia. Qed.

(** The test of the loop of [global_descents] is [cuts]. *)
Lemma global_descent_test w i :
  Forall (λ a, 0 < a) w → (S i < length w)%nat →
  Z.min (min_with (pw_max w) (take i w)) (w !!! i) > max_with 0 (drop (S i) w)
  ↔ cuts w (S i).
Proof.
  intros Hpos Hi. rewrite Forall_forall in Hpos.
  assert (is_Some (w !! i)) as [x Hx] by (apply lookup_lt_is_Some; lia).
  rewrite (list_lookup_total_correct _ _ _ Hx).
  rewrite <- min_with_snoc, <- (take_S_r _ _ _ Hx).
  rewrite cuts_spec. rewrite Z.gt_lt_iff, max_with_lt. split.
  - intros [_ Hlt] a b Ha Hb. specialize (Hlt b Hb).
    apply min_with_gt in Hlt as [_ Hlt]. by apply Hlt.
  - intros Hc. split.
    + apply min_with_gt. split.
      * assert (x ∈ w) by (by eapply list_elem_of_lookup_2).
        pose proof (pw_max_ge w x ltac:(done)). specialize (Hpos x ltac:(done)). lia.
      * intros y Hy. apply Hpos. by eapply in_take.
    + intros b Hb. apply min_with_gt. split.
      * assert (x ∈ take (S i) w) as Hxt.
        { apply list_elem_of_lookup. exists i. rewrite lookup_take_lt by lia. done. }
        specialize (Hc x b Hxt Hb).
        assert (x ∈ w) by (by eapply list_elem_of_lookup_2).
        pose proof (pw_max_ge w x ltac:(done)). lia.
      * intros a Ha. by apply Hc.
Qed.

Lemma global_descents_loop w k :
  Forall (λ a, 0 < a) w → (k ≤ length w - 1)%nat →
  foldl (λ '(local_left_min, g) i,
           let local_left_min := Z.min local_left_min (w !!! i) in
           if decide (local_left_min > max_with 0 (drop (S i) w))
           then (local_left_min, g ++ [S i])
           else (local_left_min, g))
        (pw_max w, []) (seq 0 k)
  = (min_with (pw_max w) (take k w), filter (cuts w) (seq 1 k)).
Proof.
  intros Hpos. induction k as [|k IH]; intros Hk; [done|].
  rewrite !seq_S, foldl_app, filter_app, IH by lia. simpl.
  assert (is_Some (w !! k)) as [x Hx] by (apply lookup_lt_is_Some; lia).
  rewrite (take_S_r _ _ _ Hx), min_with_snoc.
  rewrite <- (list_lookup_total_correct _ _ _ Hx).
  pose proof (global_descent_test w k Hpos ltac:(lia)) as Htest.
  destruct (decide (cuts w (S k))) as [Hc|Hc].
  - rewrite decide_True by (by apply Htest). by rewrite filter_cons_True.
  - rewrite decide_False by (by rewrite Htest). rewrite filter_cons_False by done.
    by rewrite app_nil_r.
Qed.

Lemma global_descents_pos_spec fd w :
  Forall (λ a, 0 < a) w →
  global_descents_pos fd w
  = filter (cuts w) (seq 1 (length w - 1)) ++ (if fd then [length w] else []).
Proof.
  intros Hpos. unfold global_descents_pos.
  rewrite global_descents_loop by (done || lia). destruct fd; [done|by rewrite app_nil_r].
Qed.

Lemma Packed_pos m w : Packed m w → Forall (λ a, 0 < a) w.
Proof.
  intros HP. apply Forall_forall. intros x Hx%(Packed_bounds m); [lia|done].
Qed.

Lemma irreducible_no_descent w :
  irreducible w ↔ filter (cuts w) (seq 1 (length w - 1)) = [].
Proof.
  split.
  - intros Hi. apply filter_none, Forall_forall. intros d Hd%elem_of_seq.
    apply Hi. lia.
  - intros Hf d Hd Hc. eapply (filter_nil_not_elem_of _ _ d); [exact Hf|done|].
    apply elem_of_seq. lia.
Qed.

(** The first element kept by a filter over a range. *)
Lemma filter_seq_cons (P : nat → Prop) `{∀ x, Decision (P x)} a k d ds :
  filter P (seq a k) = d :: ds →
  (a ≤ d < a + k)%nat ∧ P d ∧ (∀ e, (a ≤ e < d)%nat → ¬ P e) ∧
  ds = filter P (seq (S d) (a + k - S d)).
Proof.
  revert a. induction k as [|k IH]; intros a.
  { simpl. rewrite filter_nil. discriminate. }
  simpl. destruct (decide (P a)) as [Ha|Ha].
  - rewrite filter_cons_True by done. intros [= <- <-].
    split; [lia|]. split; [done|]. split; [intros; lia|]. do 2 f_equal. lia.
  - rewrite filter_cons_False by done. intros (? & ? & Hlt & ->)%IH.
    split; [lia|]. split; [done|]. split; [|do 2 f_equal; lia].
    intros e He. destruct (decide (e = a)) as [->|]; [done|]. apply Hlt. lia.
Qed.

Lemma filter_seq_shift (P Q : nat → Prop) `{∀ x, Decision (P x)} `{∀ x, Decision (Q x)} a k s :
  (∀ e, (a ≤ e < a + k)%nat → Q (s + e)%nat ↔ P e) →
  filter Q (seq (s + a) k) = (λ e, (s + e)%nat) <$> filter P (seq a k).
Proof.
  revert a. induction k as [|k IH]; intros a HPQ; [done|].
  simpl. rewrite (filter_cons P), (filter_cons Q).
  replace (S (s + a)) with (s + S a)%nat by lia.
  rewrite IH by (intros; apply HPQ; lia).
  destruct (decide (P a)) as [Ha|Ha].
  - rewrite decide_True by (apply HPQ; [lia|done]). done.
  - rewrite decide_False by (rewrite HPQ; [done|lia]). done.
Qed.

(** ** Cuts under concatenation and relabelling *)

Lemma cuts_fmap (f : Z → Z) w d :
  (∀ x y, x ∈ w → y ∈ w → x < y ↔ f x < f y) →
  cuts (f <$> w) d ↔ cuts w d.
Proof.
  intros Hf. rewrite !cuts_spec. rewrite <- fmap_take, <- fmap_drop.
  setoid_rewrite list_elem_of_fmap. split.
  - intros Hc a b Ha Hb.
    pose proof (in_take _ _ _ Ha). pose proof (in_drop _ _ _ Hb).
    apply (Hf b a); [done..|]. apply Hc; eauto.
  - intros Hc ? ? (a & -> & Ha) (b & -> & Hb).
    pose proof (in_take _ _ _ Ha). pose proof (in_drop _ _ _ Hb).
    apply (Hf b a); [done..|]. by apply Hc.
Qed.

Lemma irreducible_fmap (f : Z → Z) w :
  (∀ x y, x ∈ w → y ∈ w → x < y ↔ f x < f y) →
  irreducible (f <$> w) ↔ irreducible w.
Proof.
  intros Hf. unfold irreducible. rewrite length_fmap.
  by setoid_rewrite (cuts_fmap f w _ Hf).
Qed.

Lemma cuts_app_l B w' e :
  (e ≤ length B)%nat →
  cuts (B ++ w') e → cuts B e.
Proof.
  rewrite !cuts_spec. intros He Hc a b Ha Hb. apply Hc.
  - by rewrite take_app_le.
  - rewrite drop_app_le by done. apply elem_of_app. by left.
Qed.

Lemma cuts_app_l_2 B w' e :
  (e ≤ length B)%nat →
  (∀ a b, a ∈ B → b ∈ w' → b < a) →
  cuts B e → cuts (B ++ w') e.
Proof.
  rewrite !cuts_spec. intros He Hlt Hc a b. rewrite take_app_le, drop_app_le by done.
  intros Ha [Hb|Hb]%elem_of_app; [by apply Hc|].
  apply Hlt; [by eapply in_take|done].
Qed.

Lemma cuts_app_r B w' e :
  (∀ a b, a ∈ B → b ∈ w' → b < a) →
  cuts (B ++ w') (length B + e) ↔ cuts w' e.
Proof.
  intros Hlt. rewrite !cuts_spec.
  rewrite take_app_ge, drop_app_ge by lia.
  replace (length B + e - length B)%nat with e by lia. split.
  - intros Hc a b Ha Hb. apply Hc; [|done]. apply elem_of_app. by right.
  - intros Hc a b [Ha|Ha]%elem_of_app Hb; [|by apply Hc].
    apply Hlt; [done|by eapply in_drop].
Qed.

Lemma cuts_length_app B w' :
  cuts (B ++ w') (length B) ↔ ∀ a b, a ∈ B → b ∈ w' → b < a.
Proof.
  rewrite cuts_spec. by rewrite take_app_length, drop_app_length.
Qed.

(** ** The factorization *)

Lemma gdf_unfold w :
  Forall (λ a, 0 < a) w →
  global_descents_factorization w
  = gdf_loop w 0 (filter (cuts w) (seq 1 (length w - 1)) ++ [length w]).
Proof.
  intros Hpos. unfold global_descents_factorization.
  rewrite global_descents_pos_spec by done.
  destruct (filter (cuts w) (seq 1 (length w - 1)) ++ [length w]) as [|i rest] eqn:E.
  - by destruct (filter (cuts w) (seq 1 (length w - 1))).
  - reflexivity.
Qed.

Lemma slice_app_shift {A} (B w' : list A) i j :
  slice (length B + i) (length B + j) (B ++ w') = slice i j w'.
Proof.
  unfold slice. rewrite take_app_ge by lia.
  replace (length B + j - length B)%nat with j by lia.
  rewrite drop_app_ge by lia. f_equal. lia.
Qed.

Lemma gdf_loop_shift B w' i rest :
  gdf_loop (B ++ w') (length B + i) ((λ e, (length B + e)%nat) <$> rest)
  = gdf_loop w' i rest.
Proof.
  revert i. induction rest as [|j rest IH]; intros i; [done|].
  simpl. rewrite slice_app_shift. destruct (pack (slice i j w')); [|done].
  simpl. by rewrite IH.
Qed.

(** The letters after a cut of a packed word form a packed word, and the
    letters before it lie strictly above. *)
Lemma Packed_cut_r m B w' :
  Packed m (B ++ w') → (∀ a b, a ∈ B → b ∈ w' → b < a) →
  Packed (pw_max w') w'.
Proof.
  intros HP Hlt. destruct (decide (w' = [])) as [->|Hw']; [apply Packed_nil|].
  pose proof (pw_max_elem w' Hw') as Hmax.
  assert (1 ≤ pw_max w' ≤ m) by (apply (Packed_bounds m (B ++ w')); [done|]; apply elem_of_app; by right).
  split; [lia|]. intros k. split.
  - intros Hk. pose proof (pw_max_ge _ _ Hk).
    assert (1 ≤ k ≤ m) by (apply (Packed_bounds m (B ++ w')); [done|]; apply elem_of_app; by right).
    lia.
  - intros Hk. destruct HP as [_ HP].
    assert (k ∈ B ++ w') as [HkB|?]%elem_of_app by (apply HP; lia); [|done].
    specialize (Hlt _ _ HkB Hmax). lia.
Qed.

Lemma Packed_cut_l m B w' :
  Packed m (B ++ w') → (∀ a b, a ∈ B → b ∈ w' → b < a) → B ≠ [] →
  Packed (m - pw_max w') ((λ x, x - pw_max w') <$> B).
Proof.
  intros HP Hlt HB.
  pose proof (Packed_cut_r _ _ _ HP Hlt) as HP'.
  assert (∀ a, a ∈ B → pw_max w' < a ≤ m) as HBb.
  { intros a Ha.
    assert (1 ≤ a ≤ m) by (apply (Packed_bounds m (B ++ w')); [done|]; apply elem_of_app; by left).
    destruct (decide (w' = [])) as [->|Hw']; [simpl; lia|].
    pose proof (Hlt _ _ Ha (pw_max_elem w' Hw')). lia. }
  split.
  - destruct B as [|a B]; [done|]. specialize (HBb a ltac:(left)). lia.
  - intros k. rewrite list_elem_of_fmap. split.
    + intros (a & -> & Ha%HBb). lia.
    + intros Hk. exists (k + pw_max w'). split; [lia|].
      destruct HP as [_ HP]. destruct HP' as [? HP'].
      assert (k + pw_max w' ∈ B ++ w') as [?|Hin]%elem_of_app by (apply HP; lia); [done|].
      apply HP' in Hin. lia.
Qed.

Lemma gdf_Factorization w m :
  Packed m w → w ≠ [] →
  ∃ Fs, global_descents_factorization w = Ok Fs ∧ Factorization w Fs.
Proof.
  remember (length w) as n eqn:Hn. revert w m Hn.
  induction n as [n IH] using lt_wf_ind. intros w m Hn HP Hw.
  rewrite gdf_unfold by (by eapply Packed_pos).
  destruct (filter (cuts w) (seq 1 (length w - 1))) as [|d1 ds] eqn:Hf.
  - exists [w]. split.
    + simpl. unfold slice. rewrite take_ge by lia. rewrite drop_0.
      by rewrite (pack_Packed m).
    + eapply Fact_one; [done..|]. by apply irreducible_no_descent.
  - apply filter_seq_cons in Hf as (Hd1 & Hc1 & Hfirst & ->).
    assert (w = take d1 w ++ drop d1 w) as Hsplit by (by rewrite take_drop).
    set (B := take d1 w) in *. set (w' := drop d1 w) in *.
    assert (length B = d1) as HlB by (unfold B; rewrite length_take; lia).
    assert (length w' = (length w - d1)%nat) as Hlw' by (unfold w'; by rewrite length_drop).
    assert (B ≠ []) as HB by (intros HB; rewrite HB in HlB; simpl in HlB; lia).
    assert (w' ≠ []) as Hw' by (intros Hw'; rewrite Hw' in Hlw'; simpl in Hlw'; lia).
    assert (∀ a b, a ∈ B → b ∈ w' → b < a) as Hlt by (by apply cuts_spec).
    rewrite Hsplit in HP.
    pose proof (Packed_cut_r _ _ _ HP Hlt) as HP'.
    pose proof (Packed_cut_l _ _ _ HP Hlt HB) as HPB.
    set (t := pw_max w') in *.
    destruct (IH (length w') ltac:(lia) w' t eq_refl HP' Hw') as (Fs & HFs & HFact).
    exists (((λ x, x - t) <$> B) :: Fs). split.
    + cbn [gdf_loop app]. unfold slice at 1. rewrite drop_0. fold B.
      rewrite (pack_relabel (λ x, x - t) (m - t)); [|intros; lia|done].
      simpl.
      replace (filter (cuts w) (seq (S d1) (1 + (length w - 1) - S d1)) ++ [length w])
        with ((λ e, (length B + e)%nat) <$>
                (filter (cuts w') (seq 1 (length w' - 1)) ++ [length w'])).
      * rewrite Hsplit at 1. replace d1 with (length B + 0)%nat at 1 by lia.
        rewrite gdf_loop_shift, <- gdf_unfold by (by eapply Packed_pos).
        by rewrite HFs.
      * rewrite fmap_app. f_equal; [|simpl; f_equal; lia].
        rewrite <- (filter_seq_shift (cuts w') (cuts w)).
        -- do 2 f_equal; lia.
        -- intros e He. rewrite Hsplit. by apply cuts_app_r.
    + replace w with (((λ x, x + t) <$> ((λ x, x - t) <$> B)) ++ w').
      * eapply Fact_cons; [done| |  |done|done].
        -- by destruct B.
        -- apply irreducible_fmap; [intros; lia|].
           intros e He Hce. apply (Hfirst e); [lia|].
           rewrite Hsplit. apply cuts_app_l_2; [lia|done|done].
      * etrans; [|symmetry; exact Hsplit]. f_equal.
        rewrite <- list_fmap_compose. rewrite <- (list_fmap_id B) at 2.
        apply list_fmap_ext. intros; simpl; lia.
Qed.

(** ** Consequences of a factorization *)

Lemma Packed_shift_app ma m acc w :
  Packed ma acc → Packed m w →
  Packed (ma + m) (((λ x, x + m) <$> acc) ++ w).
Proof.
  intros [Hma Ha] [Hm Hw]. split; [lia|]. intros k.
  rewrite elem_of_app, list_elem_of_fmap. split.
  - intros [(a & -> & Hin%Ha)|Hin%Hw]; lia.
  - intros Hk. destruct (decide (k ≤ m)).
    + right. apply Hw. lia.
    + left. exists (k - m). split; [lia|]. apply Ha. lia.
Qed.

Lemma sum_list_Z_cons x l : sum_list_Z (x :: l) = x + sum_list_Z l.
Proof. reflexivity. Qed.

Lemma Factorization_nonempty w Fs : Factorization w Fs → w ≠ [] ∧ Fs ≠ [].
Proof.
  destruct 1 as [w m HP Hw Hi|F w' Fs m t HPF HF HiF HP' HFact]; [done|].
  split; [|done]. by destruct F.
Qed.

Lemma Factorization_Packed w Fs :
  Factorization w Fs → Packed (sum_list_Z (pw_max <$> Fs)) w.
Proof.
  induction 1 as [w m HP Hw Hi|F w' Fs m t HPF HF HiF HP' HFact IH].
  - simpl. rewrite (Packed_pw_max m) by done. by rewrite Z.add_0_r.
  - rewrite fmap_cons, sum_list_Z_cons. rewrite (Packed_pw_max m F) by done.
    rewrite (Packed_unique _ _ _ IH HP'). by apply Packed_shift_app.
Qed.

Lemma Factorization_pw_max w Fs :
  Factorization w Fs → pw_max w = sum_list_Z (pw_max <$> Fs).
Proof. intros HF%Factorization_Packed. by apply Packed_pw_max. Qed.

Lemma Factorization_len w Fs :
  Factorization w Fs → len w = sum_list_Z (len <$> Fs).
Proof.
  induction 1 as [w m HP Hw Hi|F w' Fs m t HPF HF HiF HP' HFact IH]; [simpl; lia|].
  rewrite fmap_cons, sum_list_Z_cons, len_app, len_fmap, IH. done.
Qed.

Lemma Factorization_Forall w Fs :
  Factorization w Fs →
  Forall (λ F, Packed (pw_max F) F ∧ F ≠ [] ∧ irreducible F ∧ (length F ≤ length w)%nat) Fs.
Proof.
  induction 1 as [w m HP Hw Hi|F w' Fs m t HPF HF HiF HP' HFact IH].
  - constructor; [|constructor]. rewrite (Packed_pw_max m) by done. by split_and!.
  - constructor.
    + rewrite (Packed_pw_max m) by done. split_and!; try done.
      rewrite length_app, length_fmap. lia.
    + eapply Forall_impl; [exact IH|]. intros F' (? & ? & ? & ?). split_and!; try done.
      rewrite length_app. lia.
Qed.

Lemma Factorization_singleton w F : Factorization w [F] → F = w.
Proof.
  inversion 1 as [|? ? ? ? ? ? ? ? ? HFact]; subst; [done|].
  by apply Factorization_nonempty in HFact as [_ ?].
Qed.

Lemma l_shifted_concat_Packed ma m acc w :
  Packed ma acc → Packed m w → w ≠ [] →
  l_shifted_concat acc w = Ok (((λ x, x + m) <$> acc) ++ w).
Proof.
  intros Hacc HP Hw. unfold l_shifted_concat.
  rewrite (mapM_result_ext_ok _ (λ x, x + m)), bind_Ok
    by (intros x _; by rewrite (Packed_py_max m)).
  by rewrite (PackedWord_Packed (ma + m)) by (by apply Packed_shift_app).
Qed.

(** The shifted concatenation of the factors gives the word back. *)
Lemma foldM_shifted_concat w Fs acc ma :
  Factorization w Fs → Packed ma acc →
  foldM_result l_shifted_concat Fs acc = Ok (((λ x, x + pw_max w) <$> acc) ++ w).
Proof.
  intros HFact. revert acc ma.
  induction HFact as [w m HP Hw Hi|F w' Fs m t HPF HF HiF HP' HFact IH]; intros acc ma Hacc.
  - simpl. rewrite (l_shifted_concat_Packed ma m) by done. simpl.
    by rewrite (Packed_pw_max m).
  - simpl. rewrite (l_shifted_concat_Packed ma m) by done. simpl.
    rewrite (IH _ (ma + m)) by (by apply Packed_shift_app).
    f_equal. rewrite fmap_app, <- app_assoc. f_equal.
    + rewrite <- list_fmap_compose. apply list_fmap_ext. intros _ x _. simpl.
      rewrite (Packed_pw_max t w') by done.
      rewrite (Packed_pw_max (m + t)) by (by apply Packed_shift_app). lia.
    + by rewrite (Packed_pw_max t w').
Qed.

Lemma shifted_concat_Factorization w Fs :
  Factorization w Fs → foldM_result l_shifted_concat Fs [] = Ok w.
Proof.
  intros HFact. by rewrite (foldM_shifted_concat w Fs [] 0 HFact Packed_nil).
Qed.

(** The first factor, shifted, is a prefix of the word, above the rest. *)
Lemma Factorization_head w Fs :
  Factorization w Fs →
  ∃ F Fs' w' m,
    Fs = F :: Fs' ∧ Packed m F ∧ F ≠ [] ∧
    w = ((λ x, x + pw_max w') <$> F) ++ w' ∧
    Packed (pw_max w') w' ∧
    pw_max w' = sum_list_Z (pw_max <$> Fs') ∧
    (w' = [] ↔ Fs' = []).
Proof.
  destruct 1 as [w m HP Hw Hi|F w' Fs m t HPF HF HiF HP' HFact].
  - exists w, [], [], m. split_and!; try done.
    + rewrite app_nil_r. simpl. rewrite <- (list_fmap_id w) at 1.
      apply list_fmap_ext. intros; simpl; lia.
    + apply Packed_nil.
  - exists F, Fs, w', m. rewrite (Packed_pw_max t w') by done.
    split_and!; try done.
    + rewrite <- (Packed_pw_max t w') by done. by apply Factorization_pw_max.
    + apply Factorization_nonempty in HFact as [? ?]. by split.
Qed.

(** ** The forest codecs, given the tree codecs on the factors *)

Lemma sum_list_Z_app l k : sum_list_Z (l ++ k) = sum_list_Z l + sum_list_Z k.
Proof. unfold sum_list_Z. induction l; simpl; lia. Qed.

Lemma sum_list_Z_reverse l : sum_list_Z (reverse l) = sum_list_Z l.
Proof.
  induction l as [|x l IH]; [done|].
  rewrite reverse_cons, sum_list_Z_app, IH. simpl. lia.
Qed.


Lemma reorder_involutive {A} rev (l : list A) : reorder rev (reorder rev l) = l.
Proof. destruct rev; simpl; [apply reverse_involutive|done]. Qed.
Lemma reorder_fmap {A B} (f : A → B) rev l : f <$> reorder rev l = reorder rev (f <$> l).
Proof. destruct rev; simpl; [by rewrite fmap_reverse|done]. Qed.
Lemma length_reorder {A} rev (l : list A) : length (reorder rev l) = length l.
Proof. destruct rev; simpl; [apply length_reverse|done]. Qed.

Lemma forest_decode_Factorization {L} (rev : bool)
    (enc : list Z → result (LTree L)) (dec : LTree L → result (list Z)) w Fs :
  Factorization w Fs →
  Forall (λ F, ∃ t, enc F = Ok t ∧ dec t = Ok F) Fs →
  ∃ ts, mapM_result enc (reorder rev Fs) = Ok ts ∧
        Forall2 (λ F t, enc F = Ok t ∧ dec t = Ok F) (reorder rev Fs) ts ∧
        forest_decode_with rev dec ts = Ok w.
Proof.
  intros HFact Hall.
  assert (∃ ts, Forall2 (λ F t, enc F = Ok t ∧ dec t = Ok F) (reorder rev Fs) ts) as [ts Hts].
  { assert (Forall (λ F, ∃ t, enc F = Ok t ∧ dec t = Ok F) (reorder rev Fs)) as Hall'.
    { destruct rev; simpl; [by apply Forall_reverse|done]. }
    clear -Hall'. induction Hall' as [|F Fs' (t & ? & ?) _ [ts IH]]; [by exists []|].
    exists (t :: ts). by constructor. }
  exists ts. split_and!; [|done|].
  { apply mapM_result_Forall2. eapply Forall2_impl; [exact Hts|]. by intros ? ? [? _]. }
  assert (dec <$> ts = Ok <$> reorder rev Fs) as Hdec.
  { clear -Hts. induction Hts as [|F t Fs' ts [_ ?] _ IH]; [done|].
    rewrite !fmap_cons. by f_equal. }
  pose proof (Forall2_length _ _ _ Hts) as Hlen. rewrite length_reorder in Hlen.
  unfold forest_decode_with.
  destruct ts as [|t1 [|t2 ts]].
  - apply Factorization_nonempty in HFact as [_ ?]. by destruct Fs.
  - destruct Fs as [|F [|? ?]]; try done.
    apply Factorization_singleton in HFact as ->.
    assert (reorder rev [w] = [w]) as Hr by (by destruct rev).
    rewrite Hr in Hts. apply Forall2_cons_1 in Hts as [[_ ?] _]. done.
  - replace ((if rev then reverse else id) (dec <$> t1 :: t2 :: ts))
      with (reorder rev (dec <$> t1 :: t2 :: ts)) by (by destruct rev).
    rewrite Hdec, <- reorder_fmap, reorder_involutive.
    rewrite sequence_result_fmap.
    rewrite (mapM_result_ext_ok _ id) by done. rewrite list_fmap_id. simpl.
    rewrite (shifted_concat_Factorization w) by done. simpl.
    apply Factorization_Packed in HFact. by eapply PackedWord_Packed.
Qed.

(** ** Construction and validation *)

Lemma valid_sequence_Packed s : valid_sequence s ↔ ∃ m, Packed m s.
Proof.
  split.
  - intros [->|[_ (m & [Hm Hle] & Hiff)]]; [exists 0; apply Packed_nil|].
    exists m. split; [|done]. apply Hiff in Hm. lia.
  - intros [m HP]. destruct (decide (s = [])) as [?|Hs]; [by left|right].
    split.
    + apply Forall_forall. intros x Hx. apply (Packed_bounds m) in Hx; [lia|done].
    + exists m. pose proof (Packed_nonempty _ _ HP Hs). destruct HP as [_ HP].
      split; [|done]. split; [apply HP; lia|]. intros x Hx%HP. lia.
Qed.

Lemma prefix_append s t : String.prefix s (s +:+ t) = true.
Proof.
  apply String.prefix_correct. induction s as [|a s IH]; simpl.
  - by destruct t.
  - by rewrite IH.
Qed.

Lemma contains_append s t : contains (s +:+ t) s = true.
Proof.
  unfold contains. destruct s as [|a s]; [by destruct t|].
  change ((String a s) +:+ t) with (String a (s +:+ t)).
  cbn [String.index]. change (String a (s +:+ t)) with ((String a s) +:+ t).
  by rewrite prefix_append.
Qed.

Lemma check_not_positive s :
  ¬ Forall (λ a, 0 < a) s → check s = Raise (NotPositiveIntegers s).
Proof.
  intros Hn. unfold check.
  destruct (forallb _ s) eqn:Hpos; [|done]. exfalso. apply Hn.
  apply Is_true_eq_left, forallb_True in Hpos.
  eapply Forall_impl; [exact Hpos|]. intros x Hx. by apply bool_decide_unpack in Hx.
Qed.

Lemma check_cases s :
  check s = Ok () ∨ check s = Raise (NotPositiveIntegers s) ∨ check s = Raise (NotPacked s).
Proof.
  unfold check. destruct (forallb _ s); [|auto]. case_decide; auto.
Qed.

Lemma init_fits s : Forall fits_int s → __init__ s = PackedWord s.
Proof. intros Hs. unfold __init__. by rewrite decide_True. Qed.

Lemma init_overflow s : ¬ Forall fits_int s → __init__ s = Raise OverflowError.
Proof. intros Hs. unfold __init__. by rewrite decide_False. Qed.

Lemma init_Ok_inv s w : __init__ s = Ok w → Forall fits_int s ∧ PackedWord s = Ok w.
Proof. unfold __init__. case_decide; [done|discriminate]. Qed.

(** C3 (as the code has it): for a sequence [s] whose entries fit a C
    [int], constructing a [PackedWord] from [s] succeeds exactly when [s] is
    empty or all its entries are positive and its distinct values are
    [{1,...,max(s)}]; otherwise construction fails with one of the two
    validation errors of [check], and when some entry is not positive the
    error message shows the offending sequence.  A sequence with an entry
    outside the range of a C [int] never gets to [check]: the array raises
    [OverflowError]. *)
Theorem PackedWord_valid_iff (s : list Z) :
  (__init__ s = Ok s ↔ valid_sequence s ∧ Forall fits_int s) ∧
  (Forall fits_int s → ¬ valid_sequence s →
     ∃ e, __init__ s = Raise e ∧
          (e = NotPositiveIntegers s ∨ e = NotPacked s) ∧
          (¬ Forall (λ a, 0 < a) s → e = NotPositiveIntegers s ∧ reports e s)) ∧
  (¬ Forall fits_int s → __init__ s = Raise OverflowError).
Proof.
  split_and!.
  - rewrite valid_sequence_Packed. split.
    + intros [Hs [_ ?]%PackedWord_Ok_inv]%init_Ok_inv. done.
    + intros [[m HP] Hs]. rewrite init_fits by done. by apply (PackedWord_Packed m).
  - intros Hs Hnv. rewrite init_fits by done. unfold PackedWord.
    destruct (check_cases s) as [Hc|[Hc|Hc]].
    + exfalso. apply Hnv, valid_sequence_Packed, check_Packed, Hc.
    + rewrite Hc. eexists. split; [done|]. split; [by left|].
      intros _. split; [done|]. unfold reports. simpl. apply contains_append.
    + rewrite Hc. eexists. split; [done|]. split; [by right|].
      intros Hn. apply check_not_positive in Hn. congruence.
  - apply init_overflow.
Qed.

(** The theorem on the documented failure [PackedWord([2, 2, 1, 0, 4])]. *)
Lemma PackedWord_valid_iff_witness :
  Forall fits_int [2; 2; 1; 0; 4] ∧ ¬ valid_sequence [2; 2; 1; 0; 4] ∧
  ∃ e, __init__ [2; 2; 1; 0; 4] = Raise e ∧
       (e = NotPositiveIntegers [2; 2; 1; 0; 4] ∨ e = NotPacked [2; 2; 1; 0; 4]) ∧
       (¬ Forall (λ a, 0 < a) [2; 2; 1; 0; 4] →
        e = NotPositiveIntegers [2; 2; 1; 0; 4] ∧ reports e [2; 2; 1; 0; 4]).
Proof.
  assert (Forall fits_int [2; 2; 1; 0; 4]) as Hfit.
  { repeat constructor; unfold fits_int; lia. }
  assert (¬ valid_sequence [2; 2; 1; 0; 4]) as Hnv.
  { intros [?|[Hpos _]]; [done|]. rewrite !Forall_cons in Hpos. lia. }
  split; [exact Hfit|]. split; [exact Hnv|].
  exact (proj1 (proj2 (PackedWord_valid_iff [2; 2; 1; 0; 4])) Hfit Hnv).
Defined.

(** C3, the claim as stated fails on [[2]]: construction fails, but the
    error raised does not show the offending sequence. *)
Lemma PackedWord_gap_error_silent :
  ¬ valid_sequence [2] ∧
  ∃ e, __init__ [2] = Raise e ∧ ¬ reports e [2].
Proof.
  split.
  - intros [?|[_ (m & [Hm Hle] & Hiff)]]; [done|].
    assert (1 ∈ [2]) as H1.
    { apply Hiff. apply Hiff in Hm. lia. }
    apply list_elem_of_singleton in H1. done.
  - exists (NotPacked [2]). split; [by vm_compute|].
    unfold reports. vm_compute. discriminate.
Qed.

(** ** [upgrade_max] *)

Lemma slice_to_from {A} (k : Z) (l : list A) : slice_to k l ++ slice_from k l = l.
Proof. unfold slice_to, slice_from. case_decide; apply take_drop. Qed.

Lemma length_insert_at m res pos : length (insert_at m res pos) = S (length res).
Proof.
  unfold insert_at. rewrite !length_app. simpl.
  rewrite <- (slice_to_from pos res) at 3. rewrite length_app. lia.
Qed.

Lemma elem_of_insert_at m res pos x : x ∈ insert_at m res pos ↔ x = m ∨ x ∈ res.
Proof.
  unfold insert_at. rewrite <- (slice_to_from pos res) at 3.
  rewrite !elem_of_app, list_elem_of_singleton. tauto.
Qed.

Lemma filter_insert_at (P : Z → Prop) `{∀ x, Decision (P x)} m res pos :
  ¬ P m → filter P (insert_at m res pos) = filter P res.
Proof.
  intros Hm. unfold insert_at. rewrite <- (slice_to_from pos res) at 3.
  rewrite !filter_app. f_equal. rewrite filter_cons_False by done. done.
Qed.

Lemma length_foldl_insert_at m l res :
  length (foldl (insert_at m) res l) = (length res + length l)%nat.
Proof.
  revert res. induction l as [|p l IH]; intros res; simpl; [lia|].
  rewrite IH, length_insert_at. lia.
Qed.

Lemma elem_of_foldl_insert_at m l res x :
  x ∈ foldl (insert_at m) res l ↔ x ∈ res ∨ (x = m ∧ l ≠ []).
Proof.
  revert res. induction l as [|p l IH]; intros res; simpl.
  - split; [by left|]. by intros [?|[_ ?]].
  - rewrite IH, elem_of_insert_at. split.
    + intros [[->|?]|[-> _]]; auto.
    + intros [?|[-> _]]; auto.
Qed.

Lemma filter_foldl_insert_at (P : Z → Prop) `{∀ x, Decision (P x)} m l res :
  ¬ P m → filter P (foldl (insert_at m) res l) = filter P res.
Proof.
  intros Hm. revert res. induction l as [|p l IH]; intros res; simpl; [done|].
  by rewrite IH, filter_insert_at.
Qed.

Lemma insert_at_replicate m t pos :
  insert_at m (replicate t m) pos = replicate (S t) m.
Proof.
  unfold insert_at, slice_to, slice_from.
  rewrite length_replicate.
  case_decide; rewrite take_replicate, drop_replicate;
    change [m] with (replicate 1 m); rewrite <- !replicate_add; f_equal; lia.
Qed.

Lemma foldl_insert_at_replicate m t l :
  foldl (insert_at m) (replicate t m) l = replicate (t + length l) m.
Proof.
  revert t. induction l as [|p l IH]; intros t; simpl.
  - f_equal. lia.
  - rewrite insert_at_replicate, IH. f_equal. lia.
Qed.

(** Insertions at or after the end of [A] only touch the tail. *)
Lemma insert_at_tail m A t pos :
  len A ≤ pos →
  insert_at m (A ++ replicate t m) pos = A ++ replicate (S t) m.
Proof.
  intros Hpos. unfold insert_at. rewrite slice_to_nonneg, slice_from_nonneg by (unfold len in *; lia).
  unfold len in Hpos.
  rewrite take_app_ge, drop_app_ge by lia.
  rewrite <- app_assoc. f_equal.
  rewrite take_replicate, drop_replicate.
  change [m] with (replicate 1 m); rewrite <- !replicate_add; f_equal. lia.
Qed.

Lemma foldl_insert_at_tail m A t l :
  Forall (λ q, len A ≤ q) l →
  foldl (insert_at m) (A ++ replicate t m) l = A ++ replicate (t + length l) m.
Proof.
  revert t. induction l as [|p l IH]; intros t Hl; simpl.
  - do 2 f_equal. lia.
  - apply Forall_cons in Hl as [Hp Hl].
    rewrite insert_at_tail by done. rewrite IH by done. do 2 f_equal. lia.
Qed.

(** An insertion strictly after position [p] leaves position [p] alone. *)
Lemma lookup_foldl_insert_at_lt m l res (p : nat) x :
  Forall (λ q, Z.of_nat p < q) l → res !! p = Some x →
  foldl (insert_at m) res l !! p = Some x.
Proof.
  revert res. induction l as [|q l IH]; intros res Hl Hp; simpl; [done|].
  apply Forall_cons in Hl as [Hq Hl]. apply IH; [done|].
  unfold insert_at. rewrite slice_to_nonneg by lia.
  pose proof (lookup_lt_Some _ _ _ Hp).
  rewrite lookup_app_l by (rewrite length_take; lia).
  rewrite lookup_take_lt by lia. done.
Qed.

Lemma Sorted_le_last (l : list Z) p x :
  Sorted Z.le l → last l = Some p → x ∈ l → x ≤ p.
Proof.
  intros Hs%Sorted_StronglySorted; [|apply _]. revert p x.
  induction Hs as [|y l Hl IH Hy]; intros p x Hp Hx; [by apply elem_of_nil in Hx|].
  destruct l as [|z l].
  - simpl in Hp. injection Hp as <-. apply list_elem_of_singleton in Hx. lia.
  - rewrite last_cons_cons in Hp. apply elem_of_cons in Hx as [->|Hx]; [|by apply IH].
    rewrite Forall_forall in Hy. etrans; [apply (Hy z); left|]. apply IH; [done|left].
Qed.

Lemma lookup_foldl_insert_at m l res :
  Sorted Z.le l → Forall (λ p, 0 ≤ p) l →
  (∀ p, last l = Some p → p ≤ len res + len l - 1) →
  ∀ p, p ∈ l → foldl (insert_at m) res l !! Z.to_nat p = Some m.
Proof.
  revert res. induction l as [|p0 l IH]; intros res Hs Hnn Hlast p Hp.
  { by apply elem_of_nil in Hp. }
  apply Forall_cons in Hnn as [Hp0 Hnn].
  assert (∀ q, q ∈ p0 :: l → q ≤ len res + len (p0 :: l) - 1) as Hbound.
  { intros q Hq. destruct (last (p0 :: l)) as [pl|] eqn:Hl; [|by apply last_None in Hl].
    etrans; [by eapply Sorted_le_last|]. by apply Hlast. }
  assert (StronglySorted Z.le (p0 :: l)) as Hss by (by apply Sorted_StronglySorted; [apply _|]).
  apply StronglySorted_inv in Hss as [Hss Hall]. rewrite Forall_forall in Hall.
  destruct (decide (len res ≤ p0)) as [Hge|Hlt].
  - (* every insertion lands in the tail *)
    rewrite <- (app_nil_r res). change [] with (replicate 0 m).
    rewrite foldl_insert_at_tail.
    + specialize (Hbound p Hp). rewrite len_cons in Hbound.
      assert (p0 ≤ p) by (apply elem_of_cons in Hp as [->|?]; [lia|by apply Hall]).
      unfold len in *. rewrite lookup_app_r by lia.
      apply lookup_replicate_2. simpl. lia.
    + apply Forall_cons. split; [done|]. apply Forall_forall. intros q Hq.
      specialize (Hall q Hq). lia.
  - simpl.
    assert (∀ q, q ∈ l → foldl (insert_at m) (insert_at m res p0) l !! Z.to_nat q = Some m)
      as Hrest.
    { apply IH; [by eapply Sorted_inv|done|].
      intros pl Hl. unfold len. rewrite length_insert_at.
      assert (last (p0 :: l) = Some pl) as Hl'.
      { destruct l; [done|]. by rewrite last_cons_cons. }
      specialize (Hlast _ Hl'). rewrite len_cons in Hlast. unfold len in *. lia. }
    apply elem_of_cons in Hp as [->|Hp]; [|by apply Hrest].
    destruct (decide (p0 ∈ l)) as [?|Hnotin]; [by apply Hrest|].
    apply lookup_foldl_insert_at_lt.
    + apply Forall_forall. intros q Hq. specialize (Hall q Hq).
      assert (q ≠ p0) by (by intros ->). lia.
    + unfold insert_at. rewrite slice_to_nonneg, slice_from_nonneg by lia.
      unfold len in *.
      rewrite lookup_app_r by (rewrite length_take; lia).
      rewrite length_take. replace (Z.to_nat p0 - Z.to_nat p0 `min` length res)%nat with 0%nat by lia.
      done.
Qed.

Lemma merge_sort_fixed (l : list Z) : merge_sort Z.le l = l ↔ Sorted Z.le l.
Proof.
  split.
  - intros <-. apply Sorted_merge_sort. apply _.
  - intros Hs. apply (Sorted_unique Z.le); [apply Sorted_merge_sort; apply _|done|].
    apply merge_sort_Permutation.
Qed.

Lemma Packed_foldl_insert_at m w l :
  Packed m w → l ≠ [] → Packed (m + 1) (foldl (insert_at (m + 1)) w l).
Proof.
  intros [Hm HP] Hl. split; [lia|]. intros k.
  rewrite elem_of_foldl_insert_at, HP. split; [intros [?|[-> _]]; lia|].
  intros ?. destruct (decide (k = m + 1)); [by right|left; lia].
Qed.

Lemma upgrade_max_empty l :
  l ≠ [] → upgrade_max [] l = Ok (replicate (length l) 1).
Proof.
  intros Hl. unfold upgrade_max. rewrite decide_False, decide_True by done.
  change [] with (replicate 0 1) at 1. rewrite foldl_insert_at_replicate. simpl.
  apply (PackedWord_Packed 1). split; [lia|]. intros k.
  rewrite elem_of_replicate. destruct l; [done|]. simpl. lia.
Qed.

(** The slices of [insert_at] put the letter where [list.insert] does. *)
Lemma insert_at_index m res pos :
  insert_at m res pos =
  take (insertion_index (length res) pos) res
    ++ m :: drop (insertion_index (length res) pos) res.
Proof.
  unfold insert_at, insertion_index, slice_to, slice_from. case_decide.
  - replace (Z.to_nat (Z.of_nat (length res) + pos))
      with (length res - Z.to_nat (- pos))%nat by lia. done.
  - destruct (decide (Z.to_nat pos ≤ length res)%nat).
    + by rewrite Nat.min_l by done.
    + rewrite Nat.min_r by lia. by rewrite !take_ge, !drop_ge by lia.
Qed.

Lemma foldl_insert_each m l w : foldl (insert_at m) w l = insert_each m w l.
Proof.
  revert w. induction l as [|p l IH]; intros w; simpl; [done|].
  by rewrite IH, insert_at_index.
Qed.

(** Marked positions and the other letters share the places of a word. *)
Lemma marks_bound (m : Z) r o l :
  StronglySorted Z.lt l → Forall (λ p, o ≤ p) l →
  (∀ p, p ∈ l → r !! Z.to_nat (p - o) = Some m) →
  (length (filter (λ x, x ≠ m) r) + length l ≤ length r)%nat.
Proof.
  revert o l. induction r as [|x r IH]; intros o l Hs Ho Hm.
  { destruct l as [|p l]; [done|]. by specialize (Hm p ltac:(left)). }
  destruct l as [|p l].
  { pose proof (length_filter (λ x, x ≠ m) (x :: r)). simpl in *. lia. }
  apply StronglySorted_inv in Hs as [Hs Hall]. rewrite Forall_forall in Hall.
  apply Forall_cons in Ho as [Hp Ho].
  destruct (decide (p = o)) as [->|Hne].
  - assert (x = m) as ->.
    { specialize (Hm o ltac:(left)). rewrite Z.sub_diag in Hm. by injection Hm. }
    rewrite filter_cons_False by (intros ?; done).
    assert (length (filter (λ x, x ≠ m) r) + length l ≤ length r)%nat; [|simpl; lia].
    apply (IH (o + 1) l); [done| |].
    + apply Forall_forall. intros q Hq. specialize (Hall q Hq). lia.
    + intros q Hq. specialize (Hall q Hq).
      specialize (Hm q ltac:(by right)).
      replace (Z.to_nat (q - o)) with (S (Z.to_nat (q - (o + 1)))) in Hm by lia. done.
  - assert (length (filter (λ x, x ≠ m) r) + length (p :: l) ≤ length r)%nat.
    { apply (IH (o + 1) (p :: l)).
      - by apply SSorted_cons; [|apply Forall_forall].
      - apply Forall_cons. split; [lia|].
        apply Forall_forall. intros q Hq. specialize (Hall q Hq). lia.
      - intros q Hq.
        assert (o + 1 ≤ q).
        { apply elem_of_cons in Hq as [->|Hq]; [lia|]. specialize (Hall q Hq). lia. }
        specialize (Hm q Hq).
        replace (Z.to_nat (q - o)) with (S (Z.to_nat (q - (o + 1)))) in Hm by lia. done. }
    destruct (decide (x ≠ m)).
    + rewrite filter_cons_True by done. simpl in *. lia.
    + rewrite filter_cons_False by done. simpl in *. lia.
Qed.

(** A word is determined by its marked positions and its other letters. *)
Lemma marks_unique (m : Z) r r' o l :
  StronglySorted Z.lt l → Forall (λ p, o ≤ p) l →
  (∀ p, p ∈ l → r !! Z.to_nat (p - o) = Some m) →
  (∀ p, p ∈ l → r' !! Z.to_nat (p - o) = Some m) →
  filter (λ x, x ≠ m) r = filter (λ x, x ≠ m) r' →
  length r = (length (filter (λ x, x ≠ m) r) + length l)%nat →
  length r' = (length (filter (λ x, x ≠ m) r') + length l)%nat →
  r = r'.
Proof.
  revert r' o l. induction r as [|x r IH]; intros r' o l Hs Ho Hm Hm' Hf Hl Hl'.
  { simpl in Hl. destruct l; [|done]. rewrite <- Hf in Hl'. simpl in Hl'.
    by destruct r'. }
  destruct r' as [|x' r'].
  { simpl in Hl'. destruct l; [|done]. rewrite Hf in Hl. simpl in Hl. lia. }
  assert (Forall (λ q, o + 1 ≤ q) l → x :: r = x' :: r') as Hshift.
  { intros Ho'.
    assert (∀ t, (∀ p, p ∈ l → (x :: t) !! Z.to_nat (p - o) = Some m) →
                 ∀ p, p ∈ l → t !! Z.to_nat (p - (o + 1)) = Some m) as Htail.
    { intros t Ht q Hq. rewrite Forall_forall in Ho'. specialize (Ho' q Hq).
      specialize (Ht q Hq).
      replace (Z.to_nat (q - o)) with (S (Z.to_nat (q - (o + 1)))) in Ht by lia. done. }
    assert (∀ y t, (∀ p, p ∈ l → (y :: t) !! Z.to_nat (p - o) = Some m) →
                   length (y :: t) = (length (filter (λ x, x ≠ m) (y :: t)) + length l)%nat →
                   y ≠ m) as Hhead.
    { intros y t Ht Hlen ->. rewrite filter_cons_False in Hlen by (intros ?; done).
      assert (∀ p, p ∈ l → t !! Z.to_nat (p - (o + 1)) = Some m) as Ht'.
      { intros q Hq. rewrite Forall_forall in Ho'. specialize (Ho' q Hq).
        specialize (Ht q Hq).
        replace (Z.to_nat (q - o)) with (S (Z.to_nat (q - (o + 1)))) in Ht by lia. done. }
      pose proof (marks_bound m t (o + 1) l Hs Ho' Ht'). simpl in Hlen. lia. }
    pose proof (Hhead x r Hm Hl) as Hx. pose proof (Hhead x' r' Hm' Hl') as Hx'.
    rewrite filter_cons_True in Hf, Hl by done.
    rewrite (filter_cons_True _ x') in Hf by done.
    rewrite filter_cons_True in Hl' by done.
    injection Hf as -> Hf. f_equal.
    apply (IH r' (o + 1) l); try done.
    - intros q Hq. rewrite Forall_forall in Ho'. specialize (Ho' q Hq).
      specialize (Hm q Hq).
      replace (Z.to_nat (q - o)) with (S (Z.to_nat (q - (o + 1)))) in Hm by lia. done.
    - intros q Hq. rewrite Forall_forall in Ho'. specialize (Ho' q Hq).
      specialize (Hm' q Hq).
      replace (Z.to_nat (q - o)) with (S (Z.to_nat (q - (o + 1)))) in Hm' by lia. done.
    - simpl in Hl. lia.
    - simpl in Hl'. lia. }
  destruct l as [|p l]; [by apply Hshift|].
  destruct (decide (p = o)) as [->|Hne].
  - pose proof (Hm o ltac:(left)) as Hx. pose proof (Hm' o ltac:(left)) as Hx'.
    rewrite Z.sub_diag in Hx, Hx'. injection Hx as ->. injection Hx' as ->.
    rewrite (filter_cons_False _ m r) in Hf, Hl by (intros ?; done).
    rewrite (filter_cons_False _ m r') in Hf, Hl' by (intros ?; done).
    apply StronglySorted_inv in Hs as [Hs Hall]. rewrite Forall_forall in Hall.
    f_equal. apply (IH r' (o + 1) l); try done.
    + apply Forall_forall. intros q Hq. specialize (Hall q Hq). lia.
    + intros q Hq. specialize (Hall q Hq). specialize (Hm q ltac:(by right)).
      replace (Z.to_nat (q - o)) with (S (Z.to_nat (q - (o + 1)))) in Hm by lia. done.
    + intros q Hq. specialize (Hall q Hq). specialize (Hm' q ltac:(by right)).
      replace (Z.to_nat (q - o)) with (S (Z.to_nat (q - (o + 1)))) in Hm' by lia. done.
    + simpl in Hl. lia.
    + simpl in Hl'. lia.
  - apply Hshift.
    pose proof Hs as Hs'.
    apply StronglySorted_inv in Hs' as [_ Hall]. rewrite Forall_forall in Hall.
    apply Forall_cons in Ho as [Hp Ho]. apply Forall_cons. split; [lia|].
    apply Forall_forall. intros q Hq. specialize (Hall q Hq). lia.
Qed.

Lemma inserted_at_unique m w l r r' :
  StronglySorted Z.lt l → Forall (λ p, 0 ≤ p) l →
  inserted_at m w l r → inserted_at m w l r' → r' = r.
Proof.
  intros Hs Hnn (Hl & Hm & Hf) (Hl' & Hm' & Hf').
  apply (marks_unique m r' r 0 l); try done.
  - intros p Hp. rewrite Z.sub_0_r. by apply Hm'.
  - intros p Hp. rewrite Z.sub_0_r. by apply Hm.
  - by rewrite Hf, Hf'.
  - by rewrite Hf'.
  - by rewrite Hf.
Qed.

(** C6 (as the code has it): for a valid packed word [w], [upgrade_max w l]
    fails with [EmptyInsertionList] when [l] is empty; for a non-empty [w]
    it fails with [PositionMismatch] when [l] is not sorted in increasing
    order or when its last position exceeds [len(w) + len(l) - 1], and
    otherwise returns the packed word obtained by inserting [max(w) + 1] at
    the positions of [l] one after the other, each position read as
    [list.insert] reads it.  That word has [len(w) + len(l)] letters and
    spells [w] once the new letter is removed; when the positions are
    non-negative, each of them holds the new letter in the result, and when
    they are strictly increasing as well, the result is the only such word.
    For the empty word and a non-empty [l] it returns [len(l)] letters [1]
    without checking [l]. *)
Theorem upgrade_max_spec (w l : list Z) :
  check w = Ok () →
  (l = [] → ∃ e, upgrade_max w l = Raise e ∧ kind e = EmptyInsertionList) ∧
  (l ≠ [] → w ≠ [] → ¬ Sorted Z.le l →
     ∃ e, upgrade_max w l = Raise e ∧ kind e = PositionMismatch) ∧
  (l ≠ [] → w ≠ [] → Sorted Z.le l →
     (∃ p, last l = Some p ∧ len w + len l - 1 < p) →
     ∃ e, upgrade_max w l = Raise e ∧ kind e = PositionMismatch) ∧
  (l ≠ [] → w ≠ [] → Sorted Z.le l →
     (∀ p, last l = Some p → p ≤ len w + len l - 1) →
     ∃ r, upgrade_max w l = Ok r ∧
          r = insert_each (pw_max w + 1) w l ∧
          check r = Ok () ∧ pw_max r = pw_max w + 1 ∧
          length r = (length w + length l)%nat ∧
          filter (λ x, x ≠ pw_max w + 1) r = w ∧
          (Forall (λ p, 0 ≤ p) l →
             inserted_at (pw_max w + 1) w l r ∧
             (StronglySorted Z.lt l →
                ∀ r', inserted_at (pw_max w + 1) w l r' → r' = r))) ∧
  (l ≠ [] → w = [] → upgrade_max w l = Ok (replicate (length l) 1)).
Proof.
  intros [m HP]%check_Packed. unfold upgrade_max. split_and!.
  - intros ->. rewrite decide_True by done. eauto.
  - intros Hl Hw Hns. rewrite !decide_False by done.
    rewrite decide_True by (by rewrite merge_sort_fixed). eauto.
  - intros Hl Hw Hs (p & Hp & Hgt). rewrite !decide_False by done.
    rewrite decide_False by (intros Hne; by apply Hne, merge_sort_fixed).
    unfold py_last. rewrite Hp. simpl. rewrite decide_True by lia. eauto.
  - intros Hl Hw Hs Hlast. rewrite !decide_False by done.
    rewrite decide_False by (intros Hne; by apply Hne, merge_sort_fixed).
    destruct (last l) as [p|] eqn:Hp; [|by apply last_None in Hp].
    unfold py_last. rewrite Hp. simpl.
    rewrite decide_False by (specialize (Hlast p eq_refl); lia).
    rewrite (Packed_py_max m) by done. simpl.
    pose proof (Packed_foldl_insert_at m w l HP Hl) as HP'.
    rewrite (PackedWord_Packed (m + 1)) by done.
    eexists. split; [done|]. rewrite (Packed_pw_max m) by done.
    assert (filter (λ x, x ≠ m + 1) (foldl (insert_at (m + 1)) w l) = w) as Hfilter.
    { rewrite filter_foldl_insert_at by (intros ?; done).
      apply filter_all, Forall_forall. intros x Hx%(Packed_bounds m); [lia|done]. }
    assert (Forall (λ p, 0 ≤ p) l →
            inserted_at (m + 1) w l (foldl (insert_at (m + 1)) w l)) as Hins.
    { intros Hnn. split_and!; [apply length_foldl_insert_at| |done].
      apply lookup_foldl_insert_at; [done..|]. intros q Hq. apply Hlast. congruence. }
    split_and!.
    + apply foldl_insert_each.
    + apply check_Packed. by exists (m + 1).
    + by apply (Packed_pw_max (m + 1)).
    + apply length_foldl_insert_at.
    + done.
    + intros Hnn. split; [by apply Hins|].
      intros Hss r' Hr'. by apply (inserted_at_unique (m + 1) w l); [..|apply Hins|].
  - intros Hl ->. fold (upgrade_max [] l). by apply upgrade_max_empty.
Qed.

(** A run of the theorem on the documented example
    [PackedWord([1,2,1]).upgrade_max([0,1,3]) = [3,3,1,3,2,1]], and on a
    list with a negative and a repeated position. *)
Lemma upgrade_max_spec_witness :
  check [1; 2; 1] = Ok () ∧
  (∃ r, upgrade_max [1; 2; 1] [0; 1; 3] = Ok r ∧
        r = [3; 3; 1; 3; 2; 1] ∧
        inserted_at (pw_max [1; 2; 1] + 1) [1; 2; 1] [0; 1; 3] r ∧
        ∀ r', inserted_at (pw_max [1; 2; 1] + 1) [1; 2; 1] [0; 1; 3] r' → r' = r) ∧
  upgrade_max [1; 2; 1] [-1; 0; 0] = Ok [3; 3; 1; 2; 3; 1].
Proof.
  split; [reflexivity|].
  assert (∀ l, l ≠ [] → Sorted Z.le l →
               (∀ p, last l = Some p → p ≤ len [1; 2; 1] + len l - 1) →
               ∃ r, upgrade_max [1; 2; 1] l = Ok r ∧
                    r = insert_each (pw_max [1; 2; 1] + 1) [1; 2; 1] l ∧
                    (Forall (λ p, 0 ≤ p) l →
                     inserted_at (pw_max [1; 2; 1] + 1) [1; 2; 1] l r ∧
                     (StronglySorted Z.lt l →
                      ∀ r', inserted_at (pw_max [1; 2; 1] + 1) [1; 2; 1] l r' → r' = r)))
    as Hrun.
  { intros l Hl Hs Hlast.
    destruct (upgrade_max_spec [1; 2; 1] l eq_refl) as (_ & _ & _ & Hok & _).
    destruct (Hok Hl ltac:(done) Hs Hlast) as (r & Hr & Heq & _ & _ & _ & _ & Hnn).
    by exists r. }
  split.
  - destruct (Hrun [0; 1; 3]) as (r & Hr & Heq & Hnn).
    + done.
    + repeat constructor; lia.
    + intros p [= <-]. vm_compute. discriminate.
    + destruct Hnn as [Hins Huniq]; [repeat constructor; lia|].
      exists r. split_and!; [done|by rewrite Heq|done|].
      apply Huniq. repeat constructor; lia.
  - destruct (Hrun [-1; 0; 0]) as (r & Hr & Heq & _).
    + done.
    + repeat constructor; lia.
    + intros p [= <-]. vm_compute. discriminate.
    + rewrite Hr, Heq. done.
Defined.

(** C6, the claim as stated fails for the empty word: an unsorted list is
    accepted, and so is a position past the end of the result. *)
Lemma upgrade_max_empty_word_unchecked :
  check [] = Ok () ∧ ¬ Sorted Z.le [1; 0] ∧
  upgrade_max [] [1; 0] = Ok [1; 1] ∧
  upgrade_max [] [5] = Ok [1].
Proof.
  split_and!; try by vm_compute.
  intros Hs. apply Sorted_inv in Hs as [_ Hs]. apply HdRel_inv in Hs. lia.
Qed.

(** ** Removing and re-inserting the maximal letter *)

Lemma positions_from_ge k m w i : i ∈ positions_from k m w → (k ≤ i < k + length w)%nat.
Proof.
  revert k. induction w as [|x w IH]; intros k; simpl; [by intros ?%elem_of_nil|].
  case_decide.
  - intros [->|Hi%IH]%elem_of_cons; lia.
  - intros Hi%IH. lia.
Qed.

Lemma positions_from_Sorted k m w : StronglySorted Z.le (Z.of_nat <$> positions_from k m w).
Proof.
  revert k. induction w as [|x w IH]; intros k; simpl; [constructor|].
  case_decide; [|apply IH].
  rewrite fmap_cons. constructor; [apply IH|].
  apply Forall_fmap, Forall_forall. intros i Hi%positions_from_ge. simpl. lia.
Qed.

Lemma positions_from_nonempty k m w : m ∈ w → positions_from k m w ≠ [].
Proof.
  revert k. induction w as [|x w IH]; intros k; [by intros ?%elem_of_nil|].
  simpl. case_decide; [done|]. intros [->|?]%elem_of_cons; [done|]. by apply IH.
Qed.

Lemma positions_filter_length k m w :
  Forall (λ x, x ≤ m) w →
  (length (positions_from k m w) + length (filter (λ x, (x < m)%Z) w) = length w)%nat.
Proof.
  intros Hw. revert k. induction Hw as [|x w Hx Hw IH]; intros k; simpl; [done|].
  specialize (IH (S k)). case_decide.
  - rewrite filter_cons_False by lia. rewrite length_cons. lia.
  - rewrite filter_cons_True by lia. rewrite length_cons. lia.
Qed.

Lemma reinsert_max m pre w :
  Forall (λ x, x ≤ m) w →
  foldl (insert_at m) (pre ++ filter (λ x, x < m) w)
        (Z.of_nat <$> positions_from (length pre) m w)
  = pre ++ w.
Proof.
  intros Hw. revert pre. induction Hw as [|x w Hx Hw IH]; intros pre; simpl.
  { by rewrite filter_nil. }
  case_decide as Hxm.
  - subst x. rewrite filter_cons_False by lia. simpl.
    replace (insert_at m (pre ++ filter (λ x, x < m) w) (Z.of_nat (length pre)))
      with ((pre ++ [m]) ++ filter (λ x, x < m) w).
    + replace (S (length pre)) with (length (pre ++ [m])) by (rewrite length_app; simpl; lia).
      rewrite IH. by rewrite <- app_assoc.
    + unfold insert_at. rewrite slice_to_nat, slice_from_nat.
      rewrite take_app_length, drop_app_length. by rewrite <- app_assoc.
  - rewrite filter_cons_True by lia.
    replace (pre ++ x :: filter (λ x, x < m) w) with ((pre ++ [x]) ++ filter (λ x, x < m) w)
      by (by rewrite <- app_assoc).
    replace (S (length pre)) with (length (pre ++ [x])) by (rewrite length_app; simpl; lia).
    rewrite IH. by rewrite <- app_assoc.
Qed.

Lemma Packed_remove_max m w :
  Packed m w → 1 ≤ m → Packed (m - 1) (filter (λ x, x < m) w).
Proof.
  intros [_ HP] Hm. split; [lia|]. intros k. rewrite list_elem_of_filter, HP. lia.
Qed.

Lemma upgrade_max_reinsert m w :
  Packed m w → 2 ≤ m →
  upgrade_max (filter (λ x, x < m) w) (Z.of_nat <$> positions_from 0 m w) = Ok w.
Proof.
  intros HP Hm.
  pose proof (Packed_remove_max m w HP ltac:(lia)) as HP'.
  assert (filter (λ x, x < m) w ≠ []) as Hne by (apply (Packed_pos_nonempty (m - 1)); [done|lia]).
  assert (m ∈ w) as Hin by (destruct HP as [_ HP]; apply HP; lia).
  pose proof (positions_from_nonempty 0 m w Hin) as Hpos.
  assert (Forall (λ x, x ≤ m) w) as Hle.
  { apply Forall_forall. intros x Hx%(Packed_bounds m); [lia|done]. }
  unfold upgrade_max.
  rewrite decide_False by (by destruct (positions_from 0 m w)).
  rewrite decide_False by done.
  rewrite decide_False.
  2:{ intros Hns. apply Hns, merge_sort_fixed, StronglySorted_Sorted, positions_from_Sorted. }
  destruct (last (Z.of_nat <$> positions_from 0 m w)) as [p|] eqn:Hlast.
  2:{ apply last_None in Hlast. by destruct (positions_from 0 m w). }
  unfold py_last. rewrite Hlast. simpl.
  rewrite decide_False.
  2:{ apply last_Some_elem_of, list_elem_of_fmap in Hlast as (i & -> & Hi%positions_from_ge).
      pose proof (positions_filter_length 0 m w Hle). unfold len. rewrite length_fmap. lia. }
  rewrite (Packed_py_max (m - 1)) by done. simpl.
  replace (m - 1 + 1) with m by lia.
  pose proof (reinsert_max m [] w Hle) as Hre. simpl in Hre. rewrite Hre.
  by eapply PackedWord_Packed.
Qed.

(** When the first maximal letter comes after every smaller letter, the
    maximal letters form the trailing run. *)
Lemma positions_from_trailing a m w p0 ps :
  Forall (λ x, x ≤ m) w →
  positions_from a m w = p0 :: ps →
  (length (filter (λ x, (x < m)%Z) w) ≤ p0 - a)%nat →
  positions_from a m w = seq p0 (S (length ps)) ∧ (p0 - a)%nat = length (filter (λ x, x < m) w).
Proof.
  intros Hw. revert a. induction Hw as [|x w Hx Hw IH]; intros a; simpl; [done|].
  case_decide as Hxm.
  - subst x. rewrite filter_cons_False by lia. intros [= <- <-] Hlen.
    assert (filter (λ x, x < m) w = []) as Hnil.
    { destruct (filter _ w); [done|simpl in Hlen; lia]. }
    rewrite Hnil. split; [|simpl; lia]. f_equal.
    clear IH Hlen. revert a. induction Hw as [|y w Hy Hw IH]; intros a; simpl; [done|].
    assert (y = m) as ->.
    { destruct (decide (y < m)) as [Hlt|?]; [|lia].
      by rewrite filter_cons_True in Hnil by done. }
    rewrite filter_cons_False in Hnil by lia.
    rewrite decide_True by done. simpl. f_equal. by apply IH.
  - rewrite filter_cons_True by lia. simpl. intros Hp Hlen.
    assert (S a ≤ p0)%nat.
    { assert (p0 ∈ positions_from (S a) m w) as ?%positions_from_ge by (rewrite Hp; left). lia. }
    destruct (IH (S a) Hp ltac:(lia)) as [-> ?]. split; [done|lia].
Qed.

(** ** The loop computing [cut] *)

Lemma cut_loop_spec rest p0 total cut s :
  p0 < s + sum_list_Z (len <$> rest) →
  ∃ k, (k ≤ length rest)%nat ∧
       cut_loop rest p0 total cut s
       = Ok ((cut + k)%nat, s + sum_list_Z (len <$> take k rest)).
Proof.
  revert cut s. induction rest as [|F rest IH]; intros cut s Hp0; simpl.
  - simpl in Hp0. rewrite decide_False by lia. exists 0%nat. split; [done|].
    do 2 f_equal; [lia|simpl; lia].
  - case_decide.
    + rewrite fmap_cons, sum_list_Z_cons in Hp0.
      destruct (IH (S cut) (s + len F) ltac:(lia)) as (k & Hk & ->).
      exists (S k). split; [lia|]. do 2 f_equal; [lia|].
      change (take (S k) (F :: rest)) with (F :: take k rest).
      rewrite fmap_cons, sum_list_Z_cons. lia.
    + exists 0%nat. split; [lia|]. do 2 f_equal; [lia|simpl; lia].
Qed.

Lemma sum_take_S (l : list Z) k x :
  l !! k = Some x → sum_list_Z (take (S k) l) = sum_list_Z (take k l) + x.
Proof.
  intros Hk. rewrite (take_S_r _ _ _ Hk), sum_list_Z_app. simpl. lia.
Qed.

(** ** The plain codec round-trips *)

Lemma encode_tree_S fuel w :
  packed_word_to_labelled_tree_fuel (S fuel) w =
    (m ← py_max w;
     let n := len w in
     if decide (m = 1) then Ok (Node [] (0, py_range 1 (1 + n)))
     else
       let pos_max := positions_from 0 m w in
       let self_m := filter (λ x, x < m) w in
       p0 ← py_get pos_max 0;
       if decide (length self_m ≤ p0)%nat then
         let lbl := py_range 1 (1 + len pos_max) in
         pw ← PackedWord self_m;
         children ← forest_with id (packed_word_to_labelled_tree_fuel fuel) pw;
         Ok (Node children (len children, lbl))
       else
         pw ← PackedWord self_m;
         g_desc_fact ← global_descents_factorization pw;
         F0 ← py_get g_desc_fact 0;
         '(cut, s) ← cut_loop (drop 1 g_desc_fact) (Z.of_nat p0) (len self_m) 0 (len F0);
         Fc ← py_get g_desc_fact cut;
         let s := s - len Fc in
         let lbl := (λ x : nat, Z.of_nat x - s + 1) <$> pos_max in
         children ← mapM_result (packed_word_to_labelled_tree_fuel fuel) g_desc_fact;
         Ok (Node children (Z.of_nat cut, lbl))).
Proof. reflexivity. Qed.

Lemma decode_tree_Node ts cut lbl :
  labelled_tree_to_packed_word (Node ts (cut, lbl)) =
    (res ← forest_decode_with false labelled_tree_to_packed_word ts;
     upgrade_max res ((λ x, x + sum_list_Z (weight <$> slice_to cut ts) - 1) <$> lbl)).
Proof. reflexivity. Qed.

Lemma weight_Node ts cut lbl :
  weight (Node ts (cut, lbl)) = len lbl + sum_list_Z (weight <$> ts).
Proof. reflexivity. Qed.

Lemma Packed_one_replicate w : Packed 1 w → w = replicate (length w) 1.
Proof.
  intros HP. apply list_eq. intros i.
  destruct (w !! i) as [x|] eqn:Hx.
  - pose proof (lookup_lt_Some _ _ _ Hx).
    assert (1 ≤ x ≤ 1) by (eapply Packed_bounds; [done|by eapply list_elem_of_lookup_2]).
    symmetry. rewrite lookup_replicate. split; [f_equal; lia|done].
  - apply lookup_ge_None in Hx. symmetry. apply lookup_ge_None.
    by rewrite length_replicate.
Qed.

Lemma seqZ_of_seq a k : Z.of_nat <$> seq a k = seqZ (Z.of_nat a) (Z.of_nat k).
Proof.
  revert a. induction k as [|k IH]; intros a; [done|].
  rewrite seqZ_cons by lia. simpl. f_equal.
  rewrite IH. f_equal; lia.
Qed.

Lemma fmap_shift_seqZ c a n : (λ x, x + c) <$> seqZ a n = seqZ (a + c) n.
Proof.
  rewrite (Z.add_comm a c), <- fmap_add_seqZ. apply list_fmap_ext. intros; simpl; lia.
Qed.

Lemma tree_roundtrip fuel : ∀ w m,
  Packed m w → w ≠ [] → (length w ≤ fuel)%nat →
  ∃ t, packed_word_to_labelled_tree_fuel fuel w = Ok t ∧
       labelled_tree_to_packed_word t = Ok w ∧
       weight t = len w.
Proof.
  induction fuel as [|fuel IH]; intros w m HP Hw Hlen.
  { destruct w; [done|simpl in Hlen; lia]. }
  rewrite encode_tree_S. rewrite (Packed_py_max m) by done. rewrite bind_Ok. cbv zeta.
  destruct (decide (m = 1)) as [->|Hm1].
  - eexists. split; [done|]. pose proof (Packed_one_replicate w HP) as Hrep.
    assert (length (py_range 1 (1 + len w)) = length w) as Hlbl.
    { unfold py_range. rewrite length_seqZ. unfold len. lia. }
    split; [|rewrite weight_Node; unfold len at 1; rewrite Hlbl;
             change (sum_list_Z (weight <$> [])) with 0; unfold len; lia].
    rewrite decode_tree_Node. simpl forest_decode_with.
    rewrite (PackedWord_Packed 0 [] Packed_nil). rewrite bind_Ok.
    rewrite upgrade_max_empty.
    + rewrite length_fmap, Hlbl. by rewrite <- Hrep.
    + intros Hnil%(f_equal length). rewrite length_fmap, Hlbl in Hnil.
      by destruct w.
  - pose proof (Packed_nonempty _ _ HP Hw) as Hm.
    assert (Forall (λ x, x ≤ m) w) as Hle.
    { apply Forall_forall. intros x Hx%(Packed_bounds m); [lia|done]. }
    assert (m ∈ w) as Hin by (destruct HP as [_ HP0]; apply HP0; lia).
    pose proof (positions_from_nonempty 0 m w Hin) as Hpos.
    pose proof (positions_filter_length 0 m w Hle) as Hplen.
    pose proof (upgrade_max_reinsert m w HP ltac:(lia)) as Hup.
    pose proof (Packed_remove_max m w HP ltac:(lia)) as HP'.
    set (pos_max := positions_from 0 m w) in *.
    set (self_m := filter (λ x, x < m) w) in *.
    assert (self_m ≠ []) as Hne by (apply (Packed_pos_nonempty (m - 1)); [done|lia]).
    destruct pos_max as [|p0 ps] eqn:Hpm; [done|].
    rewrite length_cons in Hplen.
    rewrite py_get_head, bind_Ok.
    rewrite (PackedWord_Packed (m - 1)) by done.
    destruct (gdf_Factorization self_m (m - 1) HP' Hne) as (Fs & HFs & HFact).
    assert (Forall (λ F, ∃ t, packed_word_to_labelled_tree_fuel fuel F = Ok t ∧
                              labelled_tree_to_packed_word t = Ok F) Fs) as Hall.
    { eapply Forall_impl; [apply (Factorization_Forall _ _ HFact)|].
      intros F (HPF & HF & _ & HlF). simpl in *.
      destruct (IH F _ HPF HF ltac:(lia)) as (t & ? & ? & ?). eauto. }
    destruct (forest_decode_Factorization false _ _ _ _ HFact Hall)
      as (ts & Hts & Hts2 & Hdec).
    simpl in Hts, Hts2.
    assert (weight <$> ts = len <$> Fs) as Hweights.
    { pose proof (Factorization_Forall _ _ HFact) as HFF.
      clear -Hts2 IH HFF Hplen Hlen. induction Hts2 as [|F t Fs ts [Henc _] _ IHl]; [done|].
      apply Forall_cons in HFF as [(HPF & HF & _ & HlF) HFF].
      destruct (IH F _ HPF HF ltac:(lia)) as (t' & Henc' & _ & Hw').
      rewrite !fmap_cons. f_equal; [congruence|by apply IHl]. }
    pose proof (Factorization_len _ _ HFact) as Hsum.
    destruct (decide (length self_m ≤ p0)%nat) as [Htrail|Hinside].
    + (* the maximal letters are the trailing run *)
      rewrite bind_Ok. unfold forest_with. rewrite decide_False by done.
      rewrite HFs, bind_Ok. unfold id at 1. rewrite Hts, bind_Ok.
      eexists. split; [done|]. split.
      * rewrite decode_tree_Node, Hdec, bind_Ok.
        rewrite slice_to_len, Hweights, <- Hsum.
        destruct (positions_from_trailing 0 m w p0 ps Hle Hpm ltac:(fold self_m; lia))
          as [Hseq Hp0].
        fold self_m in Hp0.
        unfold py_range.
        replace ((λ x, x + len self_m - 1) <$> seqZ 1 (1 + len (p0 :: ps) - 1))
          with (Z.of_nat <$> (p0 :: ps)); [done|].
        rewrite <- Hpm at 1. unfold pos_max. rewrite Hseq, seqZ_of_seq.
        transitivity ((λ x, x + (len self_m - 1)) <$> seqZ 1 (1 + len (p0 :: ps) - 1));
          [|apply list_fmap_ext; intros; simpl; lia].
        rewrite fmap_shift_seqZ. f_equal; unfold len; simpl; lia.
      * rewrite weight_Node, Hweights, <- Hsum. unfold py_range, len.
        rewrite length_seqZ. simpl in *. lia.
    + (* the first maximal letter falls inside a factor *)
      rewrite bind_Ok, HFs, bind_Ok.
      destruct Fs as [|F0 Fs']; [by apply Factorization_nonempty in HFact as [_ ?]|].
      rewrite py_get_head, bind_Ok.
      rewrite fmap_cons, sum_list_Z_cons in Hsum.
      change (drop 1 (F0 :: Fs')) with Fs'.
      destruct (cut_loop_spec Fs' (Z.of_nat p0) (len self_m) 0 (len F0))
        as (k & Hk & ->).
      { unfold len in *. lia. }
      rewrite bind_Ok. rewrite Nat.add_0_l.
      assert (is_Some ((F0 :: Fs') !! k)) as [Fc HFc] by (apply lookup_lt_is_Some; simpl; lia).
      rewrite (py_get_Some _ _ _ HFc), bind_Ok. cbv zeta. rewrite Hts, bind_Ok.
      assert (len F0 + sum_list_Z (len <$> take k Fs') - len Fc
              = sum_list_Z (len <$> take k (F0 :: Fs'))) as Hs.
      { assert (sum_list_Z (take (S k) (len <$> F0 :: Fs'))
                = sum_list_Z (take k (len <$> F0 :: Fs')) + len Fc) as Hsk.
        { apply sum_take_S. by rewrite list_lookup_fmap, HFc. }
        rewrite <- !fmap_take in Hsk. simpl take in Hsk at 1.
        rewrite fmap_cons, sum_list_Z_cons in Hsk. lia. }
      rewrite Hs.
      eexists. split; [done|]. split.
      * rewrite decode_tree_Node, Hdec, bind_Ok.
        rewrite slice_to_nat, fmap_take, Hweights, <- fmap_take.
        rewrite <- list_fmap_compose.
        erewrite list_fmap_ext; [exact Hup|]. intros; simpl; lia.
      * rewrite weight_Node, Hweights, len_fmap, fmap_cons, sum_list_Z_cons, <- Hsum.
        unfold len. simpl in *. lia.
Qed.

(** C1: for every valid packed word [w] (the empty word included), the
    plain labelled-forest encoder returns a forest, and decoding that forest
    returns [w]. *)
Theorem plain_codec_roundtrip (w : list Z) :
  check w = Ok () →
  ∃ f, packed_word_to_labelled_forest w = Ok f ∧
       labelled_forest_to_packed_word f = Ok w.
Proof.
  intros [m HP]%check_Packed.
  unfold packed_word_to_labelled_forest, labelled_forest_to_packed_word, forest_with.
  destruct (decide (w = [])) as [->|Hw].
  { exists []. split; [done|]. simpl. by apply (PackedWord_Packed 0), Packed_nil. }
  destruct (gdf_Factorization w m HP Hw) as (Fs & -> & HFact). rewrite bind_Ok.
  assert (Forall (λ F, ∃ t, packed_word_to_labelled_tree_fuel (length w) F = Ok t ∧
                            labelled_tree_to_packed_word t = Ok F) Fs) as Hall.
  { eapply Forall_impl; [apply (Factorization_Forall _ _ HFact)|].
    intros F (HPF & HF & _ & HlF). simpl in *.
    destruct (tree_roundtrip (length w) F _ HPF HF HlF) as (t & ? & ? & ?). eauto. }
  destruct (forest_decode_Factorization false _ _ _ _ HFact Hall) as (ts & Hts & _ & Hdec).
  exists ts. by split.
Qed.

(** The word [[1,5,10,2,3,11,4,7,6,7,2,9,8]] round-trips exactly. *)
Lemma plain_codec_roundtrip_witness :
  check [1; 5; 10; 2; 3; 11; 4; 7; 6; 7; 2; 9; 8] = Ok () ∧
  ∃ f, packed_word_to_labelled_forest [1; 5; 10; 2; 3; 11; 4; 7; 6; 7; 2; 9; 8] = Ok f ∧
       labelled_forest_to_packed_word f = Ok [1; 5; 10; 2; 3; 11; 4; 7; 6; 7; 2; 9; 8].
Proof.
  split; [by vm_compute|].
  apply (plain_codec_roundtrip [1; 5; 10; 2; 3; 11; 4; 7; 6; 7; 2; 9; 8]).
  by vm_compute.
Defined.

(** ** Removing and re-appending the last letter *)

Lemma py_index_fmap (f : Z → Z) l v :
  (∀ x, x ∈ l → f x = f v → x = v) →
  py_index (f <$> l) (f v) = py_index l v.
Proof.
  induction l as [|y l IH]; intros Hinj; [done|].
  rewrite fmap_cons. simpl. destruct (decide (y = v)) as [->|Hne].
  - by rewrite decide_True.
  - rewrite decide_False; [|intros Heq; apply Hne, Hinj; [left|done]].
    rewrite IH; [done|]. intros x Hx. apply Hinj. by right.
Qed.


Lemma close_gap_mono b l x y :
  x ≠ l ∨ b = true → y ≠ l ∨ b = true → x < y ↔ close_gap b l x < close_gap b l y.
Proof. unfold close_gap. destruct b; [done|]. intros [?|?] [?|?]; try done. repeat case_decide; lia. Qed.

Lemma close_gap_inv b l x :
  x ≠ l ∨ b = true →
  (let y := close_gap b l x in if decide (y < l) then y else y + (1 - Z.b2z b)) = x.
Proof.
  unfold close_gap. destruct b; simpl.
  - intros _. case_decide; lia.
  - intros [?|?]; [|done]. repeat case_decide; lia.
Qed.

Section prefix.
Context (m l : Z) (P : list Z).
Hypothesis HP : Packed m (P ++ [l]).

Let b := bool_decide (l ∈ P).
Let m' := m - (1 - Z.b2z b).

Lemma prefix_not_l x : x ∈ P → x ≠ l ∨ b = true.
Proof.
  intros Hx. unfold b. destruct (decide (l ∈ P)) as [Hl|Hl].
  - right. by apply bool_decide_eq_true.
  - left. by intros ->.
Qed.

Lemma Packed_prefix : Packed m' (close_gap b l <$> P).
Proof.
  destruct HP as [Hm HPk].
  assert (1 ≤ l ≤ m) as Hl by (apply HPk, elem_of_app; right; left).
  assert (∀ k, k ∈ P ↔ 1 ≤ k ≤ m ∧ (k ≠ l ∨ b = true)) as HPP.
  { intros k. split.
    - intros Hk. split; [apply HPk, elem_of_app; by left|by apply prefix_not_l].
    - intros [Hk Hkl]. assert (k ∈ P ++ [l]) as [?|Hin]%elem_of_app by (by apply HPk); [done|].
      apply list_elem_of_singleton in Hin as ->. destruct Hkl as [?|Hb]; [done|].
      by apply bool_decide_eq_true in Hb. }
  unfold m'. split; [destruct b; simpl; lia|].
  intros k. rewrite list_elem_of_fmap. setoid_rewrite HPP. unfold close_gap.
  destruct b eqn:Hb; simpl.
  - split; [intros (x & -> & ? & _); lia|]. intros ?. exists k. auto with lia.
  - split.
    + intros (x & -> & ? & [?|?]); [|done]. case_decide; lia.
    + intros Hk. destruct (decide (k < l)).
      * exists k. rewrite decide_True by done. auto with lia.
      * exists (k + 1). rewrite decide_False by lia. split; [lia|]. split; [lia|]. left; lia.
Qed.

Lemma pack_prefix : pack P = Ok (close_gap b l <$> P).
Proof.
  apply (pack_relabel _ m'); [|apply Packed_prefix].
  intros x y Hx Hy. apply close_gap_mono; by apply prefix_not_l.
Qed.

Lemma restore_prefix :
  (λ x, if decide (x < l) then x else x + (1 - Z.b2z b)) <$> (close_gap b l <$> P) = P.
Proof.
  rewrite <- list_fmap_compose. rewrite <- (list_fmap_id P) at 2.
  apply list_fmap_ext. intros i x Hx. simpl.
  apply close_gap_inv, prefix_not_l. by eapply list_elem_of_lookup_2.
Qed.

Lemma upgrade_last_prefix :
  upgrade_last (close_gap b l <$> P) (l, b) = Ok (P ++ [l]).
Proof.
  unfold upgrade_last. rewrite restore_prefix. by apply (PackedWord_Packed m).
Qed.
End prefix.

Section first_block.
Context (m l t mF : Z) (P F0 w'' : list Z).
Hypothesis HP : Packed m (P ++ [l]).
Let b := bool_decide (l ∈ P).
Let f := close_gap b l.
Hypothesis Hsplit : f <$> P = ((λ x, x + t) <$> F0) ++ w''.
Hypothesis HF0 : Packed mF F0.
Hypothesis Hw'' : Packed t w''.

Lemma f_mono x y : x ∈ P → y ∈ P → x < y ↔ f x < f y.
Proof. intros Hx Hy. apply close_gap_mono; by eapply prefix_not_l. Qed.

Lemma f_inj x y : x ∈ P → y ∈ P → f x = f y → x = y.
Proof.
  intros Hx Hy Hxy. pose proof (f_mono x y Hx Hy). pose proof (f_mono y x Hy Hx). lia.
Qed.

Lemma length_first_block : (length F0 + length w'' = length P)%nat.
Proof.
  pose proof (f_equal length Hsplit) as Hlen.
  rewrite length_fmap, length_app, length_fmap in Hlen. lia.
Qed.

Lemma take_first_block : f <$> take (length F0) P = (λ x, x + t) <$> F0.
Proof.
  rewrite fmap_take, Hsplit.
  rewrite take_app_le by (by rewrite length_fmap).
  rewrite take_ge; [done|]. by rewrite length_fmap.
Qed.

Lemma drop_first_block : f <$> drop (length F0) P = w''.
Proof.
  rewrite fmap_drop, Hsplit.
  rewrite drop_app_ge by (by rewrite length_fmap).
  rewrite length_fmap, Nat.sub_diag. done.
Qed.

Lemma first_block_above x : x ∈ take (length F0) P → t < f x.
Proof.
  intros Hx. assert (f x ∈ f <$> take (length F0) P) as Hfx by (by apply list_elem_of_fmap_2).
  rewrite take_first_block in Hfx. apply list_elem_of_fmap in Hfx as (y & -> & Hy).
  apply (Packed_bounds mF) in Hy; [lia|done].
Qed.

Lemma rest_below x : x ∈ drop (length F0) P → f x ≤ t.
Proof.
  intros Hx. assert (f x ∈ f <$> drop (length F0) P) as Hfx by (by apply list_elem_of_fmap_2).
  rewrite drop_first_block in Hfx. apply (Packed_bounds t) in Hfx; [lia|done].
Qed.

(** A letter of the first block is first met inside the first block. *)
Lemma first_block_index v :
  v ∈ P → t < f v →
  ∃ i, py_index (P ++ [l]) v = Ok i ∧
       py_index (take (length F0) (P ++ [l])) v = Ok i ∧
       F0 !! i = Some (f v - t).
Proof.
  intros Hv Hfv.
  assert (f v ∈ (λ x, x + t) <$> F0) as Hin.
  { assert (f v ∈ f <$> P) as Hfp by (by apply list_elem_of_fmap_2).
    rewrite Hsplit in Hfp. apply elem_of_app in Hfp as [?|Hr]; [done|].
    apply (Packed_bounds t) in Hr; [lia|done]. }
  assert (f v - t ∈ F0) as Hin0.
  { apply list_elem_of_fmap in Hin as (y & Hy & ?). by replace (f v - t) with y by lia. }
  destruct (py_index_elem _ _ Hin0) as [i Hi]. exists i.
  assert (py_index ((λ x, x + t) <$> F0) (f v) = Ok i) as Hi'.
  { rewrite <- Hi. replace (f v) with (f v - t + t) at 1 by lia.
    apply (py_index_fmap (λ x, x + t)). intros; simpl in *; lia. }
  split_and!.
  - rewrite py_index_app_l by done.
    rewrite <- (py_index_fmap f) by (intros; by apply f_inj).
    rewrite Hsplit. by rewrite py_index_app_l.
  - pose proof length_first_block.
    rewrite take_app_le by lia.
    rewrite <- (py_index_fmap f).
    + by rewrite take_first_block.
    + intros x Hx%in_take ?. by apply f_inj.
  - by apply py_index_Ok in Hi as [? _].
Qed.

(** In a word with no global descent, the last letter is at least some
    letter of the first block of the prefix. *)
Lemma last_above_first_block :
  irreducible (P ++ [l]) → F0 ≠ [] → w'' ≠ [] →
  ∃ a, a ∈ take (length F0) P ∧ a ≤ l.
Proof.
  intros Hirr HF0ne Hw''ne. pose proof length_first_block as Hlen.
  destruct (decide (Forall (λ a, l < a) (take (length F0) P))) as [Hall|Hex].
  - exfalso. apply (Hirr (length F0)).
    + assert (length F0 ≠ 0%nat) by (by destruct F0).
      rewrite length_app. simpl. lia.
    + apply cuts_spec. rewrite take_app_le, drop_app_le by lia.
      intros a c Ha [Hc|Hc]%elem_of_app.
      * apply f_mono; [by eapply in_drop|by eapply in_take|].
        pose proof (first_block_above a Ha). pose proof (rest_below c Hc). lia.
      * apply list_elem_of_singleton in Hc as ->.
        by apply (proj1 (Forall_forall _ _) Hall).
  - apply not_Forall_Exists in Hex; [|apply _].
    apply Exists_exists in Hex as (a & Ha & Hla). exists a. split; [done|].
    simpl in Hla. lia.
Qed.
End first_block.

(** ** The left codec round-trips *)

Lemma encode_left_S fuel w :
  packed_word_to_labelled_tree_left_fuel (S fuel) w =
    if decide (length w = 1%nat) then Ok (Node [] (0, (1, false)))
    else
      l ← py_last w;
      let self_l := slice_to (-1) w in
      let b := bool_decide (l ∈ self_l) in
      self_l ← pack self_l;
      g_desc_fact ← global_descents_factorization self_l;
      c ← (if b then Ok true else m ← py_max w; Ok (bool_decide (l ≠ m)));
      let cut := len g_desc_fact - Z.b2z c in
      lbl ← (if b then
               F0 ← py_get g_desc_fact 0;
               i ← py_index w l;
               py_get F0 i
             else
               m ← py_max w;
               if decide (l = m) then Ok 1
               else
                 F0 ← py_get g_desc_fact 0;
                 i ← py_index (take (length F0) w) (l - 1);
                 x ← py_get F0 i;
                 Ok (x + 1));
      children ← mapM_result (packed_word_to_labelled_tree_left_fuel fuel) (reverse g_desc_fact);
      Ok (Node children (cut, (lbl, b))).
Proof. reflexivity. Qed.

Lemma decode_left_Node ts cut val seen :
  labelled_tree_to_packed_word_left (Node ts (cut, (val, seen))) =
    (res ← forest_decode_with true labelled_tree_to_packed_word_left ts;
     upgrade_last res (val + sum_list_Z (nb_false <$> slice_to cut ts), seen)).
Proof. reflexivity. Qed.

Lemma nb_false_Node ts cut val seen :
  nb_false (Node ts (cut, (val, seen))) = 1 - Z.b2z seen + sum_list_Z (nb_false <$> ts).
Proof. reflexivity. Qed.

Lemma irreducible_last_not_one m P l :
  Packed m (P ++ [l]) → P ≠ [] → irreducible (P ++ [l]) → l ∉ P → 2 ≤ l.
Proof.
  intros HP HPne Hirr Hl.
  assert (1 ≤ l ≤ m) by (apply (Packed_bounds m (P ++ [l])); [done|]; apply elem_of_app; right; left).
  destruct (decide (l = 1)) as [->|]; [|lia]. exfalso.
  apply (Hirr (length P)).
  - rewrite length_app. simpl. destruct P; [done|]. simpl. lia.
  - apply cuts_length_app. intros a c Ha ->%list_elem_of_singleton.
    assert (1 ≤ a ≤ m) by (apply (Packed_bounds m (P ++ [1])); [done|]; apply elem_of_app; by left).
    assert (a ≠ 1) by (by intros ->). lia.
Qed.

Lemma tree_left_roundtrip fuel : ∀ w m,
  Packed m w → w ≠ [] → irreducible w → (length w ≤ fuel)%nat →
  ∃ t, packed_word_to_labelled_tree_left_fuel fuel w = Ok t ∧
       labelled_tree_to_packed_word_left t = Ok w ∧
       nb_false t = m.
Proof.
  induction fuel as [|fuel IH]; intros w m HP Hw Hirr Hlen.
  { destruct w; [done|simpl in Hlen; lia]. }
  rewrite encode_left_S.
  destruct (decide (length w = 1%nat)) as [H1|H1].
  { destruct w as [|x [|? ?]]; try done.
    assert (x = 1 ∧ m = 1) as [-> ->].
    { pose proof (Packed_nonempty _ _ HP Hw). destruct HP as [_ HPk].
      assert (m ∈ [x]) as ->%list_elem_of_singleton by (apply HPk; lia).
      assert (1 ∈ [x]) as ->%list_elem_of_singleton by (apply HPk; lia). done. }
    eexists. split; [done|]. split; [by vm_compute|done]. }
  destruct (last w) as [l|] eqn:Hlast; [|by apply last_None in Hlast].
  apply last_Some in Hlast as [P ->].
  rewrite py_last_snoc, bind_Ok. cbv zeta. rewrite slice_to_m1_snoc.
  assert (P ≠ []) as HPne by (intros ->; done).
  pose proof (Packed_prefix m l P HP) as HP'.
  pose proof (upgrade_last_prefix m l P HP) as Hul.
  rewrite (pack_prefix m l P HP), bind_Ok.
  assert (close_gap (bool_decide (l ∈ P)) l <$> P ≠ []) as HP'ne by (by destruct P).
  destruct (gdf_Factorization _ _ HP' HP'ne) as (Fs & -> & HFact). rewrite bind_Ok.
  destruct (Factorization_head _ _ HFact)
    as (F0 & Fs' & w'' & mF & -> & HF0 & HF0ne & Hsplit & Hw'' & Ht & Hnil).
  (* the children *)
  assert (length (close_gap (bool_decide (l ∈ P)) l <$> P) < length (P ++ [l]))%nat as Hshorter.
  { rewrite length_fmap, length_app. simpl. lia. }
  assert (Forall (λ F, ∃ t, packed_word_to_labelled_tree_left_fuel fuel F = Ok t ∧
                            labelled_tree_to_packed_word_left t = Ok F) (F0 :: Fs')) as Hall.
  { eapply Forall_impl; [apply (Factorization_Forall _ _ HFact)|].
    intros F (HPF & HF & HiF & HlF). simpl in HlF.
    destruct (IH F _ HPF HF HiF ltac:(lia)) as (t & ? & ? & ?). eauto. }
  destruct (forest_decode_Factorization true _ _ _ _ HFact Hall)
    as (ts & Hts & Hts2 & Hdec).
  unfold reorder in Hts, Hts2.
  assert (nb_false <$> ts = pw_max <$> reverse (F0 :: Fs')) as Hnb.
  { pose proof (Factorization_Forall _ _ HFact) as HFF.
    apply Forall_reverse in HFF.
    clear -Hts2 IH HFF Hshorter Hlen.
    induction Hts2 as [|F t Fs ts [Henc _] _ IHl]; [done|].
    apply Forall_cons in HFF as [(HPF & HF & HiF & HlF) HFF].
    destruct (IH F _ HPF HF HiF ltac:(lia)) as (t' & Henc' & _ & Hw').
    rewrite !fmap_cons. f_equal; [congruence|by apply IHl]. }
  assert (sum_list_Z (nb_false <$> ts) = m - (1 - Z.b2z (bool_decide (l ∈ P)))) as Hsum_all.
  { rewrite Hnb, fmap_reverse, sum_list_Z_reverse.
    rewrite <- (Factorization_pw_max _ _ HFact). by apply Packed_pw_max. }
  assert (sum_list_Z (nb_false <$> take (length Fs') ts) = pw_max w'') as Hsum_cut.
  { rewrite fmap_take, Hnb, reverse_cons, fmap_app, fmap_reverse.
    rewrite take_app_length' by (by rewrite length_reverse, length_fmap).
    by rewrite sum_list_Z_reverse. }
  rewrite Hts.
  (* the first block *)
  pose proof (first_block_index _ _ _ _ _ Hsplit Hw'') as Hidx.
  pose proof (first_block_above _ _ _ _ _ _ Hsplit HF0) as Habove.
  pose proof (last_above_first_block _ _ _ _ _ _ Hsplit HF0 Hw'' Hirr HF0ne) as Hlastab.
  assert (0 ≤ pw_max w'') as Ht0 by (by destruct Hw'').
  assert (1 ≤ l ≤ m) as Hlm
    by (apply (Packed_bounds m (P ++ [l])); [done|]; apply elem_of_app; right; left).
  assert (slice_to (len (F0 :: Fs') - 1) ts = take (length Fs') ts) as Hslice.
  { rewrite len_cons. replace (1 + len Fs' - 1) with (Z.of_nat (length Fs')) by (unfold len; lia).
    apply slice_to_nat. }
  assert (slice_to (len (F0 :: Fs')) ts = ts) as Hslice_all.
  { pose proof (Forall2_length _ _ _ Hts2) as Hlts. rewrite length_reverse in Hlts.
    unfold len. rewrite slice_to_nat. apply take_ge. lia. }
  rewrite py_get_head.
  destruct (decide (l ∈ P)) as [Hl|Hl].
  - (* the last letter already occurs in the prefix *)
    rewrite (bool_decide_eq_true_2 _ Hl) in *. simpl in Hsum_all.
    rewrite ?bind_Ok. change (Z.b2z true) with 1.
    assert (pw_max w'' < l) as Hlt.
    { destruct (decide (w'' = [])) as [->|Hne]; [simpl; lia|].
      destruct (Hlastab Hne) as (a & Ha & Hal). specialize (Habove a Ha). simpl in Habove. lia. }
    destruct (Hidx l Hl Hlt) as (i & -> & _ & Hi). rewrite bind_Ok.
    rewrite (py_get_Some _ _ _ Hi), ?bind_Ok.
    eexists. split; [done|]. split.
    + rewrite decode_left_Node, Hdec, bind_Ok, Hslice, Hsum_cut.
      simpl close_gap. replace (l - pw_max w'' + pw_max w'') with l by lia. exact Hul.
    + rewrite nb_false_Node, Hsum_all. simpl. lia.
  - (* the last letter is new *)
    rewrite (bool_decide_eq_false_2 _ Hl) in *. simpl in Hsum_all.
    rewrite (Packed_py_max m) by done. rewrite ?bind_Ok.
    destruct (decide (l = m)) as [->|Hlm'].
    + rewrite bool_decide_eq_false_2 by (by intros ?). rewrite ?bind_Ok.
      change (Z.b2z false) with 0. rewrite Z.sub_0_r.
      eexists. split; [done|]. split.
      * rewrite decode_left_Node, Hdec, bind_Ok, Hslice_all, Hsum_all.
        replace (1 + (m - (1 - 0))) with m by lia. exact Hul.
      * rewrite nb_false_Node, Hsum_all. simpl. lia.
    + rewrite bool_decide_eq_true_2 by done. rewrite ?bind_Ok. change (Z.b2z true) with 1.
      pose proof (irreducible_last_not_one m P l HP HPne Hirr Hl) as Hl2.
      assert (l - 1 ∈ P) as Hl1.
      { destruct HP as [_ HPk].
        assert (l - 1 ∈ P ++ [l]) as [?|Hin]%elem_of_app by (apply HPk; lia); [done|].
        apply list_elem_of_singleton in Hin. lia. }
      assert (close_gap false l (l - 1) = l - 1) as Hcg
        by (unfold close_gap; rewrite decide_True by lia; done).
      assert (pw_max w'' < l - 1) as Hlt.
      { destruct (decide (w'' = [])) as [->|Hne]; [simpl; lia|].
        destruct (Hlastab Hne) as (a & Ha & Hal). specialize (Habove a Ha).
        assert (a ≠ l) by (intros ->; by apply Hl, (in_take _ (length F0))).
        unfold close_gap in Habove. rewrite decide_True in Habove by lia. lia. }
      destruct (Hidx (l - 1) Hl1 ltac:(by rewrite Hcg)) as (i & _ & -> & Hi). rewrite bind_Ok.
      rewrite (py_get_Some _ _ _ Hi), ?bind_Ok. rewrite Hcg.
      eexists. split; [done|]. split.
      * rewrite decode_left_Node, Hdec, bind_Ok, Hslice, Hsum_cut.
        replace (l - 1 - pw_max w'' + 1 + pw_max w'') with l by lia. exact Hul.
      * rewrite nb_false_Node, Hsum_all. simpl. lia.
Qed.

(** C2: for every valid packed word [w], the left-variant encoder returns
    a forest, and decoding that forest returns [w]; this covers every packed
    word of size 5. *)
Theorem left_codec_roundtrip (w : list Z) :
  check w = Ok () →
  ∃ f, packed_word_to_labelled_forest_left w = Ok f ∧
       labelled_forest_to_packed_word_left f = Ok w.
Proof.
  intros [m HP]%check_Packed.
  unfold packed_word_to_labelled_forest_left, labelled_forest_to_packed_word_left, forest_with.
  destruct (decide (w = [])) as [->|Hw].
  { exists []. split; [done|]. simpl. by apply (PackedWord_Packed 0), Packed_nil. }
  destruct (gdf_Factorization w m HP Hw) as (Fs & -> & HFact). rewrite bind_Ok.
  assert (Forall (λ F, ∃ t, packed_word_to_labelled_tree_left_fuel (length w) F = Ok t ∧
                            labelled_tree_to_packed_word_left t = Ok F) Fs) as Hall.
  { eapply Forall_impl; [apply (Factorization_Forall _ _ HFact)|].
    intros F (HPF & HF & HiF & HlF). simpl in *.
    destruct (tree_left_roundtrip (length w) F _ HPF HF HiF HlF) as (t & ? & ? & ?). eauto. }
  destruct (forest_decode_Factorization true _ _ _ _ HFact Hall) as (ts & Hts & _ & Hdec).
  exists ts. by split.
Qed.

(** A packed word of size 5 round-trips through the left codec. *)
Lemma left_codec_roundtrip_witness :
  check [2; 1; 3; 1; 2] = Ok () ∧
  ∃ f, packed_word_to_labelled_forest_left [2; 1; 3; 1; 2] = Ok f ∧
       labelled_forest_to_packed_word_left f = Ok [2; 1; 3; 1; 2].
Proof.
  split; [by vm_compute|].
  apply (left_codec_roundtrip [2; 1; 3; 1; 2]). by vm_compute.
Defined.

(** ** The cut of the left-variant tree encoder *)

Lemma no_global_descents_irreducible m w :
  Packed m w → global_descents false false w = [] ↔ irreducible w.
Proof.
  intros HP. unfold global_descents.
  rewrite global_descents_pos_spec by (by eapply Packed_pos).
  rewrite app_nil_r, irreducible_no_descent. split.
  - intros Hnil. apply fmap_nil_inv in Hnil. by rewrite Hnil.
  - intros Hnil. by rewrite Hnil.
Qed.

(** C5 (as the code has it): for a valid packed word [P ++ [l]] of length
    at least 2, with [factors] the global-descent factorization of the
    re-packed prefix [P] and [b] the flag "[l] occurs in [P]", whenever the
    left-variant tree encoder returns a tree its cut is [len(factors) - 1],
    except when [b] is false and [l] is the maximum of the whole word, in
    which case the cut is [len(factors)]; and the encoder does return a
    tree on every such word without global descents. *)
Theorem left_tree_cut (P : list Z) (l : Z) :
  check (P ++ [l]) = Ok () → P ≠ [] →
  (∀ t, packed_word_to_labelled_tree_left (P ++ [l]) = Ok t →
     ∃ P' factors,
       pack P = Ok P' ∧ global_descents_factorization P' = Ok factors ∧
       (label t).1 = (if decide ((l ∉ P) ∧ l = pw_max (P ++ [l]))
                      then len factors else len factors - 1)) ∧
  (global_descents false false (P ++ [l]) = [] →
     ∃ t, packed_word_to_labelled_tree_left (P ++ [l]) = Ok t).
Proof.
  intros [m HP]%check_Packed HPne. split.
  - intros t. unfold packed_word_to_labelled_tree_left.
    assert (length (P ++ [l]) = S (length P)) as -> by (rewrite length_app; simpl; lia).
    rewrite encode_left_S.
    assert (length P ≠ 0%nat) by (by destruct P).
    rewrite decide_False by (rewrite length_app; simpl; lia).
    rewrite py_last_snoc, bind_Ok. cbv zeta. rewrite slice_to_m1_snoc.
    intros (P' & HP' & Ht)%bind_Ok_inv. apply bind_Ok_inv in Ht as (factors & Hf & Ht).
    exists P', factors. split; [done|]. split; [done|].
    apply bind_Ok_inv in Ht as (c & Hc & Ht). apply bind_Ok_inv in Ht as (lbl & _ & Ht).
    apply bind_Ok_inv in Ht as (ch & _ & [= <-]). simpl.
    assert (P ++ [l] ≠ []) as Hne by (by destruct P).
    rewrite (Packed_py_max m _ HP Hne) in Hc. rewrite (Packed_pw_max m) by done.
    destruct (decide (l ∈ P)) as [Hl|Hl].
    + rewrite bool_decide_eq_true_2 in Hc by done. injection Hc as <-.
      rewrite decide_False by tauto. done.
    + rewrite bool_decide_eq_false_2 in Hc by done. simpl in Hc. injection Hc as <-.
      destruct (decide (l = m)) as [->|Hlm].
      * rewrite bool_decide_eq_false_2 by (by intros ?). rewrite decide_True by done.
        simpl. lia.
      * rewrite bool_decide_eq_true_2 by done. rewrite decide_False by tauto. done.
  - intros Hirr%(no_global_descents_irreducible m); [|done].
    destruct (tree_left_roundtrip (length (P ++ [l])) (P ++ [l]) m HP ltac:(by destruct P) Hirr
                ltac:(done)) as (t & Ht & _).
    by exists t.
Qed.

(** The theorem run on [[1,3,4,2]], a word without global descents. *)
Lemma left_tree_cut_witness :
  check ([1; 3; 4] ++ [2]) = Ok () ∧ [1; 3; 4] ≠ [] ∧
  global_descents false false ([1; 3; 4] ++ [2]) = [] ∧
  ∃ t, packed_word_to_labelled_tree_left ([1; 3; 4] ++ [2]) = Ok t.
Proof.
  split; [by vm_compute|]. split; [done|]. split; [by vm_compute|].
  apply (left_tree_cut [1; 3; 4] 2); [by vm_compute|done|by vm_compute].
Defined.

(** C5, the claim as stated fails on [[1,3,4,2]]: the last letter [2] does
    not occur in the prefix and is not the maximum of the prefix (neither of
    [[1,3,4]] nor of its re-packing [[1,2,3]], nor of the whole word), so the
    claim gives the cut [len(factors) = 1]; the encoder produces the cut [0]. *)
Lemma left_tree_cut_not_as_stated :
  check [1; 3; 4; 2] = Ok () ∧
  (2 ∉ [1; 3; 4]) ∧ 2 ≠ pw_max [1; 3; 4] ∧ 2 ≠ pw_max [1; 2; 3] ∧ 2 ≠ pw_max [1; 3; 4; 2] ∧
  pack [1; 3; 4] = Ok [1; 2; 3] ∧
  global_descents_factorization [1; 2; 3] = Ok [[1; 2; 3]] ∧
  ∃ t, packed_word_to_labelled_tree_left [1; 3; 4; 2] = Ok t ∧
       (label t).1 = 0 ∧ (label t).1 ≠ len [[1; 2; 3]].
Proof.
  split_and!; try by vm_compute.
  - intros Hin. repeat (apply elem_of_cons in Hin as [?|Hin]; [done|]).
    by apply elem_of_nil in Hin.
  - eexists. split; [by vm_compute|]. split; by vm_compute.
Qed.

(** ** Counting through an injective relabelling of the inversions *)

Lemma size_set_map_inj (f : Z * Z → Z * Z) `{!Inj (=) (=) f} (X : gset (Z * Z)) :
  size (set_map f X : gset (Z * Z)) = size X.
Proof.
  unfold set_map. rewrite size_list_to_set.
  - by rewrite length_fmap.
  - apply NoDup_fmap_2; [done|]. apply NoDup_elements.
Qed.

Lemma size_one_more (f : Z * Z → Z * Z) `{!Inj (=) (=) f} (X Y : gset (Z * Z)) p :
  (∀ q, q ∈ Y ↔ q = p ∨ ∃ q', q' ∈ X ∧ q = f q') →
  (∀ q', q' ∈ X → f q' ≠ p) →
  size Y = S (size X).
Proof.
  intros HY Hp.
  assert (Y = {[p]} ∪ set_map f X) as ->.
  { apply set_eq. intros q. rewrite HY, elem_of_union, elem_of_singleton, elem_of_map.
    split; (intros [?|(q' & ? & ?)]; [by left|right; by exists q']). }
  rewrite size_union.
  - by rewrite size_singleton, size_set_map_inj.
  - apply disjoint_singleton_l. rewrite elem_of_map. intros (q' & Heq & Hq'). by eapply Hp.
Qed.


Lemma transpose_involutive a b x : transpose a b (transpose a b x) = x.
Proof. unfold transpose. repeat case_decide; lia. Qed.

Global Instance prod_map_transpose_inj a b :
  Inj (=) (=) (prod_map (transpose a b) (transpose a b)).
Proof.
  intros [p q] [p' q'] [= H1 H2].
  apply (f_equal (transpose a b)) in H1, H2. rewrite !transpose_involutive in H1, H2.
  by subst.
Qed.

(** ** The right weak order *)

Lemma lookup_total_Some (w : list Z) i x : w !! i = Some x → w !!! i = x.
Proof. apply list_lookup_total_correct. Qed.

Lemma swap_adjacent_split w i x y :
  w !! i = Some x → w !! S i = Some y →
  w = take i w ++ [x; y] ++ drop (i + 2) w ∧
  swap_adjacent w i = take i w ++ [y; x] ++ drop (i + 2) w.
Proof.
  intros Hx Hy. split.
  - replace (i + 2)%nat with (S (S i)) by lia.
    rewrite <- (take_drop i w) at 1. f_equal.
    rewrite (drop_S _ _ _ Hx). f_equal. by rewrite (drop_S _ _ _ Hy).
  - unfold swap_adjacent. by rewrite (lookup_total_Some _ _ _ Hx), (lookup_total_Some _ _ _ Hy).
Qed.

Lemma elem_of_right_succ w v :
  v ∈ right_weak_order_succ w ↔
  ∃ i x y, w !! i = Some x ∧ w !! S i = Some y ∧ x < y ∧ v = swap_adjacent w i.
Proof.
  unfold right_weak_order_succ. rewrite list_elem_of_bind. split.
  - intros (i & Hv & Hi%elem_of_seq).
    assert (is_Some (w !! i)) as [x Hx] by (apply lookup_lt_is_Some; lia).
    assert (is_Some (w !! S i)) as [y Hy] by (apply lookup_lt_is_Some; lia).
    rewrite (lookup_total_Some _ _ _ Hx), (lookup_total_Some _ _ _ Hy) in Hv.
    case_decide; [|by apply elem_of_nil in Hv].
    apply list_elem_of_singleton in Hv. eauto 10.
  - intros (i & x & y & Hx & Hy & Hlt & ->). exists i.
    rewrite (lookup_total_Some _ _ _ Hx), (lookup_total_Some _ _ _ Hy).
    rewrite decide_True by done. split; [left|].
    apply elem_of_seq. apply lookup_lt_Some in Hy. lia.
Qed.

Lemma elem_of_right_pred w v :
  v ∈ right_weak_order_pred w ↔
  ∃ i x y, w !! i = Some x ∧ w !! S i = Some y ∧ x > y ∧ v = swap_adjacent w i.
Proof.
  unfold right_weak_order_pred. rewrite list_elem_of_bind. split.
  - intros (i & Hv & Hi%elem_of_seq).
    assert (is_Some (w !! i)) as [x Hx] by (apply lookup_lt_is_Some; lia).
    assert (is_Some (w !! S i)) as [y Hy] by (apply lookup_lt_is_Some; lia).
    rewrite (lookup_total_Some _ _ _ Hx), (lookup_total_Some _ _ _ Hy) in Hv.
    case_decide; [|by apply elem_of_nil in Hv].
    apply list_elem_of_singleton in Hv. eauto 10.
  - intros (i & x & y & Hx & Hy & Hlt & ->). exists i.
    rewrite (lookup_total_Some _ _ _ Hx), (lookup_total_Some _ _ _ Hy).
    rewrite decide_True by done. split; [left|].
    apply elem_of_seq. apply lookup_lt_Some in Hy. lia.
Qed.

Lemma swap_adjacent_Permutation w i x y :
  w !! i = Some x → w !! S i = Some y → swap_adjacent w i ≡ₚ w.
Proof.
  intros Hx Hy. destruct (swap_adjacent_split w i x y Hx Hy) as [Hw ->].
  rewrite Hw at 3. apply Permutation_app_head. simpl. apply perm_swap.
Qed.

Lemma length_swap_adjacent w i x y :
  w !! i = Some x → w !! S i = Some y → length (swap_adjacent w i) = length w.
Proof. intros Hx Hy. by rewrite (swap_adjacent_Permutation w i x y). Qed.

Lemma transpose_nat_involutive i a : transpose_nat i (transpose_nat i a) = a.
Proof. unfold transpose_nat. repeat case_decide; lia. Qed.

(** Position [a] of the swapped word reads position [transpose_nat i a]
    of the original. *)
Lemma lookup_swap_adjacent w i x y a :
  w !! i = Some x → w !! S i = Some y →
  swap_adjacent w i !! a = w !! transpose_nat i a.
Proof.
  intros Hx Hy. destruct (swap_adjacent_split w i x y Hx Hy) as [Hw ->].
  pose proof (lookup_lt_Some _ _ _ Hy) as Hlen.
  unfold transpose_nat.
  destruct (decide (a < i)%nat).
  - rewrite lookup_app_l by (rewrite length_take; lia).
    rewrite lookup_take_lt by lia. repeat case_decide; try lia. done.
  - rewrite lookup_app_r by (rewrite length_take; lia).
    rewrite length_take. replace (i `min` length w)%nat with i by lia.
    destruct (decide (a = i)) as [->|].
    { replace (i - i)%nat with 0%nat by lia. done. }
    destruct (decide (a = S i)) as [->|].
    { replace (S i - i)%nat with 1%nat by lia. done. }
    destruct (a - i)%nat as [|[|k]] eqn:Hk; try lia. simpl.
    rewrite lookup_drop. f_equal. lia.
Qed.

Lemma swap_adjacent_involutive w i x y :
  w !! i = Some x → w !! S i = Some y →
  swap_adjacent (swap_adjacent w i) i = w.
Proof.
  intros Hx Hy. apply list_eq. intros a.
  assert (swap_adjacent w i !! i = Some y) as Hx'.
  { rewrite (lookup_swap_adjacent w i x y) by done. unfold transpose_nat.
    by rewrite decide_True. }
  assert (swap_adjacent w i !! S i = Some x) as Hy'.
  { rewrite (lookup_swap_adjacent w i x y) by done. unfold transpose_nat.
    rewrite decide_False by lia. by rewrite decide_True. }
  rewrite (lookup_swap_adjacent _ i y x) by done.
  rewrite (lookup_swap_adjacent w i x y) by done.
  by rewrite transpose_nat_involutive.
Qed.

(** The right inversions on positions, by membership. *)
Lemma inversions_right_spec fz w :
  ∃ I, inversions Right None fz w = Ok I ∧
       ∀ p q, (p, q) ∈ I ↔
              ∃ (a b : nat) x y,
                p = Z.of_nat a + 1 - Z.b2z fz ∧ q = Z.of_nat b + 1 - Z.b2z fz ∧
                (a < b)%nat ∧ w !! a = Some x ∧ w !! b = Some y ∧ x > y.
Proof.
  unfold inversions. destruct (decide (w = [])) as [->|Hw].
  { exists ∅. split; [done|]. intros p q. split; [by intros ?%not_elem_of_empty|].
    by intros (a & b & x & y & _ & _ & _ & Ha & _). }
  eexists. split; [done|]. intros p q.
  rewrite elem_of_list_to_set, list_elem_of_bind. split.
  - intros (a & Hin & Ha%elem_of_seq).
    apply list_elem_of_bind in Hin as (b & Hin & Hb%elem_of_seq).
    assert (is_Some (w !! a)) as [x Hx] by (apply lookup_lt_is_Some; lia).
    assert (is_Some (w !! b)) as [y Hy] by (apply lookup_lt_is_Some; lia).
    rewrite (lookup_total_Some _ _ _ Hx), (lookup_total_Some _ _ _ Hy) in Hin.
    case_decide; [|by apply elem_of_nil in Hin].
    apply list_elem_of_singleton in Hin as [= -> ->].
    exists a, b, x, y. split_and!; try done. lia.
  - intros (a & b & x & y & -> & -> & Hab & Hx & Hy & Hxy).
    pose proof (lookup_lt_Some _ _ _ Hx). pose proof (lookup_lt_Some _ _ _ Hy).
    exists a. split; [|apply elem_of_seq; lia].
    apply list_elem_of_bind. exists b. split; [|apply elem_of_seq; lia].
    rewrite (lookup_total_Some _ _ _ Hx), (lookup_total_Some _ _ _ Hy).
    rewrite decide_True by done. left.
Qed.

Lemma transpose_of_nat i a :
  transpose (Z.of_nat i + 1) (Z.of_nat i + 2) (Z.of_nat a + 1)
  = Z.of_nat (transpose_nat i a) + 1.
Proof. unfold transpose, transpose_nat. repeat case_decide; lia. Qed.

Lemma right_step_size w v i x y Iw Iv :
  w !! i = Some x → w !! S i = Some y → x < y → v = swap_adjacent w i →
  inversions Right None false w = Ok Iw →
  inversions Right None false v = Ok Iv →
  size Iv = S (size Iw).
Proof.
  intros Hx Hy Hxy -> HIw HIv.
  destruct (inversions_right_spec false w) as (Iw' & Hw' & Hmw).
  destruct (inversions_right_spec false (swap_adjacent w i)) as (Iv' & Hv' & Hmv).
  assert (Iw' = Iw) as -> by congruence. assert (Iv' = Iv) as -> by congruence.
  simpl in Hmw, Hmv.
  set (τ := prod_map (transpose (Z.of_nat i + 1) (Z.of_nat i + 2))
                     (transpose (Z.of_nat i + 1) (Z.of_nat i + 2))).
  apply (size_one_more τ _ _ (Z.of_nat i + 1, Z.of_nat i + 2)).
  - intros [p q]. rewrite Hmv. split.
    + intros (a & b & x' & y' & -> & -> & Hab & Hx' & Hy' & Hgt).
      rewrite (lookup_swap_adjacent w i x y) in Hx', Hy' by done.
      destruct (decide (a = i ∧ b = S i)) as [[-> ->]|Hne].
      { left. f_equal; lia. }
      right. exists (Z.of_nat (transpose_nat i a) + 1, Z.of_nat (transpose_nat i b) + 1).
      split.
      * apply Hmw. exists (transpose_nat i a), (transpose_nat i b), x', y'.
        split_and!; try done; try lia.
        unfold transpose_nat. repeat case_decide; lia.
      * unfold τ. simpl. rewrite <- !transpose_of_nat, !transpose_involutive.
        f_equal; lia.
    + intros [[= -> ->]|([p' q'] & Hin & [= -> ->])].
      * exists i, (S i), y, x. rewrite !(lookup_swap_adjacent w i x y) by done.
        unfold transpose_nat. rewrite !decide_True by done.
        rewrite decide_False by lia. rewrite decide_True by done.
        split_and!; try done; lia.
      * apply Hmw in Hin as (a & b & x' & y' & -> & -> & Hab & Hx' & Hy' & Hgt).
        exists (transpose_nat i a), (transpose_nat i b), x', y'.
        rewrite !(lookup_swap_adjacent w i x y) by done.
        rewrite !transpose_nat_involutive.
        assert (¬ (a = i ∧ b = S i)) by (intros [-> ->]; simplify_eq; lia).
        split_and!; try done.
        -- replace (Z.of_nat a + 1 - 0) with (Z.of_nat a + 1) by lia.
           rewrite transpose_of_nat. lia.
        -- replace (Z.of_nat b + 1 - 0) with (Z.of_nat b + 1) by lia.
           rewrite transpose_of_nat. lia.
        -- unfold transpose_nat. repeat case_decide; lia.
  - intros [p' q'] Hin. apply Hmw in Hin as (a & b & x' & y' & -> & -> & Hab & _).
    unfold τ. simpl. intros [= H1 H2].
    unfold transpose in H1, H2. repeat case_decide; lia.
Qed.

(** ** The left weak order *)

Lemma py_index_first l x a b :
  py_index l x = Ok a → l !! b = Some x → (a ≤ b)%nat.
Proof.
  intros [_ Hlt]%py_index_Ok Hb. destruct (decide (a ≤ b)%nat); [done|].
  exfalso. apply (Hlt b x); [lia|done|done].
Qed.

(** [self.index(i) > n - rev.index(j) - 1]: the first [i] comes after the
    last [j]. *)
Lemma index_before w i j a r :
  py_index w i = Ok a → py_index (reverse w) j = Ok r →
  Z.of_nat a > Z.of_nat (length w) - Z.of_nat r - 1 ↔ before w j i.
Proof.
  intros Ha Hr.
  pose proof (py_index_lt _ _ _ Ha) as Hla. pose proof (py_index_lt _ _ _ Hr) as Hlr.
  rewrite length_reverse in Hlr.
  pose proof Ha as [Hwa _]%py_index_Ok. pose proof Hr as [Hwr _]%py_index_Ok.
  rewrite reverse_lookup in Hwr by done.
  split.
  - intros Hgt c b Hc Hb.
    pose proof (py_index_first _ _ _ _ Ha Hb).
    pose proof (lookup_lt_Some _ _ _ Hc) as Hlc.
    assert (reverse w !! (length w - S c)%nat = Some j) as Hrc.
    { rewrite reverse_lookup by lia. rewrite <- Hc. f_equal. lia. }
    pose proof (py_index_first _ _ _ _ Hr Hrc). lia.
  - intros Hbef. specialize (Hbef _ _ Hwr Hwa). lia.
Qed.

Lemma Packed_index m w k : Packed m w → 1 ≤ k ≤ m → ∃ a, py_index w k = Ok a.
Proof. intros [_ HP] Hk. apply py_index_elem, HP, Hk. Qed.

Lemma Packed_index_reverse m w k :
  Packed m w → 1 ≤ k ≤ m → ∃ r, py_index (reverse w) k = Ok r.
Proof. intros [_ HP] Hk. apply py_index_elem. rewrite elem_of_reverse. apply HP, Hk. Qed.

Lemma elem_of_concat_fmap {A B} (f : A → list B) l y :
  y ∈ concat (f <$> l) ↔ ∃ x, x ∈ l ∧ y ∈ f x.
Proof.
  induction l as [|x l IH]; simpl.
  - split; [by intros ?%elem_of_nil|]. by intros (x & ?%elem_of_nil & _).
  - rewrite elem_of_app, IH. split.
    + intros [?|(z & ? & ?)]; [exists x; split; [left|done]|exists z; split; [by right|done]].
    + intros (z & [->|?]%elem_of_cons & ?); [by left|right; by exists z].
Qed.

Lemma elem_of_concat {B} (ls : list (list B)) y :
  y ∈ concat ls ↔ ∃ l, l ∈ ls ∧ y ∈ l.
Proof.
  rewrite <- (list_fmap_id ls) at 1. rewrite elem_of_concat_fmap. done.
Qed.

Lemma elem_of_concat_concat {A B C} (h : A → B → list C) (L : list A) (R : A → list B) y :
  y ∈ concat (concat ((λ i, h i <$> R i) <$> L)) ↔ ∃ i j, i ∈ L ∧ j ∈ R i ∧ y ∈ h i j.
Proof.
  rewrite elem_of_concat. setoid_rewrite elem_of_concat_fmap.
  setoid_rewrite list_elem_of_fmap. split.
  - intros (l & (i & Hi & j & -> & Hj) & Hy). eauto.
  - intros (i & j & Hi & Hj & Hy). eauto 10.
Qed.

Lemma elem_of_py_range a b k : k ∈ py_range a b ↔ a ≤ k < b.
Proof. unfold py_range. rewrite elem_of_seqZ. lia. Qed.

(** The left inversions on values, by membership. *)
Lemma inversions_left_spec fz m w :
  Packed m w →
  ∃ I, inversions Left None fz w = Ok I ∧
       ∀ p q, (p, q) ∈ I ↔ (1 ≤ q < p ∧ p ≤ m) ∧ before w p q.
Proof.
  intros HP. unfold inversions. destruct (decide (w = [])) as [->|Hw].
  { apply Packed_nil_inv in HP as ->. exists ∅. split; [done|].
    intros p q. split; [by intros ?%not_elem_of_empty|]. intros [? _]. lia. }
  rewrite (Packed_pw_max m) by done.
  set (g := λ i j : Z,
         match py_index w i, py_index (reverse w) j with
         | Ok a, Ok r =>
             if decide (Z.of_nat a > Z.of_nat (length w) - Z.of_nat r - 1)
             then [(j, i)] else []
         | _, _ => []
         end).
  rewrite (mapM_result_ext_ok _ (λ i, g i <$> py_range (i + 1) (m + 1))).
  2:{ intros i Hi%elem_of_py_range. apply mapM_result_ext_ok.
      intros j Hj%elem_of_py_range. unfold g.
      destruct (Packed_index m w i HP ltac:(lia)) as [a ->].
      destruct (Packed_index_reverse m w j HP ltac:(lia)) as [r ->]. simpl.
      by case_decide. }
  rewrite bind_Ok. eexists. split; [done|]. intros p q.
  rewrite elem_of_list_to_set, elem_of_concat_concat.
  setoid_rewrite elem_of_py_range.
  split.
  - intros (i & j & Hi & Hj & Hin). unfold g in Hin.
    destruct (Packed_index m w i HP ltac:(lia)) as [a Ha].
    destruct (Packed_index_reverse m w j HP ltac:(lia)) as [r Hr].
    rewrite Ha, Hr in Hin. case_decide as Hc; [|by apply elem_of_nil in Hin].
    apply list_elem_of_singleton in Hin as [= -> ->].
    split; [lia|]. by apply (index_before w i j a r).
  - intros [Hpq Hbef]. exists q, p. split; [lia|]. split; [lia|]. unfold g.
    destruct (Packed_index m w q HP ltac:(lia)) as [a Ha].
    destruct (Packed_index_reverse m w p HP ltac:(lia)) as [r Hr].
    rewrite Ha, Hr. rewrite decide_True by (by apply (index_before w q p a r)). left.
Qed.

Lemma swap_values_transpose k w : swap_values k w = transpose k (k + 1) <$> w.
Proof. reflexivity. Qed.

Lemma lookup_swap_values k w a p :
  swap_values k w !! a = Some p ↔ w !! a = Some (transpose k (k + 1) p).
Proof.
  rewrite swap_values_transpose, list_lookup_fmap. destruct (w !! a) as [x|]; simpl; [|done].
  split; intros [= Heq]; f_equal.
  - by rewrite <- Heq, transpose_involutive.
  - by rewrite Heq, transpose_involutive.
Qed.

Lemma before_swap_values k w p q :
  before (swap_values k w) p q ↔ before w (transpose k (k + 1) p) (transpose k (k + 1) q).
Proof.
  unfold before. split.
  - intros H a b Ha Hb. apply H; by apply lookup_swap_values.
  - intros H a b Ha%lookup_swap_values Hb%lookup_swap_values. by apply H.
Qed.

Lemma swap_values_involutive k w : swap_values k (swap_values k w) = w.
Proof.
  rewrite !swap_values_transpose, <- list_fmap_compose.
  rewrite <- (list_fmap_id w) at 2. apply list_fmap_ext.
  intros; simpl; apply transpose_involutive.
Qed.

Lemma elem_of_swap_values k w x :
  x ∈ swap_values k w ↔ transpose k (k + 1) x ∈ w.
Proof.
  rewrite swap_values_transpose, list_elem_of_fmap. split.
  - intros (y & -> & Hy). by rewrite transpose_involutive.
  - intros Hx. eexists. split; [|done]. by rewrite transpose_involutive.
Qed.

Lemma Packed_swap_values m k w :
  Packed m w → 1 ≤ k < m → Packed m (swap_values k w).
Proof.
  intros [Hm HP] Hk. split; [done|]. intros x.
  rewrite elem_of_swap_values, HP. unfold transpose. repeat case_decide; lia.
Qed.

Lemma before_asym m w p q :
  Packed m w → 1 ≤ p ≤ m → 1 ≤ q ≤ m → before w p q → ¬ before w q p.
Proof.
  intros [_ HP] Hp Hq Hpq Hqp.
  assert (p ∈ w) as [a Ha]%list_elem_of_lookup by (by apply HP).
  assert (q ∈ w) as [b Hb]%list_elem_of_lookup by (by apply HP).
  specialize (Hpq _ _ Ha Hb). specialize (Hqp _ _ Hb Ha). lia.
Qed.

Lemma left_step_size m w k Iw Iv :
  Packed m w → 1 ≤ k < m → before w k (k + 1) →
  inversions Left None false w = Ok Iw →
  inversions Left None false (swap_values k w) = Ok Iv →
  size Iv = S (size Iw).
Proof.
  intros HP Hk Hbef HIw HIv.
  destruct (inversions_left_spec false m w HP) as (Iw' & Hw' & Hmw).
  destruct (inversions_left_spec false m (swap_values k w)
              ltac:(by apply Packed_swap_values)) as (Iv' & Hv' & Hmv).
  assert (Iw' = Iw) as -> by congruence. assert (Iv' = Iv) as -> by congruence.
  set (σ := transpose k (k + 1)).
  apply (size_one_more (prod_map σ σ) _ _ (k + 1, k)).
  - intros [p q]. rewrite Hmv, before_swap_values. fold σ. split.
    + intros [Hpq Hb]. destruct (decide (p = k + 1 ∧ q = k)) as [[-> ->]|Hne].
      { by left. }
      right. exists (σ p, σ q). split.
      * apply Hmw. split; [|done]. unfold σ, transpose. repeat case_decide; lia.
      * unfold σ. simpl. by rewrite !transpose_involutive.
    + intros [[= -> ->]|([p' q'] & Hin & [= -> ->])].
      * split; [lia|]. unfold σ, transpose.
        rewrite decide_False by lia. rewrite !decide_True by done. done.
      * apply Hmw in Hin as [Hpq Hb].
        assert (¬ (p' = k + 1 ∧ q' = k)).
        { intros [-> ->]. by eapply (before_asym m w k (k + 1)); [| | | |exact Hb]; try lia. }
        unfold σ. rewrite !transpose_involutive. split; [|done].
        unfold transpose. repeat case_decide; lia.
  - intros [p' q'] Hin. apply Hmw in Hin as [Hpq _].
    simpl. intros [= H1 H2]. unfold σ, transpose in H1, H2. repeat case_decide; lia.
Qed.

Lemma left_succ_spec m w :
  Packed m w →
  ∃ vs, left_weak_order_succ w = Ok vs ∧
        ∀ v, v ∈ vs ↔ ∃ k, 1 ≤ k < m ∧ before w k (k + 1) ∧ v = swap_values k w.
Proof.
  intros HP. unfold left_weak_order_succ. destruct (decide (w = [])) as [->|Hw].
  { apply Packed_nil_inv in HP as ->. exists []. split; [done|].
    intros v. split; [by intros ?%elem_of_nil|]. intros (k & ? & _). lia. }
  rewrite (Packed_pw_max m) by done.
  set (g := λ i : Z,
         match py_index (reverse w) i, py_index w (i + 1) with
         | Ok r, Ok a =>
             if decide (len w - 1 - Z.of_nat r < Z.of_nat a) then [swap_values i w] else []
         | _, _ => []
         end).
  rewrite (mapM_result_ext_ok _ g).
  2:{ intros i Hi%elem_of_py_range. unfold g.
      destruct (Packed_index_reverse m w i HP ltac:(lia)) as [r ->].
      destruct (Packed_index m w (i + 1) HP ltac:(lia)) as [a ->]. simpl.
      by case_decide. }
  rewrite bind_Ok. eexists. split; [done|]. intros v.
  rewrite elem_of_concat_fmap. setoid_rewrite elem_of_py_range. unfold g. split.
  - intros (k & Hk & Hin).
    destruct (Packed_index_reverse m w k HP ltac:(lia)) as [r Hr].
    destruct (Packed_index m w (k + 1) HP ltac:(lia)) as [a Ha].
    rewrite Hr, Ha in Hin. case_decide as Hc; [|by apply elem_of_nil in Hin].
    apply list_elem_of_singleton in Hin as ->. exists k. split; [done|]. split; [|done].
    apply (index_before w (k + 1) k a r); [done..|]. unfold len in Hc. lia.
  - intros (k & Hk & Hbef & ->). exists k. split; [done|].
    destruct (Packed_index_reverse m w k HP ltac:(lia)) as [r Hr].
    destruct (Packed_index m w (k + 1) HP ltac:(lia)) as [a Ha].
    rewrite Hr, Ha. rewrite decide_True; [left|].
    apply (index_before w (k + 1) k a r) in Hbef; [|done..]. unfold len. lia.
Qed.

Lemma left_pred_spec m w :
  Packed m w →
  ∃ vs, left_weak_order_pred w = Ok vs ∧
        ∀ v, v ∈ vs ↔ ∃ k, 1 ≤ k < m ∧ before w (k + 1) k ∧ v = swap_values k w.
Proof.
  intros HP. unfold left_weak_order_pred. destruct (decide (w = [])) as [->|Hw].
  { apply Packed_nil_inv in HP as ->. exists []. split; [done|].
    intros v. split; [by intros ?%elem_of_nil|]. intros (k & ? & _). lia. }
  rewrite (Packed_pw_max m) by done.
  set (g := λ i : Z,
         match py_index w i, py_index (reverse w) (i + 1) with
         | Ok a, Ok r =>
             if decide (Z.of_nat a > len w - 1 - Z.of_nat r) then [swap_values i w] else []
         | _, _ => []
         end).
  rewrite (mapM_result_ext_ok _ g).
  2:{ intros i Hi%elem_of_py_range. unfold g.
      destruct (Packed_index m w i HP ltac:(lia)) as [a ->].
      destruct (Packed_index_reverse m w (i + 1) HP ltac:(lia)) as [r ->]. simpl.
      by case_decide. }
  rewrite bind_Ok. eexists. split; [done|]. intros v.
  rewrite elem_of_concat_fmap. setoid_rewrite elem_of_py_range. unfold g. split.
  - intros (k & Hk & Hin).
    destruct (Packed_index m w k HP ltac:(lia)) as [a Ha].
    destruct (Packed_index_reverse m w (k + 1) HP ltac:(lia)) as [r Hr].
    rewrite Hr, Ha in Hin. case_decide as Hc; [|by apply elem_of_nil in Hin].
    apply list_elem_of_singleton in Hin as ->. exists k. split; [done|]. split; [|done].
    apply (index_before w k (k + 1) a r); [done..|]. unfold len in Hc. lia.
  - intros (k & Hk & Hbef & ->). exists k. split; [done|].
    destruct (Packed_index m w k HP ltac:(lia)) as [a Ha].
    destruct (Packed_index_reverse m w (k + 1) HP ltac:(lia)) as [r Hr].
    rewrite Hr, Ha. rewrite decide_True; [left|].
    apply (index_before w k (k + 1) a r) in Hbef; [|done..]. unfold len. lia.
Qed.

Lemma inversion_count_right_total w : ∃ n, inversion_count Right w n.
Proof.
  destruct (inversions_right_spec false w) as (I & HI & _). exists (size I), I. done.
Qed.

Lemma inversion_count_left_total m w : Packed m w → ∃ n, inversion_count Left w n.
Proof.
  intros HP. destruct (inversions_left_spec false m w HP) as (I & HI & _).
  exists (size I), I. done.
Qed.

(** C4: on a valid packed word, every successor in the right weak order has
    exactly one more right inversion on positions, every successor in the
    left weak order exactly one more left inversion on values, and every
    predecessor exactly one fewer. *)
Theorem weak_order_grading (w : list Z) :
  check w = Ok () →
  (∀ v, v ∈ right_weak_order_succ w →
     ∃ n, inversion_count Right w n ∧ inversion_count Right v (S n)) ∧
  (∀ v, v ∈ right_weak_order_pred w →
     ∃ n, inversion_count Right v n ∧ inversion_count Right w (S n)) ∧
  (∃ vs, left_weak_order_succ w = Ok vs ∧
     ∀ v, v ∈ vs → ∃ n, inversion_count Left w n ∧ inversion_count Left v (S n)) ∧
  (∃ vs, left_weak_order_pred w = Ok vs ∧
     ∀ v, v ∈ vs → ∃ n, inversion_count Left v n ∧ inversion_count Left w (S n)).
Proof.
  intros [m HP]%check_Packed. split_and!.
  - intros v (i & x & y & Hx & Hy & Hxy & ->)%elem_of_right_succ.
    destruct (inversion_count_right_total w) as (n & Iw & HIw & <-).
    destruct (inversion_count_right_total (swap_adjacent w i)) as (n' & Iv & HIv & <-).
    exists (size Iw). split; [by exists Iw|]. exists Iv. split; [done|].
    by eapply (right_step_size w _ i x y).
  - intros v (i & x & y & Hx & Hy & Hxy & ->)%elem_of_right_pred.
    destruct (inversion_count_right_total w) as (n & Iw & HIw & <-).
    destruct (inversion_count_right_total (swap_adjacent w i)) as (n' & Iv & HIv & <-).
    exists (size Iv). split; [by exists Iv|]. exists Iw. split; [done|].
    eapply (right_step_size (swap_adjacent w i) w i y x); try done.
    + rewrite (lookup_swap_adjacent w i x y) by done. unfold transpose_nat.
      by rewrite decide_True.
    + rewrite (lookup_swap_adjacent w i x y) by done. unfold transpose_nat.
      rewrite decide_False by lia. by rewrite decide_True.
    + lia.
    + symmetry. by eapply swap_adjacent_involutive.
  - destruct (left_succ_spec m w HP) as (vs & Hvs & Hmem). exists vs. split; [done|].
    intros v (k & Hk & Hbef & ->)%Hmem.
    destruct (inversion_count_left_total m w HP) as (n & Iw & HIw & <-).
    destruct (inversion_count_left_total m (swap_values k w)
                ltac:(by apply Packed_swap_values)) as (n' & Iv & HIv & <-).
    exists (size Iw). split; [by exists Iw|]. exists Iv. split; [done|].
    by eapply (left_step_size m w k).
  - destruct (left_pred_spec m w HP) as (vs & Hvs & Hmem). exists vs. split; [done|].
    intros v (k & Hk & Hbef & ->)%Hmem.
    destruct (inversion_count_left_total m w HP) as (n & Iw & HIw & <-).
    destruct (inversion_count_left_total m (swap_values k w)
                ltac:(by apply Packed_swap_values)) as (n' & Iv & HIv & <-).
    exists (size Iv). split; [by exists Iv|]. exists Iw. split; [done|].
    eapply (left_step_size m (swap_values k w) k); try done.
    + by apply Packed_swap_values.
    + apply before_swap_values. unfold transpose.
      rewrite decide_True by done. rewrite decide_False by lia. by rewrite decide_True.
    + by rewrite swap_values_involutive.
Qed.

(** The grading on [[3,1,2]]: its right successor [[3,2,1]] and its left
    successor [[3,2,1]] have one more inversion. *)
Lemma weak_order_grading_witness :
  check [3; 1; 2] = Ok () ∧
  ∃ n, inversion_count Right [3; 1; 2] n ∧ inversion_count Right [3; 2; 1] (S n).
Proof.
  split; [by vm_compute|].
  apply (weak_order_grading [3; 1; 2]); [by vm_compute|].
  vm_compute. left.
Defined.

(** ** The steps of the weak orders stay among the packed words *)

(** C9 (as the code has it): every word returned by the four step functions
    on a valid packed word is a valid packed word of the same size with the
    same set of letters; the steps of the right weak order also keep the
    multiset of letters. *)
Theorem weak_order_steps_valid (w : list Z) :
  check w = Ok () →
  (∀ v, v ∈ right_weak_order_succ w ++ right_weak_order_pred w →
     check v = Ok () ∧ length v = length w ∧ v ≡ₚ w) ∧
  (∃ s p, left_weak_order_succ w = Ok s ∧ left_weak_order_pred w = Ok p ∧
     ∀ v, v ∈ s ++ p →
       check v = Ok () ∧ length v = length w ∧ ∀ x, x ∈ v ↔ x ∈ w).
Proof.
  intros [m HP]%check_Packed. split.
  - assert (∀ i x y, w !! i = Some x → w !! S i = Some y →
              check (swap_adjacent w i) = Ok () ∧
              length (swap_adjacent w i) = length w ∧ swap_adjacent w i ≡ₚ w) as Hswap.
    { intros i x y Hx Hy. pose proof (swap_adjacent_Permutation w i x y Hx Hy) as Hperm.
      split_and!; [|by rewrite Hperm|done].
      apply check_Packed. exists m. destruct HP as [Hm HPk]. split; [done|].
      intros k. by rewrite Hperm. }
    intros v [Hv|Hv]%elem_of_app.
    + apply elem_of_right_succ in Hv as (i & x & y & Hx & Hy & _ & ->). by eapply Hswap.
    + apply elem_of_right_pred in Hv as (i & x & y & Hx & Hy & _ & ->). by eapply Hswap.
  - destruct (left_succ_spec m w HP) as (s & Hs & Hms).
    destruct (left_pred_spec m w HP) as (p & Hp & Hmp).
    exists s, p. split; [done|]. split; [done|].
    assert (∀ k, 1 ≤ k < m →
              check (swap_values k w) = Ok () ∧
              length (swap_values k w) = length w ∧
              ∀ x, x ∈ swap_values k w ↔ x ∈ w) as Hswap.
    { intros k Hk. pose proof (Packed_swap_values m k w HP Hk) as HP'.
      split_and!.
      - apply check_Packed. by exists m.
      - by rewrite swap_values_transpose, length_fmap.
      - intros x. destruct HP as [_ HPk], HP' as [_ HPk']. by rewrite HPk, HPk'. }
    intros v [Hv|Hv]%elem_of_app.
    + apply Hms in Hv as (k & Hk & _ & ->). by apply Hswap.
    + apply Hmp in Hv as (k & Hk & _ & ->). by apply Hswap.
Qed.

Lemma weak_order_steps_valid_witness :
  check [1; 2; 1] = Ok () ∧
  check [2; 1; 1] = Ok () ∧ length [2; 1; 1] = length [1; 2; 1] ∧ [2; 1; 1] ≡ₚ [1; 2; 1].
Proof.
  split; [by vm_compute|].
  apply (weak_order_steps_valid [1; 2; 1]); [by vm_compute|].
  vm_compute. left.
Defined.

(** C9, the claim as stated fails on [[1,1,2]]: its left successor
    [[2,2,1]] has another multiset of letters. *)
Lemma left_succ_changes_multiset :
  check [1; 1; 2] = Ok () ∧
  left_weak_order_succ [1; 1; 2] = Ok [[2; 2; 1]] ∧
  ¬ [2; 2; 1] ≡ₚ [1; 1; 2].
Proof.
  split_and!; try by vm_compute.
  intros Hp. assert (length (filter (λ x, x = 1) [2; 2; 1]) = length (filter (λ x, x = 1) [1; 1; 2]))
    as Hlen by (by rewrite Hp).
  vm_compute in Hlen. discriminate.
Qed.

(** ** Ordered set partitions *)

Lemma elem_of_positions_from off k w i :
  i ∈ positions_from off k w ↔ (off ≤ i)%nat ∧ w !! (i - off)%nat = Some k.
Proof.
  revert off. induction w as [|x w IH]; intros off; simpl.
  { split; [by intros ?%elem_of_nil|]. by intros [_ ?]. }
  assert (∀ P, i ∈ positions_from (S off) k w ∨ P ↔
               ((S off ≤ i)%nat ∧ w !! (i - S off)%nat = Some k) ∨ P) as Hor
    by (intros; by rewrite IH).
  destruct (decide (i = off)) as [->|Hne].
  - rewrite Nat.sub_diag. simpl. case_decide as Hx.
    + subst. split; [done|]. intros _. left.
    + rewrite IH. split; [lia|]. intros [_ [= ?]]. done.
  - assert (off ≤ i → (i - off) = S (i - S off))%nat as Hs by lia.
    case_decide as Hx.
    + rewrite elem_of_cons, IH. split.
      * intros [?|[? Hl]]; [done|]. split; [lia|]. rewrite Hs by lia. done.
      * intros [? Hl]. right. split; [lia|]. rewrite Hs in Hl by lia. done.
    + rewrite IH. split.
      * intros [? Hl]. split; [lia|]. rewrite Hs by lia. done.
      * intros [? Hl]. split; [lia|]. rewrite Hs in Hl by lia. done.
Qed.

Lemma norm_index_in_range {A} (l : list A) (i : Z) :
  0 ≤ i < len l → norm_index l i = Ok (Z.to_nat i).
Proof. intros Hi. unfold norm_index. by rewrite decide_True. Qed.

(** The loop of [to_ordered_set_partition]: block [j] receives the
    positions of the letter [j + 1]. *)
Lemma osp_loop w : ∀ off (lst : list (list Z)),
  Forall (λ val, 1 ≤ val ≤ len lst) w →
  ∃ lst',
    foldM_result
      (λ (lst : list (list Z)) '(i, val),
         k ← norm_index lst (val - 1);
         Ok (<[k := (lst !!! k) ++ [Z.of_nat i + 1]]> lst))
      (imap (λ i val, ((off + i)%nat, val)) w) lst = Ok lst' ∧
    length lst' = length lst ∧
    ∀ j B, lst !! j = Some B →
           lst' !! j = Some (B ++ ((λ i, Z.of_nat i + 1) <$>
                                    positions_from off (Z.of_nat j + 1) w)).
Proof.
  induction w as [|val w IH]; intros off lst Hw.
  { exists lst. split; [done|]. split; [done|]. intros j B Hj. simpl. by rewrite app_nil_r. }
  apply Forall_cons in Hw as [Hval Hw].
  rewrite imap_cons. cbn [foldM_result]. rewrite Nat.add_0_r.
  rewrite norm_index_in_range by lia. rewrite bind_Ok.
  set (k := Z.to_nat (val - 1)).
  set (lst1 := <[k := lst !!! k ++ [Z.of_nat off + 1]]> lst).
  assert (length lst1 = length lst) as Hlen1 by apply length_insert.
  destruct (IH (S off) lst1) as (lst' & Hfold & Hlen & Hlook).
  { unfold len. rewrite Hlen1. exact Hw. }
  exists lst'. split; [|split; [congruence|]].
  - rewrite bind_Ok, <- Hfold. f_equal. apply imap_ext. intros i x _. simpl. f_equal. lia.
  - intros j B Hj. simpl positions_from.
    destruct (decide (j = k)) as [->|Hne].
    + rewrite decide_True by (unfold k; lia).
      erewrite Hlook.
      2:{ unfold lst1. rewrite list_lookup_insert_eq by (by eapply lookup_lt_Some).
          by rewrite (list_lookup_total_correct _ _ _ Hj). }
      by rewrite <- app_assoc.
    + rewrite decide_False by (unfold k in Hne; lia).
      erewrite Hlook; [done|]. unfold lst1. by rewrite list_lookup_insert_ne.
Qed.

(** The blocks of [to_ordered_set_partition], as a set, by membership. *)
Lemma osp_spec m w :
  Packed m w →
  ∃ bs, to_ordered_set_partition w = Ok bs ∧
        ∀ B : gset Z, B ∈ (list_to_set bs : gset (gset Z)) ↔
          ∃ k, 1 ≤ k ≤ m ∧ ∀ p, p ∈ B ↔ ∃ i : nat, p = Z.of_nat i + 1 ∧ w !! i = Some k.
Proof.
  intros HP. unfold to_ordered_set_partition.
  rewrite (Packed_pw_max m) by done.
  destruct (osp_loop w 0 (replicate (Z.to_nat m) [])) as (lst & Hfold & Hlen & Hlook).
  { apply Forall_forall. intros x Hx%(Packed_bounds m); [|done].
    unfold len. rewrite length_replicate. destruct HP. lia. }
  change (imap (λ i val, ((0 + i)%nat, val)) w) with (imap (λ i val, (i, val)) w) in Hfold.
  rewrite Hfold, bind_Ok. eexists. split; [done|].
  rewrite length_replicate in Hlen.
  assert (∀ j, (j < Z.to_nat m)%nat →
            lst !! j = Some ((λ i, Z.of_nat i + 1) <$> positions_from 0 (Z.of_nat j + 1) w))
    as Hblocks.
  { intros j Hj. rewrite (Hlook j []); [done|by apply lookup_replicate_2]. }
  assert (∀ (k : Z) p, p ∈ (λ i, Z.of_nat i + 1) <$> positions_from 0 k w
            ↔ ∃ i : nat, p = Z.of_nat i + 1 ∧ w !! i = Some k) as Hmem.
  { intros j p. rewrite list_elem_of_fmap. setoid_rewrite elem_of_positions_from.
    setoid_rewrite Nat.sub_0_r. split.
    - intros (i & -> & _ & Hi). eauto.
    - intros (i & -> & Hi). exists i. split; [done|]. split; [lia|done]. }
  intros B. unfold OrderedSetPartition.
  rewrite elem_of_list_to_set, list_elem_of_fmap. split.
  - intros (blk & -> & Hin). apply list_elem_of_lookup in Hin as [j Hj].
    pose proof (lookup_lt_Some _ _ _ Hj) as Hjlt. rewrite Hlen in Hjlt.
    rewrite (Hblocks j Hjlt) in Hj. injection Hj as <-.
    exists (Z.of_nat j + 1). split; [lia|]. intros p.
    by rewrite elem_of_list_to_set, Hmem.
  - intros (k & Hk & HB).
    exists ((λ i, Z.of_nat i + 1) <$> positions_from 0 k w). split.
    + apply set_eq. intros p. by rewrite HB, elem_of_list_to_set, Hmem.
    + apply list_elem_of_lookup. exists (Z.to_nat (k - 1)).
      rewrite Hblocks by lia. do 3 f_equal. lia.
Qed.

Section same_blocks.
Context (mu mv : Z) (u v : list Z) (bu bv : list (gset Z)).
Hypothesis HPu : Packed mu u.
Hypothesis HPv : Packed mv v.
Hypothesis Hbu : ∀ B : gset Z, B ∈ (list_to_set bu : gset (gset Z)) ↔
  ∃ k, 1 ≤ k ≤ mu ∧ ∀ p, p ∈ B ↔ ∃ i : nat, p = Z.of_nat i + 1 ∧ u !! i = Some k.
Hypothesis Hbv : ∀ B : gset Z, B ∈ (list_to_set bv : gset (gset Z)) ↔
  ∃ k, 1 ≤ k ≤ mv ∧ ∀ p, p ∈ B ↔ ∃ i : nat, p = Z.of_nat i + 1 ∧ v !! i = Some k.

Lemma same_blocks_same_partition :
  (list_to_set bu : gset (gset Z)) = list_to_set bv ↔ same_set_partition u v.
Proof.
  split.
  - intros Heq.
    assert (∀ m1 m2 (w1 w2 : list Z) (b1 b2 : list (gset Z)),
              Packed m1 w1 →
              (∀ B : gset Z, B ∈ (list_to_set b1 : gset (gset Z)) ↔
                 ∃ k, 1 ≤ k ≤ m1 ∧ ∀ p, p ∈ B ↔ ∃ i : nat, p = Z.of_nat i + 1 ∧ w1 !! i = Some k) →
              (∀ B : gset Z, B ∈ (list_to_set b2 : gset (gset Z)) ↔
                 ∃ k, 1 ≤ k ≤ m2 ∧ ∀ p, p ∈ B ↔ ∃ i : nat, p = Z.of_nat i + 1 ∧ w2 !! i = Some k) →
              (list_to_set b1 : gset (gset Z)) = list_to_set b2 →
              ∀ i x, w1 !! i = Some x →
                ∃ x', w2 !! i = Some x' ∧ ∀ j, w1 !! j = Some x ↔ w2 !! j = Some x') as Hkey.
    { clear. intros m1 m2 w1 w2 b1 b2 HP1 H1 H2 Heq i x Hx.
      set (B := list_to_set ((λ i, Z.of_nat i + 1) <$> positions_from 0 x w1) : gset Z).
      assert (∀ p, p ∈ B ↔ ∃ i : nat, p = Z.of_nat i + 1 ∧ w1 !! i = Some x) as HB.
      { intros p. unfold B. rewrite elem_of_list_to_set, list_elem_of_fmap.
        setoid_rewrite elem_of_positions_from. setoid_rewrite Nat.sub_0_r. split.
        - intros (a & -> & _ & Ha). eauto.
        - intros (a & -> & Ha). exists a. split; [done|]. split; [lia|done]. }
      assert (B ∈ (list_to_set b1 : gset (gset Z))) as Hin.
      { apply H1. exists x. split; [|done].
        apply (Packed_bounds m1 w1); [done|]. by eapply list_elem_of_lookup_2. }
      rewrite Heq in Hin. apply H2 in Hin as (x' & _ & HB').
      assert (∀ j : nat, w1 !! j = Some x ↔ w2 !! j = Some x') as Hj.
      { intros j. split.
        - intros Hj. assert (Z.of_nat j + 1 ∈ B) as HjB by (apply HB; eauto).
          apply HB' in HjB as (j' & ? & ?). by replace j with j' by lia.
        - intros Hj. assert (Z.of_nat j + 1 ∈ B) as HjB by (apply HB'; eauto).
          apply HB in HjB as (j' & ? & ?). by replace j with j' by lia. }
      exists x'. split; [by apply Hj|done]. }
    pose proof (Hkey mu mv u v bu bv HPu Hbu Hbv Heq) as Huv.
    pose proof (Hkey mv mu v u bv bu HPv Hbv Hbu (eq_sym Heq)) as Hvu.
    split.
    + destruct (decide (length u = length v)) as [?|Hne]; [done|]. exfalso.
      destruct (decide (length u < length v)%nat).
      * assert (is_Some (v !! length u)) as [x Hx] by (apply lookup_lt_is_Some; lia).
        destruct (Hvu _ _ Hx) as (x' & Hx'%lookup_lt_Some & _). lia.
      * assert (is_Some (u !! length v)) as [x Hx] by (apply lookup_lt_is_Some; lia).
        destruct (Huv _ _ Hx) as (x' & Hx'%lookup_lt_Some & _). lia.
    + intros i j x y x' y' Hi Hj Hi' Hj'.
      destruct (Huv _ _ Hi) as (x'' & Hx'' & Hiff).
      assert (x'' = x') as -> by congruence.
      specialize (Hiff j). rewrite Hj, Hj' in Hiff. split.
      * intros ->. assert (Some y' = Some x') as [= ->] by (by apply Hiff). done.
      * intros ->. assert (Some y = Some x) as [= ->] by (by apply Hiff). done.
  - intros [Hlen Hpat].
    assert (∀ m1 m2 (w1 w2 : list Z) (b1 b2 : list (gset Z)),
              Packed m1 w1 → Packed m2 w2 → length w1 = length w2 →
              (∀ i j x y x' y',
                 w1 !! i = Some x → w1 !! j = Some y → w2 !! i = Some x' → w2 !! j = Some y' →
                 (x = y ↔ x' = y')) →
              (∀ B : gset Z, B ∈ (list_to_set b1 : gset (gset Z)) ↔
                 ∃ k, 1 ≤ k ≤ m1 ∧ ∀ p, p ∈ B ↔ ∃ i : nat, p = Z.of_nat i + 1 ∧ w1 !! i = Some k) →
              (∀ B : gset Z, B ∈ (list_to_set b2 : gset (gset Z)) ↔
                 ∃ k, 1 ≤ k ≤ m2 ∧ ∀ p, p ∈ B ↔ ∃ i : nat, p = Z.of_nat i + 1 ∧ w2 !! i = Some k) →
              ∀ B : gset Z, B ∈ (list_to_set b1 : gset (gset Z)) →
                            B ∈ (list_to_set b2 : gset (gset Z))) as Hkey.
    { clear. intros m1 m2 w1 w2 b1 b2 HP1 HP2 Hlen Hpat H1 H2 B (k & Hk & HB)%H1.
      assert (k ∈ w1) as [i Hi]%list_elem_of_lookup by (destruct HP1 as [_ HP1]; by apply HP1).
      assert (is_Some (w2 !! i)) as [k' Hk'].
      { apply lookup_lt_is_Some. rewrite <- Hlen. by eapply lookup_lt_Some. }
      apply H2. exists k'. split.
      { apply (Packed_bounds m2 w2); [done|]. by eapply list_elem_of_lookup_2. }
      intros p. rewrite HB. split.
      - intros (j & -> & Hj). exists j. split; [done|].
        assert (is_Some (w2 !! j)) as [y' Hy'].
        { apply lookup_lt_is_Some. rewrite <- Hlen. by eapply lookup_lt_Some. }
        rewrite Hy'. f_equal. symmetry. by apply (Hpat i j k k k' y').
      - intros (j & -> & Hj). exists j. split; [done|].
        assert (is_Some (w1 !! j)) as [y Hy].
        { apply lookup_lt_is_Some. rewrite Hlen. by eapply lookup_lt_Some. }
        rewrite Hy. f_equal. symmetry. by apply (Hpat i j k y k' k'). }
    apply set_eq. intros B. split.
    + by apply (Hkey mu mv u v).
    + apply (Hkey mv mu v u); try done.
      intros i j x y x' y' ? ? ? ?. symmetry. by apply (Hpat i j x' y' x y).
Qed.
End same_blocks.

(** ** Comparison in the left weak order *)

(** C7 (as the code has it): for valid packed words [u] and [v],
    [is_gequal(u, v, side="left")] always returns a boolean, and it returns
    true exactly when [u] and [v] induce the same set partition (the same
    blocks, in any order) and the right inversions on positions of [v] are
    among those of [u]; in particular it returns false, without raising,
    when the blocks differ. *)
Theorem is_gequal_left_spec (u v : list Z) :
  check u = Ok () → check v = Ok () →
  ∃ b, is_gequal Left u v = Ok b ∧
       (b = true ↔
        same_set_partition u v ∧
        ∃ Iu Iv, inversions Right None false u = Ok Iu ∧
                 inversions Right None false v = Ok Iv ∧ Iv ⊆ Iu).
Proof.
  intros [mu HPu]%check_Packed [mv HPv]%check_Packed.
  destruct (osp_spec mu u HPu) as (bu & Hbu & Hmu).
  destruct (osp_spec mv v HPv) as (bv & Hbv & Hmv).
  destruct (inversions_right_spec false u) as (Iu & HIu & _).
  destruct (inversions_right_spec false v) as (Iv & HIv & _).
  pose proof (same_blocks_same_partition mu mv u v bu bv HPu HPv Hmu Hmv) as Hsame.
  unfold is_gequal. rewrite decide_False by done. rewrite bind_Ok. cbv iota.
  rewrite Hbu, Hbv, !bind_Ok. cbv zeta.
  destruct (decide (Left = Left ∧ (list_to_set bu : gset (gset Z)) = list_to_set bv))
    as [[_ Heq]|Hne].
  - rewrite HIv, HIu, !bind_Ok. eexists. split; [done|].
    rewrite bool_decide_eq_true. split.
    + intros Hsub. split; [by apply Hsame|]. by exists Iu, Iv.
    + intros (_ & Iu' & Iv' & ? & ? & Hsub). by simplify_eq.
  - exists false. split; [done|]. split; [done|].
    intros [Hs _]. exfalso. apply Hne. split; [done|]. by apply Hsame.
Qed.

Lemma is_gequal_left_spec_witness :
  check [3; 2; 2; 1] = Ok () ∧ check [3; 1; 1; 2] = Ok () ∧
  ∃ b, is_gequal Left [3; 2; 2; 1] [3; 1; 1; 2] = Ok b ∧
       (b = true ↔
        same_set_partition [3; 2; 2; 1] [3; 1; 1; 2] ∧
        ∃ Iu Iv, inversions Right None false [3; 2; 2; 1] = Ok Iu ∧
                 inversions Right None false [3; 1; 1; 2] = Ok Iv ∧ Iv ⊆ Iu).
Proof.
  split; [by vm_compute|]. split; [by vm_compute|].
  apply (is_gequal_left_spec [3; 2; 2; 1] [3; 1; 1; 2]); by vm_compute.
Defined.

(** C7, the claim as stated fails on [[2,2,1]] and [[1,1,2]]: the
    comparison holds although the two ordered set partitions, [[{3},{1,2}]]
    and [[{1,2},{3}]], differ. *)
Lemma is_gequal_left_ignores_block_order :
  check [2; 2; 1] = Ok () ∧ check [1; 1; 2] = Ok () ∧
  is_gequal Left [2; 2; 1] [1; 1; 2] = Ok true ∧
  to_ordered_set_partition [2; 2; 1] = Ok [{[3]}; {[1; 2]}] ∧
  to_ordered_set_partition [1; 1; 2] = Ok [{[1; 2]}; {[3]}] ∧
  to_ordered_set_partition [2; 2; 1] ≠ to_ordered_set_partition [1; 1; 2].
Proof.
  split_and!; by vm_compute.
Qed.

(** ** Intervals of the right weak order *)

(** C8: the interval between [[1,2,1]] and [[2,1,1]] consists of exactly
    these two words, and the interval between the incomparable words
    [[1,2,1]] and [[2,1,2]] is empty, with no error. *)
Theorem right_interval_examples (fuel : nat) :
  (3 ≤ fuel)%nat →
  right_weak_order_interval fuel [1; 2; 1] [2; 1; 1] = Ok [[1; 2; 1]; [2; 1; 1]] ∧
  right_weak_order_interval fuel [1; 2; 1] [2; 1; 2] = Ok [].
Proof.
  intros Hfuel. destruct fuel as [|[|[|fuel]]]; try lia.
  split; by vm_compute.
Qed.

Lemma right_interval_examples_witness :
  (3 ≤ 3)%nat ∧
  right_weak_order_interval 3 [1; 2; 1] [2; 1; 1] = Ok [[1; 2; 1]; [2; 1; 1]] ∧
  right_weak_order_interval 3 [1; 2; 1] [2; 1; 2] = Ok [].
Proof.
  split; [lia|]. apply (right_interval_examples 3). lia.
Defined.

(** ** The particularity predicate on the empty word *)

(** C10: [is_particular] raises on the empty word, for both sides. *)
Theorem is_particular_empty (sd : side) : is_particular [] sd = Raise ValueError.
Proof. by destruct sd. Qed.

(** ** Concatenation, reversal and complement *)

Lemma Packed_app m1 m2 u v :
  Packed m1 u → Packed m2 v → Packed (Z.max m1 m2) (u ++ v).
Proof.
  intros [H1 Hu] [H2 Hv]. split; [lia|]. intros k.
  rewrite elem_of_app, Hu, Hv. lia.
Qed.

Lemma Packed_reverse m w : Packed m w → Packed m (reverse w).
Proof.
  intros [Hm Hw]. split; [done|]. intros k. by rewrite elem_of_reverse.
Qed.

Lemma Packed_complement m w :
  Packed m w → Packed m ((λ i, m + 1 - i) <$> w).
Proof.
  intros [Hm Hw]. split; [done|]. intros k. rewrite list_elem_of_fmap. split.
  - intros (x & -> & Hx%Hw). lia.
  - intros Hk. exists (m + 1 - k). split; [lia|]. apply Hw. lia.
Qed.

Lemma complement_Packed m w :
  Packed m w → complement w = Ok ((λ i, m + 1 - i) <$> w).
Proof.
  intros HP. unfold complement. case_decide as Hw; [by subst|].
  rewrite (Packed_pw_max m) by done.
  by apply (PackedWord_Packed m), Packed_complement.
Qed.

Lemma pw_reverse_Packed m w : Packed m w → pw_reverse w = Ok (reverse w).
Proof. intros HP. by apply (PackedWord_Packed m), Packed_reverse. Qed.

(** X1: the concatenation of two packed words is a packed word: [u + v]
    never raises on valid operands, and the maximum of the result is the
    larger of the two maxima. *)
Theorem add_closed (u v : list Z) :
  check u = Ok () → check v = Ok () →
  __add__ u v = Ok (u ++ v) ∧
  check (u ++ v) = Ok () ∧
  pw_max (u ++ v) = Z.max (pw_max u) (pw_max v).
Proof.
  intros [m1 H1]%check_Packed [m2 H2]%check_Packed.
  pose proof (Packed_app _ _ _ _ H1 H2) as HP.
  rewrite (Packed_pw_max _ _ H1), (Packed_pw_max _ _ H2), (Packed_pw_max _ _ HP).
  split_and!; [|apply check_Packed; eauto|done].
  by apply (PackedWord_Packed (Z.max m1 m2)).
Qed.

Lemma add_closed_witness :
  __add__ [1; 3; 2; 1] [1; 2; 1] = Ok ([1; 3; 2; 1] ++ [1; 2; 1]) ∧
  check ([1; 3; 2; 1] ++ [1; 2; 1]) = Ok () ∧
  pw_max ([1; 3; 2; 1] ++ [1; 2; 1]) = Z.max (pw_max [1; 3; 2; 1]) (pw_max [1; 2; 1]).
Proof. apply (add_closed [1; 3; 2; 1] [1; 2; 1]); by vm_compute. Defined.

(** X2: the complement of a packed word is a packed word of the same size
    and the same maximum, whose letter at each position is [max + 1] minus
    the letter of the word, and complementing twice gives the word back. *)
Theorem complement_involutive (w : list Z) :
  check w = Ok () →
  ∃ c, complement w = Ok c ∧
       check c = Ok () ∧
       length c = length w ∧
       pw_max c = pw_max w ∧
       (∀ i x, w !! i = Some x → c !! i = Some (pw_max w + 1 - x)) ∧
       complement c = Ok w.
Proof.
  intros [m HP]%check_Packed.
  pose proof (Packed_complement m w HP) as HP'.
  exists ((λ i, m + 1 - i) <$> w).
  rewrite (complement_Packed m w HP), (complement_Packed m _ HP').
  rewrite (Packed_pw_max m _ HP'), (Packed_pw_max m _ HP).
  split_and!; try done.
  - apply check_Packed. eauto.
  - by rewrite length_fmap.
  - intros i x Hx. by rewrite list_lookup_fmap, Hx.
  - f_equal. rewrite <- list_fmap_compose. rewrite <- (list_fmap_id w) at 2.
    apply list_fmap_ext. intros _ x _. simpl. lia.
Qed.

Lemma complement_involutive_witness :
  ∃ c, complement [1; 2; 3; 1; 1; 4] = Ok c ∧
       check c = Ok () ∧
       length c = length [1; 2; 3; 1; 1; 4] ∧
       pw_max c = pw_max [1; 2; 3; 1; 1; 4] ∧
       (∀ i x, [1; 2; 3; 1; 1; 4] !! i = Some x →
               c !! i = Some (pw_max [1; 2; 3; 1; 1; 4] + 1 - x)) ∧
       complement c = Ok [1; 2; 3; 1; 1; 4].
Proof. apply (complement_involutive [1; 2; 3; 1; 1; 4]). by vm_compute. Defined.

(** X3: reversal maps packed words to packed words (its validation never
    fails on a valid word), it is an involution, and it commutes with the
    complement. *)
Theorem pw_reverse_involutive (w : list Z) :
  check w = Ok () →
  pw_reverse w = Ok (reverse w) ∧
  check (reverse w) = Ok () ∧
  pw_reverse w ≫= pw_reverse = Ok w ∧
  ∃ r, complement w ≫= pw_reverse = Ok r ∧
       pw_reverse w ≫= complement = Ok r.
Proof.
  intros [m HP]%check_Packed.
  rewrite (pw_reverse_Packed m) by done. split_and!; [done|..].
  - apply check_Packed. exists m. by apply Packed_reverse.
  - rewrite bind_Ok, (pw_reverse_Packed m) by (by apply Packed_reverse).
    by rewrite reverse_involutive.
  - exists (reverse ((λ i, m + 1 - i) <$> w)).
    rewrite (complement_Packed m w HP), !bind_Ok.
    rewrite (pw_reverse_Packed m) by (by apply Packed_complement).
    rewrite (complement_Packed m) by (by apply Packed_reverse).
    by rewrite fmap_reverse.
Qed.

Lemma pw_reverse_involutive_witness :
  pw_reverse [3; 2; 1; 2] = Ok (reverse [3; 2; 1; 2]) ∧
  check (reverse [3; 2; 1; 2]) = Ok () ∧
  pw_reverse [3; 2; 1; 2] ≫= pw_reverse = Ok [3; 2; 1; 2] ∧
  ∃ r, complement [3; 2; 1; 2] ≫= pw_reverse = Ok r ∧
       pw_reverse [3; 2; 1; 2] ≫= complement = Ok r.
Proof. apply (pw_reverse_involutive [3; 2; 1; 2]). by vm_compute. Defined.

(** ** Composition *)

Lemma mul_letters (u letters : list Z) :
  Forall (λ x, 1 ≤ x ≤ len u) letters →
  mapM_result (λ i, k ← norm_index u (i - 1); py_get u k) letters
  = Ok ((λ x, u !!! Z.to_nat (x - 1)) <$> letters).
Proof.
  intros Hall. apply mapM_result_ext_ok. intros x Hx.
  rewrite Forall_forall in Hall. specialize (Hall x Hx).
  rewrite norm_index_in_range by lia. simpl. apply py_get_Some.
  apply list_lookup_lookup_total_lt. unfold len in Hall. lia.
Qed.

Lemma Packed_letters_range m v : Packed m v → Forall (λ x, 1 ≤ x ≤ m) v.
Proof. intros HP. apply Forall_forall. intros x. by apply Packed_bounds. Qed.

Lemma Packed_compose mu u v :
  Packed mu u → Packed (len u) v →
  Packed mu ((λ x, u !!! Z.to_nat (x - 1)) <$> v).
Proof.
  intros HPu HPv. split; [by destruct HPu|]. intros k.
  rewrite list_elem_of_fmap. split.
  - intros (x & -> & Hx). apply (Packed_bounds mu u); [done|].
    apply list_elem_of_lookup_total_2.
    apply (Packed_bounds _ _ _ HPv) in Hx. unfold len in Hx. lia.
  - intros Hk. destruct HPu as [_ HPu]. apply HPu in Hk.
    apply list_elem_of_lookup in Hk as [i Hi].
    pose proof (lookup_lt_Some _ _ _ Hi) as Hlt.
    exists (Z.of_nat i + 1). split.
    + replace (Z.to_nat (Z.of_nat i + 1 - 1)) with i by lia.
      symmetry. by apply list_lookup_total_correct.
    + destruct HPv as [_ HPv]. apply HPv. unfold len. lia.
Qed.

Lemma mul_Word_Packed mu u v :
  Packed mu u → Packed (len u) v →
  __mul__ u (Word v) = Ok ((λ x, u !!! Z.to_nat (x - 1)) <$> v).
Proof.
  intros HPu HPv. unfold __mul__.
  rewrite (Packed_pw_max _ _ HPv), decide_True by done.
  rewrite mul_letters by (by apply Packed_letters_range). rewrite bind_Ok.
  by apply (PackedWord_Packed mu), Packed_compose.
Qed.

(** X4: [u * v] for packed words: when [len(u) = max(v)] the product is the
    packed word [[u[i-1] for i in v]], of the size of [v] and the maximum
    of [u]; otherwise the call raises [ValueError]. *)
Theorem mul_packed_words (u v : list Z) :
  check u = Ok () → check v = Ok () →
  (len u = pw_max v →
     ∃ r, __mul__ u (Word v) = Ok r ∧ check r = Ok () ∧
          length r = length v ∧ pw_max r = pw_max u ∧
          ∀ i x, v !! i = Some x → r !! i = u !! Z.to_nat (x - 1)) ∧
  (len u ≠ pw_max v → __mul__ u (Word v) = Raise ValueError).
Proof.
  intros [mu HPu]%check_Packed [mv HPv]%check_Packed. split.
  - intros Hlen. rewrite (Packed_pw_max _ _ HPv) in Hlen. subst mv.
    pose proof (Packed_compose mu u v HPu HPv) as HP.
    eexists. split; [by apply (mul_Word_Packed mu)|].
    rewrite (Packed_pw_max _ _ HP), (Packed_pw_max _ _ HPu).
    split_and!; [apply check_Packed; eauto|by rewrite length_fmap|done|].
    intros i x Hx. rewrite list_lookup_fmap, Hx. simpl. symmetry.
    apply list_lookup_lookup_total_lt.
    assert (x ∈ v) as Hin%(Packed_bounds _ _ _ HPv) by (by eapply list_elem_of_lookup_2).
    unfold len in Hin. lia.
  - intros Hlen. unfold __mul__. by rewrite decide_False.
Qed.

Lemma mul_packed_words_witness :
  ∃ r, __mul__ [2; 1; 2] (Word [2; 1; 3; 2; 1]) = Ok r ∧ check r = Ok () ∧
       length r = length [2; 1; 3; 2; 1] ∧ pw_max r = pw_max [2; 1; 2] ∧
       ∀ i x, [2; 1; 3; 2; 1] !! i = Some x → r !! i = [2; 1; 2] !! Z.to_nat (x - 1).
Proof.
  apply (mul_packed_words [2; 1; 2] [2; 1; 3; 2; 1]); by vm_compute.
Defined.

(** X5: the identity permutation [[1,...,n]] is a unit of the product on
    both sides: [u * [1..len(u)] = u] and [[1..max(v)] * v = v]. *)
Theorem mul_identity (w : list Z) :
  check w = Ok () →
  __mul__ w (Word (seqZ 1 (len w))) = Ok w ∧
  __mul__ (seqZ 1 (pw_max w)) (Word w) = Ok w.
Proof.
  intros [m HP]%check_Packed. rewrite (Packed_pw_max _ _ HP).
  assert (Packed (len w) (seqZ 1 (len w))) as Hid1.
  { split; [apply len_nonneg|]. intros k. rewrite elem_of_seqZ. lia. }
  assert (Packed m (seqZ 1 m)) as Hid2.
  { split; [by destruct HP|]. intros k. rewrite elem_of_seqZ. lia. }
  split.
  - rewrite (mul_Word_Packed m) by done. f_equal.
    apply list_eq. intros i. rewrite list_lookup_fmap.
    destruct (decide (i < length w)%nat) as [Hi|Hi].
    + rewrite (lookup_seqZ_lt) by (unfold len; lia). simpl.
      replace (Z.to_nat (1 + Z.of_nat i - 1)) with i by lia.
      symmetry. by apply list_lookup_lookup_total_lt.
    + rewrite lookup_seqZ_ge by (unfold len; lia).
      symmetry. apply lookup_ge_None. lia.
  - assert (len (seqZ 1 m) = m) as Hlen.
    { unfold len. rewrite length_seqZ. destruct HP. lia. }
    rewrite (mul_Word_Packed m) by (by rewrite ?Hlen). f_equal.
    rewrite <- (list_fmap_id w) at 2. apply list_fmap_ext. intros j x Hx. simpl.
    assert (x ∈ w) as Hin%(Packed_bounds _ _ _ HP) by (by eapply list_elem_of_lookup_2).
    apply list_lookup_total_correct. rewrite lookup_seqZ_lt by lia. f_equal. lia.
Qed.

Lemma mul_identity_witness :
  __mul__ [2; 1; 2] (Word (seqZ 1 (len [2; 1; 2]))) = Ok [2; 1; 2] ∧
  __mul__ (seqZ 1 (pw_max [2; 1; 2])) (Word [2; 1; 2]) = Ok [2; 1; 2].
Proof. apply (mul_identity [2; 1; 2]). by vm_compute. Defined.

(** X6: the product of packed words is associative: when the sizes match
    ([len(u) = max(v)] and [len(v) = max(w)]), [(u * v) * w] and
    [u * (v * w)] both return the same packed word. *)
Theorem mul_assoc (u v w : list Z) :
  check u = Ok () → check v = Ok () → check w = Ok () →
  len u = pw_max v → len v = pw_max w →
  ∃ r, (uv ← __mul__ u (Word v); __mul__ uv (Word w)) = Ok r ∧
       (vw ← __mul__ v (Word w); __mul__ u (Word vw)) = Ok r.
Proof.
  intros [mu HPu]%check_Packed [mv HPv]%check_Packed [mw HPw]%check_Packed Huv Hvw.
  rewrite (Packed_pw_max _ _ HPv) in Huv. rewrite (Packed_pw_max _ _ HPw) in Hvw.
  subst mv mw.
  pose proof (Packed_compose _ u v HPu HPv) as HPuv.
  pose proof (Packed_compose _ v w HPv HPw) as HPvw.
  rewrite (mul_Word_Packed mu u v), (mul_Word_Packed (len u) v w) by done.
  rewrite !bind_Ok.
  rewrite (mul_Word_Packed mu) by (by rewrite ?len_fmap).
  rewrite (mul_Word_Packed mu) by done.
  eexists. split; [done|]. f_equal.
  rewrite <- list_fmap_compose. apply list_fmap_ext. intros j x Hx. simpl.
  assert (x ∈ w) as Hin%(Packed_bounds _ _ _ HPw) by (by eapply list_elem_of_lookup_2).
  rewrite (list_lookup_total_fmap (λ x, u !!! Z.to_nat (x - 1)) v); [done|]. unfold len in Hin. lia.
Qed.

Lemma mul_assoc_witness :
  ∃ r, (uv ← __mul__ [2; 1; 2] (Word [2; 1; 3; 2; 1]);
        __mul__ uv (Word [5; 4; 3; 2; 2; 1])) = Ok r ∧
       (vw ← __mul__ [2; 1; 3; 2; 1] (Word [5; 4; 3; 2; 2; 1]);
        __mul__ [2; 1; 2] (Word vw)) = Ok r.
Proof.
  apply (mul_assoc [2; 1; 2] [2; 1; 3; 2; 1] [5; 4; 3; 2; 2; 1]); by vm_compute.
Defined.

(** X7: multiplying a packed word on the right by a permutation of its
    positions rearranges its letters: the result is a packed word with the
    same multiset of letters. *)
Theorem mul_permutation (u p : list Z) :
  check u = Ok () → is_permutation p → len p = len u →
  ∃ r, __mul__ u (Perm p) = Ok r ∧ check r = Ok () ∧ r ≡ₚ u.
Proof.
  intros [mu HPu]%check_Packed Hperm Hlen. unfold is_permutation in Hperm.
  unfold __mul__. rewrite decide_True by done.
  assert (Forall (λ x, 1 ≤ x ≤ len u) p) as Hrange.
  { apply Forall_forall. intros x Hx. rewrite Hperm in Hx.
    apply elem_of_seqZ in Hx. lia. }
  rewrite mul_letters by done. rewrite bind_Ok.
  assert ((λ x, u !!! Z.to_nat (x - 1)) <$> p ≡ₚ u) as Hr.
  { rewrite Hperm, Hlen. clear. 
    assert ((λ x : Z, u !!! Z.to_nat (x - 1)) <$> seqZ 1 (len u) = u) as ->; [|done].
    apply list_eq. intros i. rewrite list_lookup_fmap.
    destruct (decide (i < length u)%nat) as [Hi|Hi].
    + rewrite (lookup_seqZ_lt) by (unfold len; lia). simpl.
      replace (Z.to_nat (1 + Z.of_nat i - 1)) with i by lia.
      symmetry. by apply list_lookup_lookup_total_lt.
    + rewrite lookup_seqZ_ge by (unfold len; lia).
      symmetry. apply lookup_ge_None. lia. }
  assert (Packed mu ((λ x, u !!! Z.to_nat (x - 1)) <$> p)) as HP.
  { destruct HPu as [Hm HPu]. split; [done|]. intros k. by rewrite Hr. }
  eexists. split; [by apply (PackedWord_Packed mu)|]. split; [|done].
  apply check_Packed. eauto.
Qed.

Lemma mul_permutation_witness :
  ∃ r, __mul__ [2; 1; 2] (Perm [1; 3; 2]) = Ok r ∧ check r = Ok () ∧ r ≡ₚ [2; 1; 2].
Proof.
  apply (mul_permutation [2; 1; 2] [1; 3; 2]); [by vm_compute| |by vm_compute].
  unfold is_permutation. change (seqZ 1 (len [1; 3; 2])) with [1; 2; 3].
  apply perm_skip, perm_swap.
Defined.

(** ** Membership in the packed words of a given size *)

(** X8: for [x] with entries that fit a C [int], [x in PackedWords(n)]
    returns, and it is true exactly when [x] is a valid packed word of
    length [n]; the [OverflowError] of an entry outside that range is not
    caught. *)
Theorem PackedWords_size_contains_spec (n : Z) (x : list Z) :
  (Forall fits_int x →
     ∃ b : bool, PackedWords_size_contains n x = Ok b ∧
                 (b = true ↔ valid_sequence x ∧ len x = n)) ∧
  (¬ Forall fits_int x → PackedWords_size_contains n x = Raise OverflowError).
Proof.
  unfold PackedWords_size_contains. split.
  - intros Hx. rewrite init_fits by done.
    destruct (PackedWord x) as [x'|e] eqn:HPW.
    + apply PackedWord_Ok_inv in HPW as [-> HP]. eexists. split; [done|].
      rewrite bool_decide_eq_true, valid_sequence_Packed. tauto.
    + assert (is_ValueError e = true) as ->.
      { unfold PackedWord in HPW.
        destruct (check_cases x) as [Hc|[Hc|Hc]]; rewrite Hc in HPW;
          [done|by injection HPW as <-..]. }
      exists false. split; [done|]. split; [done|].
      intros [[m HP]%valid_sequence_Packed _].
      by rewrite (PackedWord_Packed m) in HPW.
  - intros Hx. by rewrite init_overflow.
Qed.

(** The theorem on the documented test [PackedWord([1, 2, 1, 3]) in
    PackedWords(4)] and on a letter that does not fit. *)
Lemma PackedWords_size_contains_spec_witness :
  PackedWords_size_contains 4 [1; 2; 1; 3] = Ok true ∧
  PackedWords_size_contains 1 [2147483648] = Raise OverflowError.
Proof.
  split.
  - destruct (proj1 (PackedWords_size_contains_spec 4 [1; 2; 1; 3])) as (b & Hb & Hiff).
    { repeat constructor; unfold fits_int; lia. }
    rewrite Hb. f_equal. apply Hiff. split; [|done].
    apply valid_sequence_Packed, check_Packed. reflexivity.
  - apply (proj2 (PackedWords_size_contains_spec 1 [2147483648])).
    intros Hx. apply Forall_cons in Hx as [Hx _]. unfold fits_int in Hx. lia.
Defined.

(** ** [pack] on arbitrary sequences *)

Lemma StronglySorted_lt_lookup (l : list Z) a b x y :
  StronglySorted Z.lt l → l !! a = Some x → l !! b = Some y → (a < b)%nat → x < y.
Proof.
  intros HS. revert a b. induction HS as [|z l Hl IH Hz]; intros a b Ha Hb Hab; [done|].
  destruct b as [|b]; [lia|]. destruct a as [|a]; simpl in *.
  - injection Ha as ->. rewrite Forall_forall in Hz. apply Hz.
    by eapply list_elem_of_lookup_2.
  - eapply IH; eauto. lia.
Qed.

(** [pack] replaces every letter by its rank among the distinct letters. *)
Lemma pack_spec li :
  ∃ r, pack li = Ok r ∧ Packed (len (sorted_set li)) r ∧
       length r = length li ∧
       ∀ i j x y x' y', li !! i = Some x → li !! j = Some y →
         r !! i = Some x' → r !! j = Some y' → (x < y ↔ x' < y').
Proof.
  set (l := sorted_set li).
  set (g := λ x, match py_index l x with Ok k => Z.of_nat k + 1 | Raise _ => 0 end).
  assert (∀ x, x ∈ li →
            ∃ k, py_index l x = Ok k ∧ l !! k = Some x ∧ g x = Z.of_nat k + 1) as Hg.
  { intros x Hx. destruct (py_index_elem l x) as [k Hk]; [by apply elem_of_sorted_set|].
    exists k. split; [done|]. split; [by apply py_index_Ok in Hk as [? _]|].
    unfold g. by rewrite Hk. }
  assert (Packed (len l) (g <$> li)) as HP.
  { split; [apply len_nonneg|]. intros k. rewrite list_elem_of_fmap. split.
    - intros (x & -> & Hx). destruct (Hg x Hx) as (i & Hi & _ & ->).
      apply py_index_lt in Hi. unfold len. lia.
    - intros Hk.
      assert (is_Some (l !! Z.to_nat (k - 1))) as [x Hx]
        by (apply lookup_lt_is_Some; unfold len in Hk; lia).
      exists x. split.
      + unfold g. rewrite (py_index_NoDup l x (Z.to_nat (k - 1)));
          [lia|apply NoDup_sorted_set|done].
      + apply elem_of_sorted_set. by eapply list_elem_of_lookup_2. }
  exists (g <$> li). split_and!.
  - unfold pack. fold l. rewrite (mapM_result_ext_ok _ g).
    + simpl. by apply (PackedWord_Packed (len l)).
    + intros x Hx. by destruct (Hg x Hx) as (k & -> & _ & ->).
  - done.
  - by rewrite length_fmap.
  - intros i j x y x' y' Hx Hy. rewrite !list_lookup_fmap, Hx, Hy. simpl.
    intros [= <-] [= <-].
    destruct (Hg x) as (a & _ & Ha & ->); [by eapply list_elem_of_lookup_2|].
    destruct (Hg y) as (b & _ & Hb & ->); [by eapply list_elem_of_lookup_2|].
    pose proof (StronglySorted_sorted_set li) as HS. fold l in HS.
    split.
    + intros Hxy. destruct (decide (a < b)%nat); [lia|]. exfalso.
      destruct (decide (a = b)) as [->|]; [rewrite Ha in Hb; injection Hb; lia|].
      assert (y < x) by (eapply (StronglySorted_lt_lookup l b a); eauto; lia). lia.
    + intros Hab. eapply (StronglySorted_lt_lookup l a b); eauto. lia.
Qed.

Lemma pack_total li : ∃ r m, pack li = Ok r ∧ Packed m r ∧ length r = length li.
Proof. destruct (pack_spec li) as (r & ? & ? & ? & _). eauto. Qed.

(** X9: [pack] never raises: on every sequence of integers it returns a
    valid packed word of the same length whose letters compare as the
    letters of the sequence do (the analogue of standardization). *)
Theorem pack_order_isomorphic (li : list Z) :
  ∃ r, pack li = Ok r ∧ check r = Ok () ∧ length r = length li ∧
       ∀ i j x y x' y', li !! i = Some x → li !! j = Some y →
         r !! i = Some x' → r !! j = Some y' → (x < y ↔ x' < y').
Proof.
  destruct (pack_spec li) as (r & Hr & HP & Hlen & Hord).
  exists r. split_and!; try done. apply check_Packed. eauto.
Qed.

(** X10: the packed words are exactly the fixed points of [pack], and
    [pack] is idempotent. *)
Theorem pack_idempotent (li : list Z) :
  (pack li = Ok li ↔ check li = Ok ()) ∧
  pack li ≫= pack = pack li.
Proof.
  split.
  - split.
    + unfold pack. intros (lst & _ & H)%bind_Ok_inv.
      apply PackedWord_Ok_inv in H as [-> HP]. by apply check_Packed.
    + intros [m HP]%check_Packed. by apply (pack_Packed m).
  - destruct (pack_spec li) as (r & -> & HP & _). rewrite bind_Ok.
    by apply (pack_Packed _ _ HP).
Qed.

(** ** Global descents and ascents, by membership *)

Lemma cuts_lookup w d :
  cuts w d ↔
  ∀ i j x y, w !! i = Some x → w !! j = Some y → (i < d ≤ j)%nat → y < x.
Proof.
  rewrite cuts_spec. split.
  - intros Hc i j x y Hx Hy Hij. apply Hc.
    + apply elem_of_take. exists i. split; [done|lia].
    + apply list_elem_of_lookup. exists (j - d)%nat. rewrite lookup_drop.
      by replace (d + (j - d))%nat with j by lia.
  - intros Hc a b (i & Hi & Hlt)%elem_of_take (j & Hj)%list_elem_of_lookup.
    rewrite lookup_drop in Hj. apply (Hc i (d + j)%nat); [done|done|lia].
Qed.

Lemma ascends_lookup w d :
  ascends w d ↔
  ∀ i j x y, w !! i = Some x → w !! j = Some y → (i < d ≤ j)%nat → x < y.
Proof.
  unfold ascends. rewrite Forall_forall. setoid_rewrite Forall_forall. split.
  - intros Hc i j x y Hx Hy Hij. apply Hc.
    + apply elem_of_take. exists i. split; [done|lia].
    + apply list_elem_of_lookup. exists (j - d)%nat. rewrite lookup_drop.
      by replace (d + (j - d))%nat with j by lia.
  - intros Hc a (i & Hi & Hlt)%elem_of_take b (j & Hj)%list_elem_of_lookup.
    rewrite lookup_drop in Hj. apply (Hc i (d + j)%nat); [done|done|lia].
Qed.

Lemma StronglySorted_filter {A} (R : relation A) (P : A → Prop)
    `{∀ x, Decision (P x)} l :
  StronglySorted R l → StronglySorted R (filter P l).
Proof.
  induction 1 as [|x l Hl IH Hx]; [constructor|].
  rewrite filter_cons. case_decide; [|done].
  constructor; [done|]. rewrite Forall_forall in Hx. apply Forall_forall.
  intros y [_ Hy]%list_elem_of_filter. by apply Hx.
Qed.

Lemma StronglySorted_seq a k : StronglySorted lt (seq a k).
Proof.
  revert a. induction k as [|k IH]; intros a; [constructor|].
  simpl. constructor; [apply IH|]. apply Forall_forall. intros y Hy%elem_of_seq. lia.
Qed.

Lemma StronglySorted_positions (P : nat → Prop) `{∀ x, Decision (P x)} a k :
  StronglySorted Z.lt (Z.of_nat <$> filter P (seq a k)).
Proof.
  apply (StronglySorted_fmap _ lt); [intros x y; lia|].
  apply StronglySorted_filter, StronglySorted_seq.
Qed.

Lemma global_descents_eq w :
  Forall (λ a, 0 < a) w →
  global_descents false false w
  = Z.of_nat <$> filter (cuts w) (seq 1 (length w - 1)).
Proof.
  intros Hpos. unfold global_descents.
  by rewrite global_descents_pos_spec, app_nil_r.
Qed.

(** X11: the global descents of a packed word are, in increasing order,
    exactly the positions [d] (counted from 1, [1 <= d < len(w)]) such that
    every letter at a position [<= d] exceeds every letter at a position
    [> d]; [final_descent] appends [len(w)] and [from_zero] shifts every
    position by one. *)
Theorem global_descents_spec (w : list Z) :
  check w = Ok () →
  (∀ d, d ∈ global_descents false false w ↔
        1 ≤ d < len w ∧
        ∀ i j x y, w !! i = Some x → w !! j = Some y →
                   Z.of_nat i + 1 ≤ d < Z.of_nat j + 1 → y < x) ∧
  StronglySorted Z.lt (global_descents false false w) ∧
  global_descents true false w = global_descents false false w ++ [len w] ∧
  global_descents false true w = (λ d, d - 1) <$> global_descents false false w.
Proof.
  intros [m HP]%check_Packed. pose proof (Packed_pos m w HP) as Hpos.
  rewrite global_descents_eq by done. split_and!.
  - intros d. rewrite list_elem_of_fmap. setoid_rewrite list_elem_of_filter.
    setoid_rewrite elem_of_seq. setoid_rewrite cuts_lookup. unfold len. split.
    + intros (k & -> & Hc & Hk). split; [lia|].
      intros i j x y Hx Hy Hij. apply (Hc i j); [done|done|lia].
    + intros [Hd Hc]. exists (Z.to_nat d). split; [lia|]. split; [|lia].
      intros i j x y Hx Hy Hij. apply (Hc i j); [done|done|lia].
  - apply StronglySorted_positions.
  - unfold global_descents. rewrite global_descents_pos_spec by done.
    by rewrite fmap_app.
  - unfold global_descents. by rewrite global_descents_pos_spec, app_nil_r by done.
Qed.

Lemma global_descents_spec_witness :
  (∀ d, d ∈ global_descents false false [7; 5; 4; 6; 3; 1; 2; 1] ↔
        1 ≤ d < len [7; 5; 4; 6; 3; 1; 2; 1] ∧
        ∀ i j x y, [7; 5; 4; 6; 3; 1; 2; 1] !! i = Some x →
                   [7; 5; 4; 6; 3; 1; 2; 1] !! j = Some y →
                   Z.of_nat i + 1 ≤ d < Z.of_nat j + 1 → y < x) ∧
  StronglySorted Z.lt (global_descents false false [7; 5; 4; 6; 3; 1; 2; 1]) ∧
  global_descents true false [7; 5; 4; 6; 3; 1; 2; 1]
  = global_descents false false [7; 5; 4; 6; 3; 1; 2; 1] ++ [len [7; 5; 4; 6; 3; 1; 2; 1]] ∧
  global_descents false true [7; 5; 4; 6; 3; 1; 2; 1]
  = (λ d, d - 1) <$> global_descents false false [7; 5; 4; 6; 3; 1; 2; 1].
Proof. apply (global_descents_spec [7; 5; 4; 6; 3; 1; 2; 1]). by vm_compute. Defined.

Lemma max_with_snoc d l x : max_with d (l ++ [x]) = Z.max (max_with d l) x.
Proof. unfold max_with. induction l as [|y l IH]; simpl; lia. Qed.

(** The test of the loop of [global_ascents] is [ascends]. *)
Lemma global_ascent_test w i :
  Forall (λ a, 0 < a) w → (0 < i < length w)%nat →
  max_with 0 (take i w) < min_with (pw_max w) (drop i w) ↔ ascends w i.
Proof.
  intros Hpos Hi. rewrite Forall_forall in Hpos.
  unfold ascends. rewrite Forall_forall. setoid_rewrite Forall_forall.
  rewrite min_with_gt. setoid_rewrite max_with_lt. split.
  - intros [_ Hlt] a Ha b Hb. by apply (Hlt b Hb).
  - intros Hasc.
    assert (is_Some (w !! i)) as [z Hz] by (apply lookup_lt_is_Some; lia).
    assert (z ∈ drop i w) as Hzd.
    { apply list_elem_of_lookup. exists 0%nat. rewrite lookup_drop.
      by replace (i + 0)%nat with i by lia. }
    assert (z ∈ w) as Hzw by (by eapply list_elem_of_lookup_2).
    pose proof (pw_max_ge w z Hzw) as Hmax. pose proof (Hpos z Hzw).
    split.
    + split; [lia|]. intros a Ha. specialize (Hasc a Ha z Hzd). lia.
    + intros b Hb. split; [apply Hpos; by eapply in_drop|].
      intros a Ha. by apply Hasc.
Qed.

Lemma global_ascents_loop w k :
  Forall (λ a, 0 < a) w → (k ≤ length w - 1)%nat →
  foldl (λ '(local_left_max, g) i,
           let local_left_max := Z.max local_left_max (w !!! (i - 1)%nat) in
           if decide (local_left_max < min_with (pw_max w) (drop i w))
           then (local_left_max, g ++ [S i])
           else (local_left_max, g))
        (0, []) (seq 1 k)
  = (max_with 0 (take k w), S <$> filter (ascends w) (seq 1 k)).
Proof.
  intros Hpos. induction k as [|k IH]; intros Hk; [done|].
  rewrite !seq_S, foldl_app, filter_app, fmap_app, IH by lia. simpl.
  replace (k - 0)%nat with k by lia.
  assert (is_Some (w !! k)) as [x Hx] by (apply lookup_lt_is_Some; lia).
  rewrite (take_S_r _ _ _ Hx), max_with_snoc.
  rewrite <- (list_lookup_total_correct _ _ _ Hx).
  pose proof (global_ascent_test w (S k) Hpos ltac:(lia)) as Htest.
  rewrite (take_S_r _ _ _ Hx), max_with_snoc in Htest.
  rewrite <- (list_lookup_total_correct _ _ _ Hx) in Htest.
  destruct (decide (ascends w (S k))) as [Hc|Hc].
  - rewrite decide_True by (by apply Htest). by rewrite filter_cons_True.
  - rewrite decide_False by (by rewrite Htest). rewrite filter_cons_False by done.
    by rewrite app_nil_r.
Qed.

Lemma global_ascents_pos_spec ia w :
  Forall (λ a, 0 < a) w → w ≠ [] →
  global_ascents_pos ia w
  = (if ia then [1%nat] else []) ++ (S <$> filter (ascends w) (seq 1 (length w - 1))).
Proof.
  intros Hpos Hw. unfold global_ascents_pos. destruct w as [|x w']; [done|].
  rewrite global_ascents_loop by (done || lia). by destruct ia.
Qed.

(** X12: the global ascents of a packed word are, in increasing order,
    exactly the positions [d] (counted from 1, [2 <= d <= len(w)]) such that
    every letter at a position [< d] is smaller than every letter at a
    position [>= d]; the empty word has none, whatever the flags. *)
Theorem global_ascents_spec (w : list Z) :
  check w = Ok () →
  (∀ d, d ∈ global_ascents false false w ↔
        2 ≤ d ≤ len w ∧
        ∀ i j x y, w !! i = Some x → w !! j = Some y →
                   Z.of_nat i + 1 < d ≤ Z.of_nat j + 1 → x < y) ∧
  StronglySorted Z.lt (global_ascents false false w) ∧
  (w ≠ [] → global_ascents true false w = 1 :: global_ascents false false w) ∧
  (∀ ia fz, global_ascents ia fz [] = []).
Proof.
  intros [m HP]%check_Packed. pose proof (Packed_pos m w HP) as Hpos.
  destruct (decide (w = [])) as [->|Hw].
  { split_and!; [|constructor|done|by intros [] []].
    intros d. split; [by intros ?%elem_of_nil|]. unfold len. simpl. lia. }
  unfold global_ascents. rewrite !global_ascents_pos_spec by done. simpl.
  rewrite <- list_fmap_compose. split_and!.
  - intros d. rewrite list_elem_of_fmap. setoid_rewrite list_elem_of_filter.
    setoid_rewrite elem_of_seq. setoid_rewrite ascends_lookup. unfold len. split.
    + intros (k & -> & Hc & Hk). simpl. split; [lia|].
      intros i j x y Hx Hy Hij. apply (Hc i j); [done|done|lia].
    + intros [Hd Hc]. exists (Z.to_nat (d - 1)). simpl. split; [lia|]. split; [|lia].
      intros i j x y Hx Hy Hij. apply (Hc i j); [done|done|lia].
  - apply (StronglySorted_fmap _ lt); [intros x y; simpl; lia|].
    apply StronglySorted_filter, StronglySorted_seq.
  - intros _. by rewrite <- list_fmap_compose.
  - by intros [] [].
Qed.

Lemma global_ascents_spec_witness :
  (∀ d, d ∈ global_ascents false false [3; 1; 2; 1; 4; 6; 6; 5; 7; 8; 7] ↔
        2 ≤ d ≤ len [3; 1; 2; 1; 4; 6; 6; 5; 7; 8; 7] ∧
        ∀ i j x y, [3; 1; 2; 1; 4; 6; 6; 5; 7; 8; 7] !! i = Some x →
                   [3; 1; 2; 1; 4; 6; 6; 5; 7; 8; 7] !! j = Some y →
                   Z.of_nat i + 1 < d ≤ Z.of_nat j + 1 → x < y) ∧
  StronglySorted Z.lt (global_ascents false false [3; 1; 2; 1; 4; 6; 6; 5; 7; 8; 7]) ∧
  ([3; 1; 2; 1; 4; 6; 6; 5; 7; 8; 7] ≠ [] →
   global_ascents true false [3; 1; 2; 1; 4; 6; 6; 5; 7; 8; 7]
   = 1 :: global_ascents false false [3; 1; 2; 1; 4; 6; 6; 5; 7; 8; 7]) ∧
  (∀ ia fz, global_ascents ia fz [] = []).
Proof. apply (global_ascents_spec [3; 1; 2; 1; 4; 6; 6; 5; 7; 8; 7]). by vm_compute. Defined.

(** X13: complementing a packed word turns its global descents into global
    ascents: the global ascents of the complement are the global descents
    of the word, each moved one position to the right. *)
Theorem global_ascents_complement (w : list Z) :
  check w = Ok () →
  ∃ c, complement w = Ok c ∧
       global_ascents false false c = (λ d, d + 1) <$> global_descents false false w.
Proof.
  intros [m HP]%check_Packed. pose proof (Packed_pos m w HP) as Hpos.
  exists ((λ i, m + 1 - i) <$> w). split; [by apply complement_Packed|].
  destruct (decide (w = [])) as [->|Hw]; [done|].
  pose proof (Packed_complement m w HP) as HP'.
  rewrite global_descents_eq by done. unfold global_ascents.
  rewrite global_ascents_pos_spec by (by eauto using Packed_pos || by destruct w).
  simpl. rewrite <- !list_fmap_compose, length_fmap.
  assert (filter (ascends ((λ i, m + 1 - i) <$> w)) (seq 1 (length w - 1))
          = filter (cuts w) (seq 1 (length w - 1))) as ->.
  { apply list_filter_iff. intros d. rewrite ascends_lookup, cuts_lookup. split.
    - intros Ha i j x y Hx Hy Hij.
      specialize (Ha i j (m + 1 - x) (m + 1 - y)).
      rewrite !list_lookup_fmap, Hx, Hy in Ha. specialize (Ha eq_refl eq_refl Hij). lia.
    - intros Hc i j x y. rewrite !list_lookup_fmap.
      intros (x0 & Hx & ->)%fmap_Some (y0 & Hy & ->)%fmap_Some Hij.
      specialize (Hc i j x0 y0 Hx Hy Hij). lia. }
  apply list_fmap_ext. intros _ d _. simpl. lia.
Qed.

Lemma global_ascents_complement_witness :
  ∃ c, complement [7; 5; 4; 6; 3; 1; 2; 1] = Ok c ∧
       global_ascents false false c
       = (λ d, d + 1) <$> global_descents false false [7; 5; 4; 6; 3; 1; 2; 1].
Proof. apply (global_ascents_complement [7; 5; 4; 6; 3; 1; 2; 1]). by vm_compute. Defined.

(** ** The factorization at global descents *)

Lemma gdf_loop_length w i rest ps :
  gdf_loop w i rest = Ok ps → length ps = length rest.
Proof.
  revert i ps. induction rest as [|j rest IH]; intros i ps; simpl.
  - by intros [= <-].
  - intros (p & _ & H)%bind_Ok_inv. apply bind_Ok_inv in H as (ps' & Hps & [= <-]).
    simpl. f_equal. eauto.
Qed.

(** X14: on a non-empty packed word the factorization at global descents
    returns one factor more than there are global descents; every factor is
    a non-empty packed word without global descent, the sizes of the factors
    add up to the size of the word and their maxima to its maximum, and the
    shifted concatenation of the decoders rebuilds the word from them. *)
Theorem global_descents_factorization_spec (w : list Z) :
  check w = Ok () → w ≠ [] →
  ∃ Fs, global_descents_factorization w = Ok Fs ∧
        length Fs = S (length (global_descents false false w)) ∧
        Forall (λ F, check F = Ok () ∧ F ≠ [] ∧ global_descents false false F = []) Fs ∧
        sum_list_Z (len <$> Fs) = len w ∧
        sum_list_Z (pw_max <$> Fs) = pw_max w ∧
        foldM_result l_shifted_concat Fs [] = Ok w.
Proof.
  intros [m HP]%check_Packed Hw. pose proof (Packed_pos m w HP) as Hpos.
  destruct (gdf_Factorization w m HP Hw) as (Fs & HFs & HFact).
  exists Fs. split_and!; [done|..].
  - rewrite gdf_unfold in HFs by done. apply gdf_loop_length in HFs.
    rewrite HFs, global_descents_eq, length_app, length_fmap by done. simpl. lia.
  - eapply Forall_impl; [apply (Factorization_Forall _ _ HFact)|].
    intros F (HPF & HF & Hirr & _). split_and!; [apply check_Packed; eauto|done|].
    by apply (no_global_descents_irreducible _ _ HPF).
  - symmetry. by apply Factorization_len.
  - symmetry. by apply Factorization_pw_max.
  - by apply shifted_concat_Factorization.
Qed.

Lemma global_descents_factorization_spec_witness :
  ∃ Fs, global_descents_factorization [5; 4; 3; 4; 1; 2; 1] = Ok Fs ∧
        length Fs = S (length (global_descents false false [5; 4; 3; 4; 1; 2; 1])) ∧
        Forall (λ F, check F = Ok () ∧ F ≠ [] ∧ global_descents false false F = []) Fs ∧
        sum_list_Z (len <$> Fs) = len [5; 4; 3; 4; 1; 2; 1] ∧
        sum_list_Z (pw_max <$> Fs) = pw_max [5; 4; 3; 4; 1; 2; 1] ∧
        foldM_result l_shifted_concat Fs [] = Ok [5; 4; 3; 4; 1; 2; 1].
Proof.
  apply (global_descents_factorization_spec [5; 4; 3; 4; 1; 2; 1]); by vm_compute.
Defined.

(** ** The factorization at global ascents *)

Lemma mapM_result_ext {A B} (f g : A → result B) l :
  (∀ x, x ∈ l → f x = g x) → mapM_result f l = mapM_result g l.
Proof.
  induction l as [|x l IH]; intros Hfg; [done|].
  change (f x ≫= (λ y, mapM_result f l ≫= λ ys, Ok (y :: ys))
          = g x ≫= (λ y, mapM_result g l ≫= λ ys, Ok (y :: ys))).
  rewrite Hfg by left. rewrite IH; [done|]. intros y Hy. apply Hfg. by right.
Qed.

Lemma mapM_result_cons {A B} (f : A → result B) x l :
  mapM_result f (x :: l) = y ← f x; ys ← mapM_result f l; Ok (y :: ys).
Proof. reflexivity. Qed.

Lemma mapM_result_fmap {A B C} (f : B → result C) (g : A → B) l :
  mapM_result f (g <$> l) = mapM_result (f ∘ g) l.
Proof.
  induction l as [|x l IH]; [done|].
  by rewrite fmap_cons, !mapM_result_cons, IH.
Qed.

(** The comprehension over the indices of [g_a] runs over its consecutive
    slices. *)
Lemma gaf_pieces w a (bounds : list nat) :
  mapM_result (λ i, x ← py_get (Z.of_nat <$> a :: bounds) i;
                    y ← py_get (Z.of_nat <$> a :: bounds) (S i);
                    pack (slice (Z.to_nat x) (Z.to_nat y) w))
              (seq 0 (length bounds))
  = mapM_result pack (pieces w a bounds).
Proof.
  revert a. induction bounds as [|b bounds IH]; intros a; [done|].
  simpl length. rewrite <- cons_seq, <- fmap_S_seq, mapM_result_cons, mapM_result_fmap.
  simpl pieces. rewrite mapM_result_cons, <- IH, !fmap_cons.
  rewrite py_get_head, bind_Ok.
  change (py_get (Z.of_nat a :: Z.of_nat b :: (Z.of_nat <$> bounds)) 1)
    with (Ok (Z.of_nat b)).
  rewrite bind_Ok, !Nat2Z.id.
  f_equal.
Qed.

Lemma lookup_slice {A} (w : list A) a b i :
  (a + i < b)%nat → slice a b w !! i = w !! (a + i)%nat.
Proof. intros Hi. unfold slice. by rewrite lookup_drop, lookup_take_lt. Qed.

Lemma length_slice {A} (w : list A) a b :
  (a ≤ b ≤ length w)%nat → length (slice a b w) = (b - a)%nat.
Proof. intros Hab. unfold slice. rewrite length_drop, length_take. lia. Qed.

(** An ascending cut inside a slice between two ascending cuts is an
    ascending cut of the word. *)
Lemma ascends_slice w a b e :
  (a = 0%nat ∨ ascends w a) → (b = length w ∨ ascends w b) →
  (a ≤ b ≤ length w)%nat → (0 < e < b - a)%nat →
  ascends (slice a b w) e → ascends w (a + e).
Proof.
  rewrite !ascends_lookup. intros Ha Hb Hab He Hs i j x y Hx Hy Hij.
  pose proof (lookup_lt_Some _ _ _ Hx). pose proof (lookup_lt_Some _ _ _ Hy).
  destruct (decide (i < a)%nat) as [Hia|Hia].
  { destruct Ha as [->|Ha]; [lia|]. apply (Ha i j); [done|done|lia]. }
  destruct (decide (b ≤ j)%nat) as [Hbj|Hbj].
  { destruct Hb as [->|Hb]; [lia|]. apply (Hb i j); [done|done|lia]. }
  apply (Hs (i - a)%nat (j - a)%nat); [| |lia].
  - rewrite lookup_slice by lia. by replace (a + (i - a))%nat with i by lia.
  - rewrite lookup_slice by lia. by replace (a + (j - a))%nat with j by lia.
Qed.

(** [pack] keeps the ascending cuts. *)
Lemma ascends_pack li r e :
  length r = length li →
  (∀ i j x y x' y', li !! i = Some x → li !! j = Some y →
     r !! i = Some x' → r !! j = Some y' → (x < y ↔ x' < y')) →
  ascends r e → ascends li e.
Proof.
  rewrite !ascends_lookup. intros Hlen Hord Hr i j x y Hx Hy Hij.
  assert (is_Some (r !! i)) as [x' Hx'].
  { apply lookup_lt_is_Some. rewrite Hlen. by eapply lookup_lt_Some. }
  assert (is_Some (r !! j)) as [y' Hy'].
  { apply lookup_lt_is_Some. rewrite Hlen. by eapply lookup_lt_Some. }
  apply (Hord i j x y x' y'); try done. by apply (Hr i j).
Qed.

Lemma no_ascents_inside w a b F m :
  (a = 0%nat ∨ ascends w a) → (b = length w ∨ ascends w b) →
  (a < b ≤ length w)%nat →
  (∀ e, (a < e < b)%nat → ¬ ascends w e) →
  pack (slice a b w) = Ok F → Packed m F →
  F ≠ [] ∧ length F = (b - a)%nat ∧ global_ascents false false F = [].
Proof.
  intros Ha Hb Hab Hnone HF HPF.
  destruct (pack_spec (slice a b w)) as (r & Hr & _ & Hlen & Hord).
  rewrite HF in Hr. injection Hr as <-.
  rewrite length_slice in Hlen by lia.
  assert (F ≠ []) as HFne by (intros ->; simpl in Hlen; lia).
  split_and!; [done..|].
  unfold global_ascents.
  rewrite global_ascents_pos_spec by (done || by eapply Packed_pos). simpl.
  rewrite filter_none; [done|]. apply Forall_forall. intros e He%elem_of_seq Hasc.
  apply (Hnone (a + e)%nat); [lia|].
  apply (ascends_slice w a b e); [done|done|lia|lia|].
  apply (ascends_pack _ F); [by rewrite length_slice by lia|done|done].
Qed.

Lemma gaf_loop w k : ∀ a,
  (a = 0%nat ∨ ascends w a) → (length w = S a + k)%nat →
  ∃ Fs, mapM_result pack
          (pieces w a (filter (ascends w) (seq (S a) k) ++ [length w])) = Ok Fs ∧
        length Fs = S (length (filter (ascends w) (seq (S a) k))) ∧
        Forall (λ F, check F = Ok () ∧ F ≠ [] ∧ global_ascents false false F = []) Fs ∧
        sum_list_Z (len <$> Fs) = Z.of_nat (length w - a).
Proof.
  induction k as [k IH] using lt_wf_ind. intros a Ha Hlen.
  destruct (filter (ascends w) (seq (S a) k)) as [|d ds] eqn:Hf.
  - destruct (pack_total (slice a (length w) w)) as (F & m & HF & HPF & _).
    simpl pieces. rewrite mapM_result_cons, HF. exists [F]. split; [done|]. split; [done|].
    destruct (no_ascents_inside w a (length w) F m) as (HFne & HlF & Hga);
      [done|by left|lia| |done|done|].
    { intros e He Hasc. eapply (filter_nil_not_elem_of _ _ e); [exact Hf|done|].
      apply elem_of_seq. lia. }
    split.
    + constructor; [|constructor]. split_and!; [apply check_Packed; eauto|done..].
    + simpl. unfold len. rewrite HlF. lia.
  - apply filter_seq_cons in Hf as (Hd & HPd & Hnone & ->).
    destruct (pack_total (slice a d w)) as (F & m & HF & HPF & _).
    rewrite <- app_comm_cons. cbn [pieces]. rewrite mapM_result_cons, HF, bind_Ok.
    destruct (no_ascents_inside w a d F m) as (HFne & HlF & Hga);
      [done|by right|lia| |done|done|].
    { intros e He. apply Hnone. lia. }
    destruct (IH (S a + k - S d)%nat ltac:(lia) d ltac:(by right) ltac:(lia))
      as (Fs & HFs & HlFs & Hall & Hsum).
    rewrite HFs, bind_Ok. exists (F :: Fs). split; [done|]. split_and!.
    + simpl. by rewrite HlFs.
    + constructor; [|done]. split_and!; [apply check_Packed; eauto|done..].
    + rewrite fmap_cons, sum_list_Z_cons, Hsum. unfold len. rewrite HlF. lia.
Qed.

(** X15: on a non-empty packed word the factorization at global ascents
    never raises and returns one factor more than there are global ascents;
    every factor is a non-empty packed word without global ascent, and the
    sizes of the factors add up to the size of the word. *)
Theorem global_ascents_factorization_spec (w : list Z) :
  check w = Ok () → w ≠ [] →
  ∃ Fs, global_ascents_factorization w = Ok Fs ∧
        length Fs = S (length (global_ascents false false w)) ∧
        Forall (λ F, check F = Ok () ∧ F ≠ [] ∧ global_ascents false false F = []) Fs ∧
        sum_list_Z (len <$> Fs) = len w.
Proof.
  intros [m HP]%check_Packed Hw. pose proof (Packed_pos m w HP) as Hpos.
  assert (0 < length w)%nat as Hlen by (destruct w; [done|simpl; lia]).
  set (A := filter (ascends w) (seq 1 (length w - 1))).
  assert (global_ascents true true w = Z.of_nat <$> 0%nat :: A) as Hga.
  { unfold global_ascents. rewrite global_ascents_pos_spec by done.
    fold A. change ([1%nat] ++ (S <$> A)) with (1%nat :: (S <$> A)).
    rewrite !fmap_cons. f_equal.
    rewrite <- !list_fmap_compose. apply list_fmap_ext. intros ? x _. simpl. lia. }
  assert (length (global_ascents false false w) = length A) as HlA.
  { unfold global_ascents. rewrite global_ascents_pos_spec by done.
    fold A. rewrite app_nil_l. by rewrite !length_fmap. }
  unfold global_ascents_factorization. rewrite Hga, decide_False by done.
  assert ((Z.of_nat <$> 0%nat :: A) ++ [len w]
          = Z.of_nat <$> 0%nat :: (A ++ [length w])) as ->.
  { by rewrite !fmap_cons, fmap_app. }
  rewrite length_fmap. cbn [length].
  replace (S (length (A ++ [length w])) - 1)%nat
    with (length (A ++ [length w])) by lia.
  rewrite gaf_pieces.
  destruct (gaf_loop w (length w - 1) 0%nat ltac:(by left) ltac:(lia))
    as (Fs & HFs & HlFs & Hall & Hsum).
  exists Fs. fold A in HFs, HlFs. split_and!; [done| |done|].
  - by rewrite HlFs, HlA.
  - rewrite Hsum. unfold len. lia.
Qed.

Lemma global_ascents_factorization_spec_witness :
  ∃ Fs, global_ascents_factorization [3; 1; 2; 1; 4; 6; 6; 5; 7; 8; 7] = Ok Fs ∧
        length Fs = S (length (global_ascents false false [3; 1; 2; 1; 4; 6; 6; 5; 7; 8; 7])) ∧
        Forall (λ F, check F = Ok () ∧ F ≠ [] ∧ global_ascents false false F = []) Fs ∧
        sum_list_Z (len <$> Fs) = len [3; 1; 2; 1; 4; 6; 6; 5; 7; 8; 7].
Proof.
  apply (global_ascents_factorization_spec [3; 1; 2; 1; 4; 6; 6; 5; 7; 8; 7]);
    by vm_compute.
Defined.

(** ** The particularity predicate *)

(** X16: on a non-empty packed word [is_particular] never raises, for
    either side: it is true on the words of size one and false on the
    longer words that have a global descent. *)
Theorem is_particular_total (w : list Z) (sd : side) :
  check w = Ok () → w ≠ [] →
  ∃ b, is_particular w sd = Ok b ∧
       (length w = 1%nat → b = true) ∧
       ((1 < length w)%nat → global_descents false false w ≠ [] → b = false).
Proof.
  intros [m HP]%check_Packed Hw. unfold is_particular.
  rewrite decide_False by done.
  destruct (decide (length w = 1%nat)) as [H1|H1].
  { exists true. split; [done|]. split; [done|]. lia. }
  assert (global_descents false false w ≠ [] ↔ global_descents_pos false w ≠ []) as Hgd.
  { unfold global_descents. by destruct (global_descents_pos false w). }
  destruct (decide (global_descents_pos false w ≠ [])) as [Hd|Hd].
  { exists false. split; [done|]. split; [lia|done]. }
  assert (∀ b : bool, (length w = 1%nat → b = true) ∧
            ((1 < length w)%nat → global_descents false false w ≠ [] → b = false)) as Hany.
  { intros b. split; [lia|]. intros _ Hne. by apply Hgd in Hne. }
  pose proof (Packed_nonempty m w HP Hw) as Hm.
  destruct sd.
  - destruct (pack_total (slice_to (-1) w)) as (r & mr & -> & HPr & _). rewrite bind_Ok.
    case_decide; eauto.
  - rewrite (Packed_py_max m) by done. rewrite bind_Ok.
    rewrite (PackedWord_Packed (m - 1)) by (by apply Packed_remove_max). rewrite bind_Ok.
    case_decide as Hpm; [eauto|].
    destruct (Packed_index m w m HP ltac:(lia)) as [i ->]. rewrite bind_Ok.
    rewrite global_descents_pos_spec
      by (eapply Packed_pos; by apply (Packed_remove_max m w)).
    destruct (filter _ (seq 1 _)) as [|d ds]; simpl; eauto.
Qed.

Lemma is_particular_total_witness :
  ∃ b, is_particular [2; 1; 2] Left = Ok b ∧
       (length [2; 1; 2] = 1%nat → b = true) ∧
       ((1 < length [2; 1; 2])%nat → global_descents false false [2; 1; 2] ≠ [] → b = false).
Proof. apply (is_particular_total [2; 1; 2] Left); by vm_compute. Defined.

(** ** The four kinds of inversions *)

Lemma inversions_right_gen sp fz w :
  ∃ I, inversions Right (Some sp) fz w = Ok I ∧
       ∀ pr, pr ∈ I ↔
             ∃ (a b : nat) x y,
               (a < b)%nat ∧ w !! a = Some x ∧ w !! b = Some y ∧ x > y ∧
               pr = match sp with
                    | Position => (Z.of_nat a + 1 - Z.b2z fz, Z.of_nat b + 1 - Z.b2z fz)
                    | Value => (x, y)
                    end.
Proof.
  unfold inversions. destruct (decide (w = [])) as [->|Hw].
  { exists ∅. split; [done|]. intros pr. split; [by intros ?%not_elem_of_empty|].
    by intros (a & b & x & y & _ & Ha & _). }
  eexists. split; [done|]. intros pr.
  rewrite elem_of_list_to_set, list_elem_of_bind. split.
  - intros (a & Hin & Ha%elem_of_seq).
    apply list_elem_of_bind in Hin as (b & Hin & Hb%elem_of_seq).
    assert (is_Some (w !! a)) as [x Hx] by (apply lookup_lt_is_Some; lia).
    assert (is_Some (w !! b)) as [y Hy] by (apply lookup_lt_is_Some; lia).
    rewrite (lookup_total_Some _ _ _ Hx), (lookup_total_Some _ _ _ Hy) in Hin.
    case_decide; [|by apply elem_of_nil in Hin].
    apply list_elem_of_singleton in Hin as ->.
    exists a, b, x, y. split_and!; try done. lia.
  - intros (a & b & x & y & Hab & Hx & Hy & Hxy & ->).
    pose proof (lookup_lt_Some _ _ _ Hx). pose proof (lookup_lt_Some _ _ _ Hy).
    exists a. split; [|apply elem_of_seq; lia].
    apply list_elem_of_bind. exists b. split; [|apply elem_of_seq; lia].
    rewrite (lookup_total_Some _ _ _ Hx), (lookup_total_Some _ _ _ Hy).
    rewrite decide_True by done. left.
Qed.

(** X17: the right inversions of any word never raise.  On positions (the
    default support) they are the pairs of positions [i < j] with
    [w_i > w_j], counted from 1, or from 0 with [from_zero]; on values they
    are the pairs of letters [(w_i, w_j)] of those positions, whatever
    [from_zero]; the inversions on values are the image of the inversions on
    positions under the letters. *)
Theorem inversions_right (w : list Z) (fz : bool) :
  ∃ Ip Iv,
    inversions Right None fz w = Ok Ip ∧
    inversions Right (Some Position) fz w = Ok Ip ∧
    inversions Right (Some Value) fz w = Ok Iv ∧
    (∀ p q, (p, q) ∈ Ip ↔
            ∃ (a b : nat) x y,
              p = Z.of_nat a + 1 - Z.b2z fz ∧ q = Z.of_nat b + 1 - Z.b2z fz ∧
              (a < b)%nat ∧ w !! a = Some x ∧ w !! b = Some y ∧ x > y) ∧
    (∀ x y, (x, y) ∈ Iv ↔
            ∃ a b : nat, (a < b)%nat ∧ w !! a = Some x ∧ w !! b = Some y ∧ x > y) ∧
    (∀ x y, (x, y) ∈ Iv ↔
            ∃ a b : nat, (Z.of_nat a + 1 - Z.b2z fz, Z.of_nat b + 1 - Z.b2z fz) ∈ Ip ∧
                         w !! a = Some x ∧ w !! b = Some y).
Proof.
  destruct (inversions_right_gen Position fz w) as (Ip & HIp & Hp).
  destruct (inversions_right_gen Value fz w) as (Iv & HIv & Hv).
  exists Ip, Iv. split_and!; [done..| | |].
  - intros p q. rewrite Hp. split.
    + intros (a & b & x & y & ? & ? & ? & ? & [= -> ->]). eauto 10.
    + intros (a & b & x & y & -> & -> & ? & ? & ? & ?). eauto 10.
  - intros x y. rewrite Hv. split.
    + intros (a & b & x' & y' & ? & ? & ? & ? & [= -> ->]). eauto 10.
    + intros (a & b & ? & ? & ? & ?). eauto 10.
  - intros x y. rewrite Hv. setoid_rewrite Hp. split.
    + intros (a & b & x' & y' & ? & ? & ? & ? & [= -> ->]).
      exists a, b. split; [|done]. eauto 10.
    + intros (a & b & (a' & b' & x' & y' & ? & Ha & Hb & ? & [= Ea Eb]) & Hx & Hy).
      assert (a' = a) as -> by lia. assert (b' = b) as -> by lia.
      rewrite Hx in Ha. rewrite Hy in Hb. simplify_eq. eauto 10.
Qed.

(** The position (from 0) of the last occurrence of a letter. *)
Lemma py_index_reverse_last w j r :
  py_index (reverse w) j = Ok r →
  (r < length w)%nat ∧ w !! (length w - S r)%nat = Some j ∧
  ∀ c, w !! c = Some j → (c ≤ length w - S r)%nat.
Proof.
  intros Hr. pose proof (py_index_lt _ _ _ Hr) as Hlr. rewrite length_reverse in Hlr.
  pose proof Hr as [Hwr _]%py_index_Ok. rewrite reverse_lookup in Hwr by done.
  split; [done|]. split; [done|]. intros c Hc.
  pose proof (lookup_lt_Some _ _ _ Hc) as Hlc.
  assert (reverse w !! (length w - S c)%nat = Some j) as Hrc.
  { rewrite reverse_lookup by lia. rewrite <- Hc. f_equal. lia. }
  pose proof (py_index_first _ _ _ _ Hr Hrc). lia.
Qed.

Lemma inversions_left_gen sp fz m w :
  Packed m w →
  ∃ I, inversions Left (Some sp) fz w = Ok I ∧
       ∀ pr, pr ∈ I ↔
             ∃ (p q : Z) (a r : nat),
               (1 ≤ q < p ∧ p ≤ m) ∧ before w p q ∧
               py_index w q = Ok a ∧ py_index (reverse w) p = Ok r ∧
               pr = match sp with
                    | Value => (p, q)
                    | Position => (Z.of_nat (length w) - Z.of_nat r - Z.b2z fz,
                                   Z.of_nat a + 1 - Z.b2z fz)
                    end.
Proof.
  intros HP. unfold inversions. destruct (decide (w = [])) as [->|Hw].
  { apply Packed_nil_inv in HP as ->. exists ∅. split; [done|].
    intros pr. split; [by intros ?%not_elem_of_empty|].
    intros (p & q & a & r & ? & _). lia. }
  rewrite (Packed_pw_max m) by done.
  set (g := λ i j : Z,
         match py_index w i, py_index (reverse w) j with
         | Ok a, Ok r =>
             if decide (Z.of_nat a > Z.of_nat (length w) - Z.of_nat r - 1)
             then [match sp with
                   | Value => (j, i)
                   | Position => (Z.of_nat (length w) - Z.of_nat r - Z.b2z fz,
                                  Z.of_nat a + 1 - Z.b2z fz)
                   end]
             else []
         | _, _ => []
         end).
  rewrite (mapM_result_ext_ok _ (λ i, g i <$> py_range (i + 1) (m + 1))).
  2:{ intros i Hi%elem_of_py_range. apply mapM_result_ext_ok.
      intros j Hj%elem_of_py_range. unfold g.
      destruct (Packed_index m w i HP ltac:(lia)) as [a Ha].
      destruct (Packed_index_reverse m w j HP ltac:(lia)) as [r Hr].
      rewrite Ha, Hr. simpl. case_decide; [|done]. by destruct sp. }
  rewrite bind_Ok. eexists. split; [done|]. intros pr.
  rewrite elem_of_list_to_set, elem_of_concat_concat.
  setoid_rewrite elem_of_py_range.
  split.
  - intros (i & j & Hi & Hj & Hin). unfold g in Hin.
    destruct (Packed_index m w i HP ltac:(lia)) as [a Ha].
    destruct (Packed_index_reverse m w j HP ltac:(lia)) as [r Hr].
    rewrite Ha, Hr in Hin. case_decide as Hc; [|by apply elem_of_nil in Hin].
    apply list_elem_of_singleton in Hin as ->.
    exists j, i, a, r. split_and!; try done; try lia.
    by apply (index_before w i j a r).
  - intros (p & q & a & r & Hpq & Hbef & Ha & Hr & ->). exists q, p.
    split; [lia|]. split; [lia|]. unfold g. rewrite Ha, Hr.
    rewrite decide_True by (by apply (index_before w q p a r)). left.
Qed.

(** X18: on a packed word the left inversions never raise.  On values (the
    default support) they are the pairs [(p, q)] of letters with [q < p]
    such that every [p] stands before every [q]; on positions they are, for
    each such pair, the position of the last [p] followed by the position of
    the first [q], counted from 1, or from 0 with [from_zero]. *)
Theorem inversions_left (w : list Z) (fz : bool) :
  check w = Ok () →
  ∃ Iv Ip,
    inversions Left None fz w = Ok Iv ∧
    inversions Left (Some Value) fz w = Ok Iv ∧
    inversions Left (Some Position) fz w = Ok Ip ∧
    (∀ p q, (p, q) ∈ Iv ↔ (1 ≤ q < p ∧ p ≤ pw_max w) ∧ before w p q) ∧
    (∀ s t, (s, t) ∈ Ip ↔
            ∃ (p q : Z) (c a : nat),
              (p, q) ∈ Iv ∧
              s = Z.of_nat c + 1 - Z.b2z fz ∧ t = Z.of_nat a + 1 - Z.b2z fz ∧
              w !! c = Some p ∧ (∀ c', w !! c' = Some p → (c' ≤ c)%nat) ∧
              w !! a = Some q ∧ (∀ a', w !! a' = Some q → (a ≤ a')%nat)).
Proof.
  intros [m HP]%check_Packed. rewrite (Packed_pw_max _ _ HP).
  destruct (inversions_left_gen Value fz m w HP) as (Iv & HIv & Hv).
  destruct (inversions_left_gen Position fz m w HP) as (Ip & HIp & Hp).
  assert (∀ p q, (p, q) ∈ Iv ↔ (1 ≤ q < p ∧ p ≤ m) ∧ before w p q) as Hval.
  { intros p q. rewrite Hv. split.
    - by intros (p' & q' & a & r & ? & ? & _ & _ & [= -> ->]).
    - intros [Hpq Hbef].
      destruct (Packed_index m w q HP ltac:(lia)) as [a Ha].
      destruct (Packed_index_reverse m w p HP ltac:(lia)) as [r Hr].
      exists p, q, a, r. split_and!; try done; lia. }
  exists Iv, Ip. split; [exact HIv|]. split; [exact HIv|]. split; [exact HIp|].
  split; [exact Hval|].
  intros s t. rewrite Hp. split.
  - intros (p & q & a & r & Hpq & Hbef & Ha & Hr & [= -> ->]).
    destruct (py_index_reverse_last w p r Hr) as (Hlt & Hlast & Hmax).
    pose proof Ha as [Hfirst _]%py_index_Ok.
    exists p, q, (length w - S r)%nat, a. split_and!; try done.
    + by apply Hval.
    + lia.
    + intros a'. by apply py_index_first.
  - intros (p & q & c & a & [Hpq Hbef]%Hval & -> & -> & Hc & Hcmax & Ha & Hamin).
    destruct (Packed_index m w q HP ltac:(lia)) as [a0 Ha0].
    destruct (Packed_index_reverse m w p HP ltac:(lia)) as [r Hr].
    destruct (py_index_reverse_last w p r Hr) as (Hlt & Hlast & Hmax).
    pose proof Ha0 as [Hfirst _]%py_index_Ok.
    pose proof (py_index_first _ _ _ _ Ha0 Ha). pose proof (Hamin _ Hfirst).
    pose proof (Hmax _ Hc). pose proof (Hcmax _ Hlast).
    exists p, q, a0, r. split_and!; try done; try lia. f_equal; lia.
Qed.

Lemma inversions_left_witness :
  ∃ Iv Ip,
    inversions Left None false [3; 1; 4; 1; 2] = Ok Iv ∧
    inversions Left (Some Value) false [3; 1; 4; 1; 2] = Ok Iv ∧
    inversions Left (Some Position) false [3; 1; 4; 1; 2] = Ok Ip ∧
    (∀ p q, (p, q) ∈ Iv ↔
            (1 ≤ q < p ∧ p ≤ pw_max [3; 1; 4; 1; 2]) ∧ before [3; 1; 4; 1; 2] p q) ∧
    (∀ s t, (s, t) ∈ Ip ↔
            ∃ (p q : Z) (c a : nat),
              (p, q) ∈ Iv ∧
              s = Z.of_nat c + 1 - Z.b2z false ∧ t = Z.of_nat a + 1 - Z.b2z false ∧
              [3; 1; 4; 1; 2] !! c = Some p ∧
              (∀ c', [3; 1; 4; 1; 2] !! c' = Some p → (c' ≤ c)%nat) ∧
              [3; 1; 4; 1; 2] !! a = Some q ∧
              (∀ a', [3; 1; 4; 1; 2] !! a' = Some q → (a ≤ a')%nat)).
Proof. apply (inversions_left [3; 1; 4; 1; 2] false). by vm_compute. Defined.

(** ** Successors and predecessors *)

Lemma transpose_l a b : transpose a b a = b.
Proof. unfold transpose. by rewrite decide_True. Qed.

Lemma transpose_r a b : transpose a b b = a.
Proof. unfold transpose. case_decide; [done|]. by rewrite decide_True. Qed.

(** X19: the two step functions of the right weak order are converse to
    each other, on arbitrary words: [v] is a right successor of [u] exactly
    when [u] is a right predecessor of [v]. *)
Theorem right_succ_pred_converse (u v : list Z) :
  v ∈ right_weak_order_succ u ↔ u ∈ right_weak_order_pred v.
Proof.
  rewrite elem_of_right_succ, elem_of_right_pred. split.
  - intros (i & x & y & Hx & Hy & Hxy & ->). exists i, y, x.
    rewrite !(lookup_swap_adjacent u i x y) by done. unfold transpose_nat.
    rewrite decide_True by done. rewrite decide_False by lia. rewrite decide_True by done.
    split_and!; [done|done|lia|]. symmetry. by apply (swap_adjacent_involutive u i x y).
  - intros (i & x & y & Hx & Hy & Hxy & ->). exists i, y, x.
    rewrite !(lookup_swap_adjacent v i x y) by done. unfold transpose_nat.
    rewrite decide_True by done. rewrite decide_False by lia. rewrite decide_True by done.
    split_and!; [done|done|lia|]. symmetry. by apply (swap_adjacent_involutive v i x y).
Qed.

(** X20: the two step functions of the left weak order are converse to
    each other on packed words: every left successor of [u] has [u] among
    its left predecessors, and every left predecessor of [u] has [u] among
    its left successors; none of the calls raises. *)
Theorem left_succ_pred_converse (u : list Z) :
  check u = Ok () →
  ∃ s p, left_weak_order_succ u = Ok s ∧ left_weak_order_pred u = Ok p ∧
         (∀ v, v ∈ s → ∃ pv, left_weak_order_pred v = Ok pv ∧ u ∈ pv) ∧
         (∀ v, v ∈ p → ∃ sv, left_weak_order_succ v = Ok sv ∧ u ∈ sv).
Proof.
  intros [m HP]%check_Packed.
  destruct (left_succ_spec m u HP) as (s & Hs & Hms).
  destruct (left_pred_spec m u HP) as (p & Hp & Hmp).
  exists s, p. split; [done|]. split; [done|]. split.
  - intros v (k & Hk & Hbef & ->)%Hms.
    pose proof (Packed_swap_values m k u HP Hk) as HP'.
    destruct (left_pred_spec m _ HP') as (pv & Hpv & Hmpv).
    exists pv. split; [done|]. apply Hmpv. exists k. split; [done|]. split.
    + apply before_swap_values. by rewrite transpose_l, transpose_r.
    + by rewrite swap_values_involutive.
  - intros v (k & Hk & Hbef & ->)%Hmp.
    pose proof (Packed_swap_values m k u HP Hk) as HP'.
    destruct (left_succ_spec m _ HP') as (sv & Hsv & Hmsv).
    exists sv. split; [done|]. apply Hmsv. exists k. split; [done|]. split.
    + apply before_swap_values. by rewrite transpose_l, transpose_r.
    + by rewrite swap_values_involutive.
Qed.

Lemma left_succ_pred_converse_witness :
  ∃ s p, left_weak_order_succ [3; 1; 2] = Ok s ∧ left_weak_order_pred [3; 1; 2] = Ok p ∧
         (∀ v, v ∈ s → ∃ pv, left_weak_order_pred v = Ok pv ∧ [3; 1; 2] ∈ pv) ∧
         (∀ v, v ∈ p → ∃ sv, left_weak_order_succ v = Ok sv ∧ [3; 1; 2] ∈ sv).
Proof. apply (left_succ_pred_converse [3; 1; 2]). by vm_compute. Defined.

(** ** The extremal words of the right weak order *)

Lemma adjacent_weakly_increasing (w : list Z) :
  (∀ i x y, w !! i = Some x → w !! S i = Some y → x ≤ y) → weakly_increasing w.
Proof.
  intros Hadj i j. revert i. induction j as [|j IH]; intros i x y Hx Hy Hij; [lia|].
  destruct (decide (i = j)) as [->|Hne]; [by apply (Hadj j)|].
  assert (is_Some (w !! j)) as [z Hz].
  { apply lookup_lt_is_Some. apply lookup_lt_Some in Hy. lia. }
  pose proof (IH i x z Hx Hz ltac:(lia)). pose proof (Hadj j z y Hz Hy). lia.
Qed.

(** X21: a word has no right predecessor exactly when it is weakly
    increasing, which is also exactly when it has no right inversion; it
    has no right successor exactly when it is weakly decreasing. *)
Theorem right_order_extremal (w : list Z) :
  (right_weak_order_pred w = [] ↔ weakly_increasing w) ∧
  (inversions Right None false w = Ok ∅ ↔ weakly_increasing w) ∧
  (right_weak_order_succ w = [] ↔ weakly_increasing (reverse w)).
Proof.
  split_and!.
  - split.
    + intros Hnil. apply adjacent_weakly_increasing. intros i x y Hx Hy.
      destruct (decide (x ≤ y)) as [|Hgt]; [done|]. exfalso.
      apply (elem_of_nil (swap_adjacent w i)). rewrite <- Hnil.
      apply elem_of_right_pred. exists i, x, y. split_and!; [done|done|lia|done].
    + intros Hinc. destruct (right_weak_order_pred w) as [|v l] eqn:E; [done|]. exfalso.
      assert (v ∈ right_weak_order_pred w) as Hv by (rewrite E; left).
      apply elem_of_right_pred in Hv as (i & x & y & Hx & Hy & Hxy & _).
      specialize (Hinc i (S i) x y Hx Hy ltac:(lia)). lia.
  - destruct (inversions_right_spec false w) as (I & -> & HI). split.
    + intros [= ->] i j x y Hx Hy Hij.
      destruct (decide (x ≤ y)) as [|Hgt]; [done|]. exfalso.
      apply (not_elem_of_empty (C:=gset (Z * Z)) (Z.of_nat i + 1 - 0, Z.of_nat j + 1 - 0)).
      apply HI. exists i, j, x, y. split_and!; try done. lia.
    + intros Hinc. f_equal. apply set_eq. intros [p q]. split; [|by intros ?%not_elem_of_empty].
      intros (a & b & x & y & _ & _ & Hab & Hx & Hy & Hxy)%HI.
      specialize (Hinc a b x y Hx Hy Hab). lia.
  - split.
    + intros Hnil. apply adjacent_weakly_increasing. intros i x y Hx Hy.
      pose proof (lookup_lt_Some _ _ _ Hy) as Hlt. rewrite length_reverse in Hlt.
      rewrite reverse_lookup in Hx by lia. rewrite reverse_lookup in Hy by lia.
      destruct (decide (x ≤ y)) as [|Hgt]; [done|]. exfalso.
      apply (elem_of_nil (swap_adjacent w (length w - S (S i)))). rewrite <- Hnil.
      apply elem_of_right_succ. exists (length w - S (S i))%nat, y, x.
      split_and!; [done| |lia|done].
      by replace (S (length w - S (S i))) with (length w - S i)%nat by lia.
    + intros Hinc. destruct (right_weak_order_succ w) as [|v l] eqn:E; [done|]. exfalso.
      assert (v ∈ right_weak_order_succ w) as Hv by (rewrite E; left).
      apply elem_of_right_succ in Hv as (i & x & y & Hx & Hy & Hxy & _).
      pose proof (lookup_lt_Some _ _ _ Hy) as Hlt.
      specialize (Hinc (length w - S (S i))%nat (length w - S i)%nat y x).
      rewrite !reverse_lookup in Hinc by lia.
      replace (length w - S (length w - S (S i)))%nat with (S i) in Hinc by lia.
      replace (length w - S (length w - S i))%nat with i in Hinc by lia.
      specialize (Hinc Hy Hx ltac:(lia)). lia.
Qed.

(** ** The left weak order is a partial order *)

Lemma is_gequal_left_char mu mv u v :
  Packed mu u → Packed mv v →
  ∃ b Iu Iv, is_gequal Left u v = Ok b ∧
             inversions Right None false u = Ok Iu ∧
             inversions Right None false v = Ok Iv ∧
             (b = true ↔ same_set_partition u v ∧ Iv ⊆ Iu).
Proof.
  intros HPu HPv.
  destruct (osp_spec mu u HPu) as (bu & Hbu & Hmu).
  destruct (osp_spec mv v HPv) as (bv & Hbv & Hmv).
  destruct (inversions_right_spec false u) as (Iu & HIu & _).
  destruct (inversions_right_spec false v) as (Iv & HIv & _).
  pose proof (same_blocks_same_partition mu mv u v bu bv HPu HPv Hmu Hmv) as Hsame.
  unfold is_gequal. rewrite decide_False by done. rewrite bind_Ok. cbv iota.
  rewrite Hbu, Hbv, !bind_Ok. cbv zeta.
  destruct (decide (Left = Left ∧ (list_to_set bu : gset (gset Z)) = list_to_set bv))
    as [[_ Heq]|Hne].
  - rewrite HIv, HIu, !bind_Ok. exists (bool_decide (Iv ⊆ Iu)), Iu, Iv.
    split_and!; [done..|]. rewrite bool_decide_eq_true. split.
    + intros Hsub. split; [by apply Hsame|done].
    + by intros [_ ?].
  - exists false, Iu, Iv. split_and!; [done..|]. split; [done|].
    intros [Hs _]. exfalso. apply Hne. split; [done|]. by apply Hsame.
Qed.

Lemma same_set_partition_refl u : same_set_partition u u.
Proof.
  split; [done|]. intros i j x y x' y' Hx Hy Hx' Hy'. by simplify_eq.
Qed.

Lemma same_set_partition_trans u v w :
  same_set_partition u v → same_set_partition v w → same_set_partition u w.
Proof.
  intros [Hl1 H1] [Hl2 H2]. split; [congruence|].
  intros i j x y x'' y'' Hx Hy Hx'' Hy''.
  assert (is_Some (v !! i)) as [x' Hx'].
  { apply lookup_lt_is_Some. rewrite <- Hl1. by eapply lookup_lt_Some. }
  assert (is_Some (v !! j)) as [y' Hy'].
  { apply lookup_lt_is_Some. rewrite <- Hl1. by eapply lookup_lt_Some. }
  rewrite (H1 i j x y x' y') by done. by apply (H2 i j).
Qed.

(** Two packed words with the same pattern of equal letters and the same
    right inversions are equal. *)
Lemma same_partition_same_inversions mu mv u v Iu :
  Packed mu u → Packed mv v → same_set_partition u v →
  inversions Right None false u = Ok Iu →
  inversions Right None false v = Ok Iu →
  u = v.
Proof.
  intros HPu HPv [Hlen Hpat] HIu HIv.
  destruct (inversions_right_spec false u) as (I1 & HI1 & Hm1).
  destruct (inversions_right_spec false v) as (I2 & HI2 & Hm2).
  assert (I1 = Iu) as -> by congruence. assert (I2 = Iu) as -> by congruence.
  assert (∀ i j x y x' y', u !! i = Some x → u !! j = Some y →
            v !! i = Some x' → v !! j = Some y' → (i < j)%nat → x > y → x' > y') as Hgt.
  { intros i j x y x' y' Hx Hy Hx' Hy' Hij Hxy.
    assert ((Z.of_nat i + 1 - 0, Z.of_nat j + 1 - 0) ∈ Iu) as Hin.
    { apply Hm1. exists i, j, x, y. split_and!; try done. }
    apply Hm2 in Hin as (a & b & x0 & y0 & Ea & Eb & _ & Ha & Hb & ?).
    simpl in Ea, Eb.
    assert (a = i) as -> by lia. assert (b = j) as -> by lia. by simplify_eq. }
  assert (∀ i j x y x' y', u !! i = Some x → u !! j = Some y →
            v !! i = Some x' → v !! j = Some y' → (i < j)%nat → x' > y' → x > y) as Hgt'.
  { intros i j x y x' y' Hx Hy Hx' Hy' Hij Hxy.
    assert ((Z.of_nat i + 1 - 0, Z.of_nat j + 1 - 0) ∈ Iu) as Hin.
    { apply Hm2. exists i, j, x', y'. split_and!; try done. }
    apply Hm1 in Hin as (a & b & x0 & y0 & Ea & Eb & _ & Ha & Hb & ?).
    simpl in Ea, Eb.
    assert (a = i) as -> by lia. assert (b = j) as -> by lia. by simplify_eq. }
  assert (∀ i j x y x' y', u !! i = Some x → u !! j = Some y →
            v !! i = Some x' → v !! j = Some y' → x < y → x' < y') as Hord.
  { intros i j x y x' y' Hx Hy Hx' Hy' Hxy.
    assert (x' ≠ y') as Hne.
    { intros Heq. apply (Hpat i j x y x' y') in Heq; try done. lia. }
    destruct (decide (i < j)%nat) as [Hij|Hij].
    - destruct (decide (x' > y')) as [Hc|]; [|lia].
      pose proof (Hgt' i j x y x' y' Hx Hy Hx' Hy' Hij Hc). lia.
    - assert (i ≠ j) by (intros ->; simplify_eq; lia).
      pose proof (Hgt j i y x y' x' Hy Hx Hy' Hx' ltac:(lia) ltac:(lia)). lia. }
  set (f := λ x, match py_index u x with Ok a => v !!! a | Raise _ => 0 end).
  assert (∀ i x, u !! i = Some x → v !! i = Some (f x)) as Hf.
  { intros i x Hx. destruct (py_index_elem u x) as [a Ha];
      [by eapply list_elem_of_lookup_2|].
    unfold f. rewrite Ha. apply py_index_Ok in Ha as [Ha _].
    assert (is_Some (v !! i)) as [x' Hx'].
    { apply lookup_lt_is_Some. rewrite <- Hlen. by eapply lookup_lt_Some. }
    assert (is_Some (v !! a)) as [x'' Hx''].
    { apply lookup_lt_is_Some. rewrite <- Hlen. by eapply lookup_lt_Some. }
    rewrite (list_lookup_total_correct _ _ _ Hx''), Hx'. f_equal.
    by apply (Hpat i a x x x' x''). }
  assert (f <$> u = v) as Hfu.
  { apply list_eq. intros i. rewrite list_lookup_fmap.
    destruct (u !! i) as [x|] eqn:Hx; simpl.
    - symmetry. by apply Hf.
    - symmetry. apply lookup_ge_None. rewrite <- Hlen. by apply lookup_ge_None. }
  assert (pack u = Ok (f <$> u)) as Hpack.
  { apply (pack_relabel f mv); [|by rewrite Hfu].
    intros x y [i Hx]%list_elem_of_lookup [j Hy]%list_elem_of_lookup Hxy.
    apply (Hord i j x y); auto. }
  rewrite (pack_Packed mu u HPu), Hfu in Hpack. by injection Hpack.
Qed.

Lemma is_gequal_left_refl m u : Packed m u → is_gequal Left u u = Ok true.
Proof.
  intros HP.
  destruct (is_gequal_left_char m m u u HP HP) as (b & Iu & Iv & -> & HIu & HIv & Hb).
  f_equal. apply Hb. split; [apply same_set_partition_refl|].
  by assert (Iv = Iu) as -> by congruence.
Qed.

Lemma is_gequal_left_antisym mu mv u v :
  Packed mu u → Packed mv v →
  is_gequal Left u v = Ok true → is_gequal Left v u = Ok true → u = v.
Proof.
  intros HPu HPv.
  destruct (is_gequal_left_char mu mv u v HPu HPv) as (b & Iu & Iv & -> & HIu & HIv & Hb).
  destruct (is_gequal_left_char mv mu v u HPv HPu)
    as (b' & Iv' & Iu' & -> & HIv' & HIu' & Hb').
  intros [= ->] [= ->].
  assert (Iu' = Iu) as -> by congruence. assert (Iv' = Iv) as -> by congruence.
  destruct Hb as [Hb _]. destruct (Hb eq_refl) as [Hsame Hsub].
  destruct Hb' as [Hb' _]. destruct (Hb' eq_refl) as [_ Hsub'].
  assert (Iv = Iu) as -> by (by apply (anti_symm (⊆))).
  by eapply (same_partition_same_inversions mu mv u v).
Qed.

(** X22: on packed words [is_gequal(., ., side="left")] is a partial
    order: it is reflexive, antisymmetric and transitive. *)
Theorem is_gequal_left_partial_order (u v w : list Z) :
  check u = Ok () → check v = Ok () → check w = Ok () →
  is_gequal Left u u = Ok true ∧
  (is_gequal Left u v = Ok true → is_gequal Left v u = Ok true → u = v) ∧
  (is_gequal Left u v = Ok true → is_gequal Left v w = Ok true →
   is_gequal Left u w = Ok true).
Proof.
  intros [mu HPu]%check_Packed [mv HPv]%check_Packed [mw HPw]%check_Packed.
  split_and!.
  - by apply (is_gequal_left_refl mu).
  - by apply (is_gequal_left_antisym mu mv).
  - destruct (is_gequal_left_char mu mv u v HPu HPv) as (b & Iu & Iv & -> & HIu & HIv & Hb).
    destruct (is_gequal_left_char mv mw v w HPv HPw)
      as (b' & Iv' & Iw & -> & HIv' & HIw & Hb').
    destruct (is_gequal_left_char mu mw u w HPu HPw)
      as (b'' & Iu' & Iw' & -> & HIu' & HIw' & Hb'').
    intros [= ->] [= ->]. f_equal. apply Hb''.
    assert (Iv' = Iv) as -> by congruence. assert (Iu' = Iu) as -> by congruence.
    assert (Iw' = Iw) as -> by congruence.
    destruct Hb as [Hb _]. destruct (Hb eq_refl) as [Hs1 Hsub1].
    destruct Hb' as [Hb' _]. destruct (Hb' eq_refl) as [Hs2 Hsub2].
    split; [by eapply same_set_partition_trans|by transitivity Iv].
Qed.

Lemma is_gequal_left_partial_order_witness :
  is_gequal Left [3; 2; 2; 1] [3; 2; 2; 1] = Ok true ∧
  (is_gequal Left [3; 2; 2; 1] [3; 1; 1; 2] = Ok true →
   is_gequal Left [3; 1; 1; 2] [3; 2; 2; 1] = Ok true → [3; 2; 2; 1] = [3; 1; 1; 2]) ∧
  (is_gequal Left [3; 2; 2; 1] [3; 1; 1; 2] = Ok true →
   is_gequal Left [3; 1; 1; 2] [2; 1; 1; 3] = Ok true →
   is_gequal Left [3; 2; 2; 1] [2; 1; 1; 3] = Ok true).
Proof.
  apply (is_gequal_left_partial_order [3; 2; 2; 1] [3; 1; 1; 2] [2; 1; 1; 3]);
    by vm_compute.
Defined.

(** ** Steps and comparison in the left weak order *)

Lemma same_set_partition_swap_values k u :
  same_set_partition (swap_values k u) u.
Proof.
  split; [by rewrite swap_values_transpose, length_fmap|].
  intros i j x y x' y' Hx%lookup_swap_values Hy%lookup_swap_values Hx' Hy'.
  simplify_eq. unfold transpose in *. repeat case_decide; lia.
Qed.

Lemma same_set_partition_sym u v : same_set_partition u v → same_set_partition v u.
Proof.
  intros [Hl H]. split; [done|]. intros i j x y x' y' ? ? ? ?.
  symmetry. by apply (H i j x' y' x y).
Qed.

(** Exchanging [k] and [k + 1] when every [k] stands before every [k + 1]
    adds right inversions and removes none. *)
Lemma inversions_swap_values_subseteq m k u Iu Iv :
  Packed m u → 1 ≤ k < m → before u k (k + 1) →
  inversions Right None false u = Ok Iu →
  inversions Right None false (swap_values k u) = Ok Iv →
  Iu ⊆ Iv.
Proof.
  intros HP Hk Hbef HIu HIv.
  destruct (inversions_right_spec false u) as (I1 & HI1 & Hm1).
  destruct (inversions_right_spec false (swap_values k u)) as (I2 & HI2 & Hm2).
  assert (I1 = Iu) as -> by congruence. assert (I2 = Iv) as -> by congruence.
  intros [p q] (a & b & x & y & -> & -> & Hab & Hx & Hy & Hxy)%Hm1. apply Hm2.
  exists a, b, (transpose k (k + 1) x), (transpose k (k + 1) y).
  split_and!; try done.
  - apply lookup_swap_values. by rewrite transpose_involutive.
  - apply lookup_swap_values. by rewrite transpose_involutive.
  - destruct (decide (x = k + 1 ∧ y = k)) as [[-> ->]|Hne].
    + specialize (Hbef _ _ Hy Hx). lia.
    + unfold transpose. repeat case_decide; lia.
Qed.

Lemma swap_values_ne m k u : Packed m u → 1 ≤ k < m → swap_values k u ≠ u.
Proof.
  intros [_ HPk] Hk Heq.
  assert (k ∈ u) as [i Hi]%list_elem_of_lookup by (apply HPk; lia).
  assert (swap_values k u !! i = Some (k + 1)) as Hi'.
  { apply lookup_swap_values. by rewrite transpose_r. }
  rewrite Heq, Hi in Hi'. injection Hi'. lia.
Qed.

Lemma left_succ_gequal m k u :
  Packed m u → 1 ≤ k < m → before u k (k + 1) →
  is_gequal Left (swap_values k u) u = Ok true.
Proof.
  intros HP Hk Hbef.
  pose proof (Packed_swap_values m k u HP Hk) as HP'.
  destruct (is_gequal_left_char m m _ u HP' HP) as (b & Iv & Iu & -> & HIv & HIu & Hiff).
  f_equal. apply Hiff. split; [apply same_set_partition_swap_values|].
  by apply (inversions_swap_values_subseteq m k u).
Qed.

(** X23: in the left weak order every successor is greater and every
    predecessor is smaller: for each left successor [v] of a packed word
    [u], [v.is_gequal(u, side="left")] and [u.is_lequal(v, side="left")] are
    true and [v] differs from [u]; for each left predecessor [v],
    [u.is_gequal(v, side="left")] is true and [v] differs from [u]. *)
Theorem left_steps_monotone (u : list Z) :
  check u = Ok () →
  ∃ s p, left_weak_order_succ u = Ok s ∧ left_weak_order_pred u = Ok p ∧
         (∀ v, v ∈ s → is_gequal Left v u = Ok true ∧
                       is_lequal Left u v = Ok true ∧ v ≠ u) ∧
         (∀ v, v ∈ p → is_gequal Left u v = Ok true ∧
                       is_lequal Left v u = Ok true ∧ v ≠ u).
Proof.
  intros [m HP]%check_Packed.
  destruct (left_succ_spec m u HP) as (s & Hs & Hms).
  destruct (left_pred_spec m u HP) as (p & Hp & Hmp).
  pose proof (swap_values_ne m) as Hne.
  exists s, p. split; [done|]. split; [done|]. split.
  - intros v (k & Hk & Hbef & ->)%Hms. unfold is_lequal.
    rewrite (left_succ_gequal m) by done. auto.
  - intros v (k & Hk & Hbef & ->)%Hmp. unfold is_lequal.
    pose proof (Packed_swap_values m k u HP Hk) as HP'.
    assert (is_gequal Left u (swap_values k u) = Ok true) as ->; [|by auto].
    rewrite <- (swap_values_involutive k u) at 1.
    apply (left_succ_gequal m); [done|done|].
    apply before_swap_values. by rewrite transpose_l, transpose_r.
Qed.

Lemma left_steps_monotone_witness :
  ∃ s p, left_weak_order_succ [3; 1; 2] = Ok s ∧ left_weak_order_pred [3; 1; 2] = Ok p ∧
         (∀ v, v ∈ s → is_gequal Left v [3; 1; 2] = Ok true ∧
                       is_lequal Left [3; 1; 2] v = Ok true ∧ v ≠ [3; 1; 2]) ∧
         (∀ v, v ∈ p → is_gequal Left [3; 1; 2] v = Ok true ∧
                       is_lequal Left v [3; 1; 2] = Ok true ∧ v ≠ [3; 1; 2]).
Proof. apply (left_steps_monotone [3; 1; 2]). by vm_compute. Defined.

(** ** The blocks of the ordered set partition *)

Lemma osp_blocks m w :
  Packed m w →
  ∃ bs, to_ordered_set_partition w = Ok bs ∧ length bs = Z.to_nat m ∧
        ∀ j, (j < Z.to_nat m)%nat →
             bs !! j = Some (list_to_set ((λ i, Z.of_nat i + 1) <$>
                                           positions_from 0 (Z.of_nat j + 1) w)).
Proof.
  intros HP. unfold to_ordered_set_partition.
  rewrite (Packed_pw_max m) by done.
  destruct (osp_loop w 0 (replicate (Z.to_nat m) [])) as (lst & Hfold & Hlen & Hlook).
  { apply Forall_forall. intros x Hx%(Packed_bounds m); [|done].
    unfold len. rewrite length_replicate. destruct HP. lia. }
  change (imap (λ i val, ((0 + i)%nat, val)) w) with (imap (λ i val, (i, val)) w) in Hfold.
  rewrite Hfold, bind_Ok. eexists. split; [done|].
  rewrite length_replicate in Hlen. unfold OrderedSetPartition.
  split; [by rewrite length_fmap|]. intros j Hj.
  rewrite list_lookup_fmap, (Hlook j []); [done|by apply lookup_replicate_2].
Qed.

(** X24: the ordered set partition of a packed word has [max(w)] blocks,
    none of them empty, and its [k]-th block is the set of the positions
    (counted from 1) of the letter [k] in the word. *)
Theorem to_ordered_set_partition_spec (w : list Z) :
  check w = Ok () →
  ∃ bs, to_ordered_set_partition w = Ok bs ∧
        len bs = pw_max w ∧
        ∀ (k : nat) (B : gset Z), bs !! k = Some B →
          B ≠ ∅ ∧
          ∀ p, p ∈ B ↔ ∃ i : nat, p = Z.of_nat i + 1 ∧ w !! i = Some (Z.of_nat k + 1).
Proof.
  intros [m HP]%check_Packed. rewrite (Packed_pw_max _ _ HP).
  destruct (osp_blocks m w HP) as (bs & Hbs & Hlen & Hblocks).
  exists bs. split; [done|]. split; [unfold len; destruct HP; lia|].
  intros k B Hk. pose proof (lookup_lt_Some _ _ _ Hk) as Hlt. rewrite Hlen in Hlt.
  rewrite (Hblocks k Hlt) in Hk. injection Hk as <-.
  assert (∀ p, p ∈ (list_to_set ((λ i, Z.of_nat i + 1) <$>
                                  positions_from 0 (Z.of_nat k + 1) w) : gset Z)
               ↔ ∃ i : nat, p = Z.of_nat i + 1 ∧ w !! i = Some (Z.of_nat k + 1)) as Hmem.
  { intros p. rewrite elem_of_list_to_set, list_elem_of_fmap.
    setoid_rewrite elem_of_positions_from. setoid_rewrite Nat.sub_0_r. split.
    - intros (i & -> & _ & Hi). eauto.
    - intros (i & -> & Hi). exists i. split; [done|]. split; [lia|done]. }
  split; [|done]. intros Hempty.
  destruct HP as [_ HP].
  assert (Z.of_nat k + 1 ∈ w) as [i Hi]%list_elem_of_lookup by (apply HP; lia).
  apply (not_elem_of_empty (C:=gset Z) (Z.of_nat i + 1)). rewrite <- Hempty.
  apply Hmem. eauto.
Qed.

Lemma to_ordered_set_partition_spec_witness :
  ∃ bs, to_ordered_set_partition [1; 2; 3; 1; 1; 3] = Ok bs ∧
        len bs = pw_max [1; 2; 3; 1; 1; 3] ∧
        ∀ (k : nat) (B : gset Z), bs !! k = Some B →
          B ≠ ∅ ∧
          ∀ p, p ∈ B ↔
               ∃ i : nat, p = Z.of_nat i + 1 ∧
                          [1; 2; 3; 1; 1; 3] !! i = Some (Z.of_nat k + 1).
Proof. apply (to_ordered_set_partition_spec [1; 2; 3; 1; 1; 3]). by vm_compute. Defined.

(** ** The composition of a packed word *)

Lemma evaluation_dict_lookup w : ∀ (d : gmap Z Z) x,
  foldl (λ d x, <[x := default 0 (d !! x) + 1]> d) d w !! x
  = if decide (len (filter (λ y, y = x) w) = 0) then d !! x
    else Some (default 0 (d !! x) + len (filter (λ y, y = x) w)).
Proof.
  induction w as [|y w IH]; intros d x; [done|].
  simpl foldl. rewrite IH.
  destruct (decide (y = x)) as [->|Hne].
  - rewrite filter_cons_True by done. rewrite lookup_insert_eq. simpl. rewrite len_cons.
    pose proof (len_nonneg (filter (λ y, y = x) w)).
    case_decide as Hc; [rewrite Hc|]; f_equal; lia.
  - rewrite filter_cons_False by done. by rewrite lookup_insert_ne.
Qed.

Lemma sum_list_Z_indicator x n : ∀ a,
  sum_list_Z ((λ i, if decide (x = i + 1) then 1 else 0) <$> seqZ a (Z.of_nat n))
  = if decide (a + 1 ≤ x < a + 1 + Z.of_nat n) then 1 else 0.
Proof.
  induction n as [|n IH]; intros a.
  { simpl. by rewrite decide_False by lia. }
  rewrite seqZ_cons by lia. rewrite fmap_cons, sum_list_Z_cons.
  replace (Z.pred (Z.of_nat (S n))) with (Z.of_nat n) by lia.
  rewrite IH. repeat case_decide; lia.
Qed.

Lemma sum_list_Z_add {A} (f g : A → Z) l :
  sum_list_Z ((λ i, f i + g i) <$> l) = sum_list_Z (f <$> l) + sum_list_Z (g <$> l).
Proof.
  induction l as [|x l IH]; [done|]. rewrite !fmap_cons, !sum_list_Z_cons, IH. lia.
Qed.

Lemma sum_counts m w :
  0 ≤ m → Forall (λ x, 1 ≤ x ≤ m) w →
  sum_list_Z ((λ i, len (filter (λ y, y = i + 1) w)) <$> seqZ 0 m) = len w.
Proof.
  intros Hm. induction 1 as [|x w Hx Hw IH].
  { induction (seqZ 0 m) as [|? ? IHl]; [done|].
    rewrite fmap_cons, sum_list_Z_cons, IHl. done. }
  rewrite len_cons, <- IH.
  transitivity (sum_list_Z ((λ i, if decide (x = i + 1) then 1 else 0) <$> seqZ 0 m)
                + sum_list_Z ((λ i, len (filter (λ y, y = i + 1) w)) <$> seqZ 0 m)).
  - rewrite <- sum_list_Z_add. f_equal. apply list_fmap_ext. intros ? i _. simpl.
    rewrite filter_cons. repeat case_decide; rewrite ?len_cons; lia.
  - f_equal. rewrite <- (Z2Nat.id m) by lia. rewrite sum_list_Z_indicator.
    rewrite decide_True; [done|]. rewrite Z2Nat.id by lia. lia.
Qed.

Lemma to_composition_Packed m w :
  Packed m w → w ≠ [] →
  to_composition w = Ok ((λ i, len (filter (λ y, y = i + 1) w)) <$> seqZ 0 m).
Proof.
  intros HP Hw. unfold to_composition. rewrite decide_False by done.
  rewrite (Packed_pw_max _ _ HP). unfold py_range. rewrite Z.sub_0_r.
  apply mapM_result_ext_ok. intros i Hi%elem_of_seqZ.
  unfold evaluation_dict. rewrite evaluation_dict_lookup, lookup_empty.
  assert (i + 1 ∈ w) as Hin by (destruct HP as [_ HP]; apply HP; lia).
  assert (i + 1 ∈ filter (λ y, y = i + 1) w) as Hf by (by apply list_elem_of_filter).
  rewrite decide_False; [simpl; f_equal; lia|].
  destruct (filter (λ y, y = i + 1) w); [by apply elem_of_nil in Hf|].
  rewrite len_cons. pose proof (len_nonneg l). lia.
Qed.

(** X25: the composition of a packed word never raises; it has [max(w)]
    parts, its [k]-th part is the number of occurrences of the letter [k],
    which is positive, and the parts add up to the size of the word. *)
Theorem to_composition_spec (w : list Z) :
  check w = Ok () →
  ∃ c, to_composition w = Ok c ∧
       len c = pw_max w ∧
       (∀ (k : nat) x, c !! k = Some x →
          x = len (filter (λ y, y = Z.of_nat k + 1) w) ∧ 0 < x) ∧
       sum_list_Z c = len w.
Proof.
  intros [m HP]%check_Packed. rewrite (Packed_pw_max _ _ HP).
  destruct (decide (w = [])) as [->|Hw].
  { apply Packed_nil_inv in HP as ->. exists []. split_and!; done. }
  rewrite (to_composition_Packed m w HP Hw). eexists. split; [done|].
  assert (0 ≤ m) as Hm by (by destruct HP).
  split_and!.
  - unfold len. rewrite length_fmap, length_seqZ. lia.
  - intros k x. rewrite list_lookup_fmap.
    intros (i & [-> Hi]%lookup_seqZ & ->)%fmap_Some. simpl.
    replace (0 + Z.of_nat k + 1) with (Z.of_nat k + 1) by lia. split; [done|].
    assert (Z.of_nat k + 1 ∈ w) as Hin by (destruct HP as [_ HP]; apply HP; lia).
    assert (Z.of_nat k + 1 ∈ filter (λ y, y = Z.of_nat k + 1) w) as Hf
      by (by apply list_elem_of_filter).
    destruct (filter (λ y, y = Z.of_nat k + 1) w); [by apply elem_of_nil in Hf|].
    rewrite len_cons. pose proof (len_nonneg l). lia.
  - apply sum_counts; [done|]. apply Forall_forall. intros x. by apply Packed_bounds.
Qed.

Lemma to_composition_spec_witness :
  ∃ c, to_composition [1; 2; 3; 1; 1; 3] = Ok c ∧
       len c = pw_max [1; 2; 3; 1; 1; 3] ∧
       (∀ (k : nat) x, c !! k = Some x →
          x = len (filter (λ y, y = Z.of_nat k + 1) [1; 2; 3; 1; 1; 3]) ∧ 0 < x) ∧
       sum_list_Z c = len [1; 2; 3; 1; 1; 3].
Proof. apply (to_composition_spec [1; 2; 3; 1; 1; 3]). by vm_compute. Defined.

(** ** Comparing words of different sizes *)

(** X26: packed words of different sizes are never comparable: for either
    side, [is_gequal] and [is_lequal] return [False] on them, without
    raising. *)
Theorem is_gequal_different_sizes (sd : side) (u v : list Z) :
  check u = Ok () → check v = Ok () → length u ≠ length v →
  is_gequal sd u v = Ok false ∧ is_lequal sd u v = Ok false.
Proof.
  assert (∀ u v, check u = Ok () → check v = Ok () → length u ≠ length v →
            is_gequal sd u v = Ok false) as Hge.
  { clear u v. intros u v [mu HPu]%check_Packed [mv HPv]%check_Packed Hlen.
    destruct sd.
    - destruct (is_gequal_left_char mu mv u v HPu HPv) as (b & Iu & Iv & -> & _ & _ & Hb).
      destruct b; [|done]. destruct Hb as [Hb _].
      destruct (Hb eq_refl) as [[? _] _]. done.
    - unfold is_gequal. rewrite decide_True by done.
      assert (∃ cu, to_composition u = Ok cu ∧ sum_list_Z cu = len u) as (cu & -> & Hcu).
      { destruct (decide (u = [])) as [->|Hu]; [by exists []|].
        rewrite (to_composition_Packed mu u HPu Hu). eexists. split; [done|].
        apply sum_counts; [by destruct HPu|].
        apply Forall_forall. intros x. by apply Packed_bounds. }
      assert (∃ cv, to_composition v = Ok cv ∧ sum_list_Z cv = len v) as (cv & -> & Hcv).
      { destruct (decide (v = [])) as [->|Hv]; [by exists []|].
        rewrite (to_composition_Packed mv v HPv Hv). eexists. split; [done|].
        apply sum_counts; [by destruct HPv|].
        apply Forall_forall. intros x. by apply Packed_bounds. }
      rewrite !bind_Ok. rewrite bool_decide_eq_false_2.
      2:{ intros ->. unfold len in *. lia. }
      cbv iota.
      destruct (osp_blocks mu u HPu) as (bu & -> & _).
      destruct (osp_blocks mv v HPv) as (bv & -> & _).
      rewrite !bind_Ok. cbv zeta. rewrite decide_False; [done|]. by intros [? _]. }
  intros Hu Hv Hlen. split; [by apply Hge|]. unfold is_lequal. by apply Hge.
Qed.

Lemma is_gequal_different_sizes_witness :
  is_gequal Right [1; 2; 1] [1; 2; 1; 3] = Ok false ∧
  is_lequal Right [1; 2; 1] [1; 2; 1; 3] = Ok false.
Proof. apply (is_gequal_different_sizes Right [1; 2; 1] [1; 2; 1; 3]); by vm_compute. Defined.

(** ** Degenerate intervals *)

(** A successor of [top] met by the loop of the interval ends it: it is not
    below [top], and it has more inversions. *)
Lemma interval_level_stop m u k cur res next :
  Packed m u → 1 ≤ k < m → before u k (k + 1) →
  interval_level Left u (swap_values k u :: cur) res next = Ok (res, next, true).
Proof.
  intros HP Hk Hbef.
  pose proof (Packed_swap_values m k u HP Hk) as HP'.
  cbn [interval_level]. unfold is_lequal.
  assert (is_gequal Left u (swap_values k u) = Ok false) as ->.
  { destruct (is_gequal_left_char m m u _ HP HP') as (b & ? & ? & Hb & _).
    rewrite Hb. destruct b; [|done]. exfalso.
    apply (swap_values_ne m k u HP Hk). symmetry.
    apply (is_gequal_left_antisym m m); [done..|]. by apply (left_succ_gequal m). }
  rewrite bind_Ok.
  destruct (inversions_left_spec false m _ HP') as (Ix & HIx & _).
  destruct (inversions_left_spec false m _ HP) as (Iu & HIu & _).
  rewrite HIx, HIu, !bind_Ok.
  rewrite decide_True; [done|]. rewrite (left_step_size m u k Iu Ix); [lia|done..].
Qed.

(** X27: the interval of the left weak order between a packed word and
    itself is that word alone; two levels of the enumeration suffice. *)
Theorem weak_order_interval_degenerate (fuel : nat) (u : list Z) :
  check u = Ok () → (2 ≤ fuel)%nat →
  left_weak_order_interval fuel u u = Ok [u].
Proof.
  intros [m HP]%check_Packed Hfuel. destruct fuel as [|[|fuel]]; [lia|lia|].
  unfold left_weak_order_interval, weak_order_interval.
  rewrite (PackedWord_Packed m) by done.
  rewrite (is_gequal_left_refl m), bind_Ok by done.
  cbn [interval_levels]. rewrite decide_False by done.
  cbn [interval_level]. unfold is_lequal.
  rewrite (is_gequal_left_refl m), bind_Ok by done.
  unfold weak_order_succ.
  destruct (left_succ_spec m u HP) as (s & -> & Hs). rewrite !bind_Ok.
  destruct (elements (∅ ∪ list_to_set s : gset (list Z))) as [|x cur] eqn:E;
    [by rewrite decide_True|].
  rewrite decide_False by done.
  assert (x ∈ s) as (k & Hk & Hbef & ->)%Hs.
  { assert (x ∈ elements (∅ ∪ list_to_set s : gset (list Z))) as Hx by (rewrite E; left).
    apply elem_of_elements, elem_of_union in Hx as [Hx|Hx];
      [by apply not_elem_of_empty in Hx|].
    by apply elem_of_list_to_set in Hx. }
  by rewrite (interval_level_stop m).
Qed.

Lemma weak_order_interval_degenerate_witness :
  left_weak_order_interval 2 [1; 2; 1] [1; 2; 1] = Ok [[1; 2; 1]].
Proof. apply (weak_order_interval_degenerate 2 [1; 2; 1]); [by vm_compute|lia]. Defined.

(** ** Appending a last letter *)

Lemma PackedWord_not_Packed s :
  (∀ m, ¬ Packed m s) → ∃ e, PackedWord s = Raise e ∧ kind e = InvalidPackedWord.
Proof.
  intros Hn. unfold PackedWord.
  destruct (check_cases s) as [Hc|[Hc|Hc]]; rewrite Hc.
  - apply check_Packed in Hc as [m Hm]. by destruct (Hn m).
  - eauto.
  - eauto.
Qed.

(** X28: [upgrade_last] on a packed word [w] returns when
    [1 <= val <= max(w) + 1], whatever the flag; the result is a packed word
    with one letter more, its last letter is [val], and packing the result
    without its last letter gives [w] back.  Outside this range, a [val]
    that fits the C [int] of the array makes the call fail with a
    validation error. *)
Theorem upgrade_last_spec (w : list Z) (val : Z) (b : bool) :
  check w = Ok () →
  (1 ≤ val ≤ pw_max w + 1 →
     ∃ r, upgrade_last w (val, b) = Ok r ∧ check r = Ok () ∧
          length r = S (length w) ∧ last r = Some val ∧
          pack (slice_to (-1) r) = Ok w) ∧
  (¬ (1 ≤ val ≤ pw_max w + 1) → fits_int val →
     ∃ e, upgrade_last w (val, b) = Raise e ∧ kind e = InvalidPackedWord).
Proof.
  intros [m HP]%check_Packed. rewrite (Packed_pw_max _ _ HP).
  unfold upgrade_last.
  set (sh := λ x, if decide (x < val) then x else x + (1 - Z.b2z b)).
  assert (∀ x, x ∈ sh <$> w → x ≠ val ∨ b = true) as Hsh.
  { intros x (y & -> & Hy)%list_elem_of_fmap. unfold sh.
    destruct b; [by right|]. left. simpl. case_decide; lia. }
  split.
  - intros Hval.
    assert (∃ m', Packed m' ((sh <$> w) ++ [val])) as [m' HP'].
    { destruct HP as [Hm HPk].
      exists (if b then Z.max m val else m + 1).
      split; [destruct b; lia|]. intros k.
      rewrite elem_of_app, list_elem_of_singleton, list_elem_of_fmap.
      setoid_rewrite HPk. unfold sh. split.
      - intros [(x & -> & Hx)| ->]; destruct b; simpl; try case_decide; lia.
      - intros Hk. destruct (decide (k = val)) as [|Hne]; [by right|]. left.
        destruct b; simpl in *.
        + exists k. split; [case_decide; lia|lia].
        + destruct (decide (k < val)).
          * exists k. rewrite decide_True by done. lia.
          * exists (k - 1). rewrite decide_False by lia. lia. }
    exists ((sh <$> w) ++ [val]). split_and!.
    + by apply (PackedWord_Packed m').
    + apply check_Packed. eauto.
    + rewrite length_app, length_fmap. simpl. lia.
    + by rewrite last_snoc.
    + rewrite slice_to_m1_snoc.
      set (f := λ y, if decide (y < val) then y else y - (1 - Z.b2z b)).
      assert (f <$> (sh <$> w) = w) as Hf.
      { rewrite <- list_fmap_compose. rewrite <- (list_fmap_id w) at 2.
        apply list_fmap_ext. intros i x Hx. simpl. unfold f, sh.
        assert (x ∈ w) as Hin%(Packed_bounds _ _ _ HP) by (by eapply list_elem_of_lookup_2).
        destruct b; simpl; repeat case_decide; lia. }
      rewrite <- Hf at 2. apply (pack_relabel f m); [|by rewrite Hf].
      intros x y Hx%Hsh Hy%Hsh Hxy. unfold f.
      destruct b; simpl; repeat case_decide; try lia.
      all: destruct Hx as [?|?]; destruct Hy as [?|?]; try done; lia.
  - intros Hval _. apply PackedWord_not_Packed. intros m' HP'.
    assert (1 ≤ val ≤ m') as Hv.
    { apply (Packed_bounds _ _ _ HP'). apply elem_of_app. right. left. }
    assert (m + 1 < val) as Hbig by lia.
    pose proof (proj1 HP) as Hm.
    assert (val - 1 ∈ (sh <$> w) ++ [val]) as Hin by (destruct HP' as [_ H]; apply H; lia).
    apply elem_of_app in Hin as [Hin|Hin%list_elem_of_singleton]; [|lia].
    apply list_elem_of_fmap in Hin as (x & Hx & Hxw%(Packed_bounds _ _ _ HP)).
    unfold sh in Hx. rewrite decide_True in Hx by lia. lia.
Qed.

Lemma upgrade_last_spec_witness :
  (∃ r, upgrade_last [1; 2; 1] (2, false) = Ok r ∧ check r = Ok () ∧
        length r = S (length [1; 2; 1]) ∧ last r = Some 2 ∧
        pack (slice_to (-1) r) = Ok [1; 2; 1]) ∧
  (∃ e, upgrade_last [1; 2; 1] (4, false) = Raise e ∧ kind e = InvalidPackedWord).
Proof.
  split.
  - apply (upgrade_last_spec [1; 2; 1] 2 false); by vm_compute.
  - apply (upgrade_last_spec [1; 2; 1] 4 false); [done| |].
    + vm_compute. intros [_ H]. by apply H.
    + unfold fits_int. lia.
Defined.

(** ** The tree codecs *)

(** X29: the plain tree encoder returns on every non-empty packed word,
    with or without global descents, the tree decoder maps its tree back to
    the word, and the lengths of the labels of the tree add up to the size
    of the word.  On a word without global descent the left-variant tree
    encoder and decoder round-trip in the same way, and the number of labels
    of the tree whose flag is false is the maximum of the word. *)
Theorem tree_codecs_roundtrip (w : list Z) :
  check w = Ok () → w ≠ [] →
  (∃ t, packed_word_to_labelled_tree w = Ok t ∧
        labelled_tree_to_packed_word t = Ok w ∧
        weight t = len w) ∧
  (global_descents false false w = [] →
   ∃ t, packed_word_to_labelled_tree_left w = Ok t ∧
        labelled_tree_to_packed_word_left t = Ok w ∧
        nb_false t = pw_max w).
Proof.
  intros [m HP]%check_Packed Hw. split.
  - by apply (tree_roundtrip (length w) w m).
  - intros Hgd. rewrite (Packed_pw_max _ _ HP).
    apply (tree_left_roundtrip (length w) w m); [done|done| |done].
    by apply (no_global_descents_irreducible m).
Qed.

Lemma tree_codecs_roundtrip_witness :
  (∃ t, packed_word_to_labelled_tree [2; 1; 3; 1; 2] = Ok t ∧
        labelled_tree_to_packed_word t = Ok [2; 1; 3; 1; 2] ∧
        weight t = len [2; 1; 3; 1; 2]) ∧
  (global_descents false false [2; 1; 3; 1; 2] = [] →
   ∃ t, packed_word_to_labelled_tree_left [2; 1; 3; 1; 2] = Ok t ∧
        labelled_tree_to_packed_word_left t = Ok [2; 1; 3; 1; 2] ∧
        nb_false t = pw_max [2; 1; 3; 1; 2]).
Proof. apply (tree_codecs_roundtrip [2; 1; 3; 1; 2]); by vm_compute. Defined.

(** ** The skeletons *)

Lemma red_skeleton_S fuel w :
  packed_word_to_red_skeleton_fuel (S fuel) false w =
    (m ← py_max w;
     if decide (m = 1) then Ok (Node [] (0, replicate (length w) 1))
     else
       let pos_max := positions_from 0 m w in
       let self_m := filter (λ x, x < m) w in
       p0 ← py_get pos_max 0;
       if decide (length self_m ≤ p0)%nat then
         let lbl := replicate (length pos_max) 1 in
         pw ← PackedWord self_m;
         children ← forest_with id (packed_word_to_red_skeleton_fuel fuel false) pw;
         Ok (Node children (len children, lbl))
       else
         pw ← PackedWord self_m;
         g_desc_fact ← global_descents_factorization pw;
         F0 ← py_get g_desc_fact 0;
         '(cut, s) ← cut_loop (drop 1 g_desc_fact) (Z.of_nat p0) (len self_m) 0 (len F0);
         Fc ← py_get g_desc_fact cut;
         let s := s - len Fc in
         lbl ← pack (slice_from s w);
         children ← mapM_result (packed_word_to_red_skeleton_fuel fuel false)
                                (take cut g_desc_fact);
         Ok (Node children (Z.of_nat cut, lbl))).
Proof. reflexivity. Qed.

Lemma blue_skeleton_S fuel w :
  packed_word_to_blue_skeleton_fuel (S fuel) false w =
    if decide (length w = 1%nat) then Ok (Node [] (0, [1]))
    else
      l ← py_last w;
      let self_l := slice_to (-1) w in
      let b := bool_decide (l ∈ self_l) in
      self_l ← pack self_l;
      g_desc_fact ← global_descents_factorization self_l;
      c ← (if b then Ok true else m ← py_max w; Ok (bool_decide (l ≠ m)));
      let cut := len g_desc_fact - Z.b2z c in
      '(lbl, factors) ←
         (if b then
            F0 ← py_get g_desc_fact 0;
            i ← py_index w l;
            x ← py_get F0 i;
            s ← __add__ F0 [x];
            lbl ← PackedWord s;
            Ok (lbl, reverse (drop 1 g_desc_fact))
          else
            m ← py_max w;
            if decide (l = m) then
              lbl ← PackedWord [1];
              Ok (lbl, reverse g_desc_fact)
            else
              F0 ← py_get g_desc_fact 0;
              lbl ← pack (take (length F0) w ++ [l]);
              Ok (lbl, reverse (drop 1 g_desc_fact)));
      children ← mapM_result (packed_word_to_blue_skeleton_fuel fuel false) factors;
      Ok (Node children (cut, lbl)).
Proof. reflexivity. Qed.

Lemma mapM_factors {L} (enc : list Z → result (LTree L)) (wt : LTree L → Z) Fs :
  Forall (λ F, ∃ t, enc F = Ok t ∧ wt t = len F) Fs →
  ∃ ts, mapM_result enc Fs = Ok ts ∧ wt <$> ts = len <$> Fs.
Proof.
  induction 1 as [|F Fs (t & Ht & Hw) _ (ts & Hts & Hws)]; [by exists []|].
  exists (t :: ts). split.
  - apply mapM_result_Forall2. constructor; [done|]. by apply mapM_result_Forall2.
  - rewrite !fmap_cons. by f_equal.
Qed.

Lemma sum_len_nonneg (Fs : list (list Z)) : 0 ≤ sum_list_Z (len <$> Fs).
Proof.
  induction Fs as [|F Fs IH]; [done|].
  rewrite fmap_cons, sum_list_Z_cons. pose proof (len_nonneg F). lia.
Qed.

Lemma sum_len_take (Fs : list (list Z)) k :
  0 ≤ sum_list_Z (len <$> take k Fs) ≤ sum_list_Z (len <$> Fs).
Proof.
  split; [apply sum_len_nonneg|].
  rewrite <- (take_drop k Fs) at 2. rewrite fmap_app, sum_list_Z_app.
  pose proof (sum_len_nonneg (drop k Fs)). lia.
Qed.

(** The red skeleton of a non-empty packed word. *)
Lemma red_skeleton_weight fuel : ∀ w m,
  Packed m w → w ≠ [] → (length w ≤ fuel)%nat →
  ∃ t, packed_word_to_red_skeleton_fuel fuel false w = Ok t ∧ weight t = len w.
Proof.
  induction fuel as [|fuel IH]; intros w m HP Hw Hlen.
  { destruct w; [done|simpl in Hlen; lia]. }
  rewrite red_skeleton_S. rewrite (Packed_py_max m) by done. rewrite bind_Ok. cbv zeta.
  destruct (decide (m = 1)) as [->|Hm1].
  { eexists. split; [done|]. rewrite weight_Node. unfold len.
    rewrite length_replicate. simpl. lia. }
  pose proof (Packed_nonempty _ _ HP Hw) as Hm.
  assert (Forall (λ x, x ≤ m) w) as Hle.
  { apply Forall_forall. intros x Hx%(Packed_bounds m); [lia|done]. }
  assert (m ∈ w) as Hin by (destruct HP as [_ HP0]; apply HP0; lia).
  pose proof (positions_from_nonempty 0 m w Hin) as Hpos.
  pose proof (positions_filter_length 0 m w Hle) as Hplen.
  pose proof (Packed_remove_max m w HP ltac:(lia)) as HP'.
  set (pos_max := positions_from 0 m w) in *.
  set (self_m := filter (λ x, x < m) w) in *.
  assert (self_m ≠ []) as Hne by (apply (Packed_pos_nonempty (m - 1)); [done|lia]).
  destruct pos_max as [|p0 ps] eqn:Hpm; [done|].
  rewrite length_cons in Hplen.
  rewrite py_get_head, bind_Ok.
  rewrite (PackedWord_Packed (m - 1)) by done.
  destruct (gdf_Factorization self_m (m - 1) HP' Hne) as (Fs & HFs & HFact).
  assert (Forall (λ F, ∃ t, packed_word_to_red_skeleton_fuel fuel false F = Ok t ∧
                            weight t = len F) Fs) as Hall.
  { eapply Forall_impl; [apply (Factorization_Forall _ _ HFact)|].
    intros F (HPF & HF & _ & HlF). simpl in *.
    by apply (IH F _ HPF HF ltac:(lia)). }
  pose proof (Factorization_len _ _ HFact) as Hsum.
  destruct (decide (length self_m ≤ p0)%nat) as [Htrail|Hinside].
  - rewrite bind_Ok. unfold forest_with. rewrite decide_False by done.
    rewrite HFs, bind_Ok. unfold id at 1.
    destruct (mapM_factors _ weight Fs Hall) as (ts & -> & Hws). rewrite bind_Ok.
    eexists. split; [done|]. rewrite weight_Node, Hws, <- Hsum.
    unfold len. rewrite length_replicate. simpl length. lia.
  - rewrite bind_Ok, HFs, bind_Ok.
    destruct Fs as [|F0 Fs']; [by apply Factorization_nonempty in HFact as [_ ?]|].
    rewrite py_get_head, bind_Ok.
    change (drop 1 (F0 :: Fs')) with Fs'.
    destruct (cut_loop_spec Fs' (Z.of_nat p0) (len self_m) 0 (len F0))
      as (k & Hk & ->).
    { rewrite fmap_cons, sum_list_Z_cons in Hsum. unfold len in *. lia. }
    rewrite bind_Ok. rewrite Nat.add_0_l.
    assert (is_Some ((F0 :: Fs') !! k)) as [Fc HFc] by (apply lookup_lt_is_Some; simpl; lia).
    rewrite (py_get_Some _ _ _ HFc), bind_Ok. cbv zeta.
    assert (len F0 + sum_list_Z (len <$> take k Fs') - len Fc
            = sum_list_Z (len <$> take k (F0 :: Fs'))) as Hs.
    { assert (sum_list_Z (take (S k) (len <$> F0 :: Fs'))
              = sum_list_Z (take k (len <$> F0 :: Fs')) + len Fc) as Hsk.
      { apply sum_take_S. by rewrite list_lookup_fmap, HFc. }
      rewrite <- !fmap_take in Hsk. simpl take in Hsk at 1.
      rewrite fmap_cons, sum_list_Z_cons in Hsk. lia. }
    rewrite Hs. set (s := sum_list_Z (len <$> take k (F0 :: Fs'))).
    pose proof (sum_len_take (F0 :: Fs') k) as Hsb. fold s in Hsb.
    destruct (pack_total (slice_from s w)) as (lbl & ml & -> & _ & Hllbl). rewrite bind_Ok.
    assert (Forall (λ F, ∃ t, packed_word_to_red_skeleton_fuel fuel false F = Ok t ∧
                              weight t = len F) (take k (F0 :: Fs'))) as Hall'
      by (by apply Forall_take).
    destruct (mapM_factors _ weight _ Hall') as (ts & -> & Hws). rewrite bind_Ok.
    eexists. split; [done|]. rewrite weight_Node, Hws. fold s.
    unfold len at 1. rewrite Hllbl, slice_from_nonneg, length_drop by lia.
    unfold len in *. lia.
Qed.

(** The blue skeleton of a non-empty packed word without global descent. *)
Lemma blue_skeleton_weight fuel : ∀ w m,
  Packed m w → w ≠ [] → irreducible w → (length w ≤ fuel)%nat →
  ∃ t, packed_word_to_blue_skeleton_fuel fuel false w = Ok t ∧ weight t = len w.
Proof.
  induction fuel as [|fuel IH]; intros w m HP Hw Hirr Hlen.
  { destruct w; [done|simpl in Hlen; lia]. }
  rewrite blue_skeleton_S.
  destruct (decide (length w = 1%nat)) as [H1|H1].
  { eexists. split; [done|]. rewrite weight_Node. unfold len. rewrite H1. done. }
  destruct (last w) as [l|] eqn:Hlast; [|by apply last_None in Hlast].
  apply last_Some in Hlast as [P ->].
  rewrite py_last_snoc, bind_Ok. cbv zeta. rewrite slice_to_m1_snoc.
  assert (P ≠ []) as HPne by (intros ->; done).
  pose proof (Packed_prefix m l P HP) as HP'.
  rewrite (pack_prefix m l P HP), bind_Ok.
  assert (close_gap (bool_decide (l ∈ P)) l <$> P ≠ []) as HP'ne by (by destruct P).
  destruct (gdf_Factorization _ _ HP' HP'ne) as (Fs & -> & HFact). rewrite bind_Ok.
  destruct (Factorization_head _ _ HFact)
    as (F0 & Fs' & w'' & mF & -> & HF0 & HF0ne & Hsplit & Hw'' & Ht & Hnil).
  assert (length (close_gap (bool_decide (l ∈ P)) l <$> P) < length (P ++ [l]))%nat
    as Hshorter.
  { rewrite length_fmap, length_app. simpl. lia. }
  assert (Forall (λ F, ∃ t, packed_word_to_blue_skeleton_fuel fuel false F = Ok t ∧
                            weight t = len F) (F0 :: Fs')) as Hall.
  { eapply Forall_impl; [apply (Factorization_Forall _ _ HFact)|].
    intros F (HPF & HF & HiF & HlF). simpl in HlF.
    by apply (IH F _ HPF HF HiF ltac:(lia)). }
  pose proof (Factorization_len _ _ HFact) as Hsum.
  rewrite len_fmap, fmap_cons, sum_list_Z_cons in Hsum.
  pose proof (first_block_index _ _ _ _ _ Hsplit Hw'') as Hidx.
  pose proof (first_block_above _ _ _ _ _ _ Hsplit HF0) as Habove.
  pose proof (last_above_first_block _ _ _ _ _ _ Hsplit HF0 Hw'' Hirr HF0ne) as Hlastab.
  pose proof (length_first_block _ _ _ _ _ Hsplit) as Hlfb.
  assert (0 ≤ pw_max w'') as Ht0 by (by destruct Hw'').
  assert (1 ≤ l ≤ m) as Hlm
    by (apply (Packed_bounds m (P ++ [l])); [done|]; apply elem_of_app; right; left).
  assert (∃ ts, mapM_result (packed_word_to_blue_skeleton_fuel fuel false)
                            (reverse Fs') = Ok ts ∧
                sum_list_Z (weight <$> ts) = sum_list_Z (len <$> Fs')) as Hrest.
  { apply Forall_cons in Hall as [_ Hall']. apply Forall_reverse in Hall'.
    destruct (mapM_factors _ weight _ Hall') as (ts & Hts & Hws).
    exists ts. split; [done|]. by rewrite Hws, fmap_reverse, sum_list_Z_reverse. }
  destruct Hrest as (ts' & Hts' & Hws').
  rewrite py_get_head.
  destruct (decide (l ∈ P)) as [Hl|Hl].
  - rewrite (bool_decide_eq_true_2 _ Hl) in *. rewrite ?bind_Ok.
    assert (pw_max w'' < l) as Hlt.
    { destruct (decide (w'' = [])) as [->|Hne]; [simpl; lia|].
      destruct (Hlastab Hne) as (a & Ha & Hal). specialize (Habove a Ha).
      simpl in Habove. lia. }
    destruct (Hidx l Hl Hlt) as (i & -> & _ & Hi). rewrite bind_Ok.
    rewrite (py_get_Some _ _ _ Hi), ?bind_Ok.
    assert (Packed mF (F0 ++ [close_gap true l l - pw_max w''])) as HPlbl.
    { destruct HF0 as [HmF HF0k]. split; [done|]. intros k.
      rewrite elem_of_app, list_elem_of_singleton, HF0k. split; [|by left].
      intros [?| ->]; [done|]. apply HF0k. by eapply list_elem_of_lookup_2. }
    unfold __add__. rewrite (PackedWord_Packed mF) by done. rewrite bind_Ok.
    rewrite (PackedWord_Packed mF) by done. rewrite bind_Ok.
    rewrite bind_Ok. cbv beta iota.
    change (drop 1 (F0 :: Fs')) with Fs'. rewrite Hts', bind_Ok.
    eexists. split; [done|]. rewrite weight_Node, Hws', !len_app.
    unfold len in *. simpl length. lia.
  - rewrite (bool_decide_eq_false_2 _ Hl) in *.
    rewrite (Packed_py_max m) by done. rewrite ?bind_Ok.
    destruct (decide (l = m)) as [->|Hlm'].
    + rewrite (PackedWord_Packed 1 [1]).
      2:{ split; [lia|]. intros k. rewrite list_elem_of_singleton. lia. }
      rewrite bind_Ok.
      assert (Forall (λ F, ∃ t, packed_word_to_blue_skeleton_fuel fuel false F = Ok t ∧
                                weight t = len F) (reverse (F0 :: Fs'))) as Hall'
        by (by apply Forall_reverse).
      rewrite bind_Ok. cbv beta iota.
      destruct (mapM_factors _ weight _ Hall') as (ts & -> & Hws). rewrite bind_Ok.
      eexists. split; [done|].
      rewrite weight_Node, Hws, fmap_reverse, sum_list_Z_reverse.
      rewrite fmap_cons, sum_list_Z_cons, len_app. unfold len in *. simpl length. lia.
    + destruct (pack_total (take (length F0) (P ++ [l]) ++ [l]))
        as (lbl & ml & -> & _ & Hllbl). rewrite ?bind_Ok. cbv beta iota.
      rewrite ?bind_Ok. cbv beta iota.
      change (drop 1 (F0 :: Fs')) with Fs'. rewrite Hts', bind_Ok.
      eexists. split; [done|]. rewrite weight_Node, Hws', len_app.
      unfold len at 1. rewrite Hllbl, length_app, length_take, length_app.
      unfold len in *. simpl length. lia.
Qed.

(** X30: without [bicolor], the red and the blue skeleton forests of a
    packed word are built without error, and in each the sizes of the
    labels add up to the size of the word.  For a non-empty word each forest
    has one tree per factor of the factorization at global descents; for the
    empty word both forests are empty, while its factorization has one
    (empty) factor. *)
Theorem skeleton_forests_size (w : list Z) :
  check w = Ok () →
  ∃ fr fb Fs,
    global_descents_factorization w = Ok Fs ∧
    packed_word_to_red_skeleton_forest w = Ok fr ∧
    packed_word_to_blue_skeleton_forest w = Ok fb ∧
    (w ≠ [] → length fr = length Fs ∧ length fb = length Fs) ∧
    (w = [] → fr = [] ∧ fb = [] ∧ Fs = [[]]) ∧
    sum_list_Z (weight <$> fr) = len w ∧
    sum_list_Z (weight <$> fb) = len w.
Proof.
  intros [m HP]%check_Packed.
  unfold packed_word_to_red_skeleton_forest, packed_word_to_blue_skeleton_forest,
    packed_word_to_red_skeleton_forest_fuel, packed_word_to_blue_skeleton_forest_fuel,
    forest_with.
  destruct (decide (w = [])) as [->|Hw].
  { exists [], [], [[]]. split_and!; done. }
  destruct (gdf_Factorization w m HP Hw) as (Fs & -> & HFact). rewrite !bind_Ok.
  pose proof (Factorization_len _ _ HFact) as Hsum.
  assert (Forall (λ F, ∃ t, packed_word_to_red_skeleton_fuel (length w) false F = Ok t ∧
                            weight t = len F) (id Fs)) as Hred.
  { eapply Forall_impl; [apply (Factorization_Forall _ _ HFact)|].
    intros F (HPF & HF & _ & HlF). by apply (red_skeleton_weight _ F _ HPF HF). }
  assert (Forall (λ F, ∃ t, packed_word_to_blue_skeleton_fuel (length w) false F = Ok t ∧
                            weight t = len F) (reverse Fs)) as Hblue.
  { apply Forall_reverse.
    eapply Forall_impl; [apply (Factorization_Forall _ _ HFact)|].
    intros F (HPF & HF & HiF & HlF). by apply (blue_skeleton_weight _ F _ HPF HF). }
  destruct (mapM_factors _ weight _ Hred) as (fr & -> & Hwr).
  destruct (mapM_factors _ weight _ Hblue) as (fb & -> & Hwb).
  exists fr, fb, Fs. split_and!; [done..| | | |].
  - intros _. split.
    + apply (f_equal length) in Hwr. by rewrite !length_fmap in Hwr.
    + apply (f_equal length) in Hwb. by rewrite !length_fmap, length_reverse in Hwb.
  - done.
  - by rewrite Hwr.
  - by rewrite Hwb, fmap_reverse, sum_list_Z_reverse.
Qed.

Lemma skeleton_forests_size_witness :
  ∃ fr fb Fs,
    global_descents_factorization [5; 6; 4; 3; 4; 1; 2; 6] = Ok Fs ∧
    packed_word_to_red_skeleton_forest [5; 6; 4; 3; 4; 1; 2; 6] = Ok fr ∧
    packed_word_to_blue_skeleton_forest [5; 6; 4; 3; 4; 1; 2; 6] = Ok fb ∧
    ([5; 6; 4; 3; 4; 1; 2; 6] ≠ [] → length fr = length Fs ∧ length fb = length Fs) ∧
    ([5; 6; 4; 3; 4; 1; 2; 6] = [] → fr = [] ∧ fb = [] ∧ Fs = [[]]) ∧
    sum_list_Z (weight <$> fr) = len [5; 6; 4; 3; 4; 1; 2; 6] ∧
    sum_list_Z (weight <$> fb) = len [5; 6; 4; 3; 4; 1; 2; 6].
Proof. apply (skeleton_forests_size [5; 6; 4; 3; 4; 1; 2; 6]). by vm_compute. Defined.
